(** * Modified Sainte-Lague seat distribution: [Election.py]

    A shallow embedding of [calc_saint_lague_method] and of the properties
    its specification states about it, followed by further properties of the
    code: the outcomes of a call, the seat table, how the seats of two
    parties compare, when the margin tables can be computed, and the sign of
    their entries.

    Conventions of the embedding.
    - Python integers and numpy [int64] values are [Z]; the [uint32] seat
      counters are [Z] reduced modulo [2^32] at every store.
    - numpy [float64] values are an abstract number system (class [Number]),
      with two instances: [binary64] (the kernel's IEEE 754 floats, which
      evaluate bit for bit like numpy) and [exact] (rationals, the reading of
      the program over the reals).  Theorems that only depend on the shape of
      the computation are stated for every number system.
    - arrays are lists; a subscript follows Python's rule (a negative index
      counts from the end, anything else out of range raises [IndexError]).
    - [np.argsort] is a parameter: numpy's default sort promises an ascending
      order and nothing about the order of equal elements.
    - [print] and the [matplotlib] calls are recorded as a trace of events
      that carry the numbers shown; their formatting is not modelled.
    - scalar arithmetic between a [uint32] element and a Python integer
      yields [int64] (numpy 1.x promotion), so differences may be negative. *)

From Stdlib Require Import String.
From Stdlib Require Import ZArith List Bool Lia Permutation Sorted.
From Stdlib Require Import QArith Qround Floats.
Import ListNotations.

(* Decimal literals such as [1.2] denote the nearest binary64 number, as in Python. *)
Set Warnings "-inexact-float".

Local Open Scope Z_scope.

(** ** Exceptions *)

Inductive error : Type :=
| AssertionError
| IndexError
| OutOfFuel.   (* artefact of the embedding of [while]; never raised, see [walk_fuel_enough] *)

Inductive result (A : Type) : Type :=
| Ok (a : A)
| Raise (e : error).

Arguments Ok {A} a.
Arguments Raise {A} e.

Definition bind {A B : Type} (m : result A) (k : A -> result B) : result B :=
  match m with
  | Ok a => k a
  | Raise e => Raise e
  end.

Notation "x <- m ;; k" := (bind m (fun x => k))
  (at level 61, m at next level, right associativity).

Fixpoint mapM {A B : Type} (f : A -> result B) (l : list A) : result (list B) :=
  match l with
  | [] => Ok []
  | x :: t => y <- f x ;; ys <- mapM f t ;; Ok (y :: ys)
  end.

(** ** Subscripts *)

(** [a[i]] for a Python integer [i]. *)
Definition py_index {A : Type} (a : list A) (i : Z) : result A :=
  let n := Z.of_nat (length a) in
  let j := if i <? 0 then i + n else i in
  if (0 <=? j) && (j <? n)
  then match nth_error a (Z.to_nat j) with
       | Some x => Ok x
       | None => Raise IndexError
       end
  else Raise IndexError.

(** [a[i, j]] on a two-dimensional array stored as a list of rows. *)
Definition py_index2 {A : Type} (a : list (list A)) (i j : Z) : result A :=
  row <- py_index a i ;; py_index row j.

(** [a[i] = x]. *)
Definition py_setitem {A : Type} (a : list A) (i : Z) (x : A) : result (list A) :=
  let n := Z.of_nat (length a) in
  let j := if i <? 0 then i + n else i in
  if (0 <=? j) && (j <? n)
  then Ok (firstn (Z.to_nat j) a ++ x :: skipn (S (Z.to_nat j)) a)
  else Raise IndexError.

(** [range(n)] and [range(lo, hi)]. *)
Definition range (n : Z) : list Z := map Z.of_nat (seq 0 (Z.to_nat n)).
Definition range2 (lo hi : Z) : list Z := map (fun i => lo + i) (range (hi - lo)).

(** ** Numbers *)

Class Number (F : Type) : Type := {
  of_int : Z -> F;            (* int64 -> float64 *)
  fadd : F -> F -> F;
  fsub : F -> F -> F;
  fmul : F -> F -> F;
  fdiv : F -> F -> F;
  flt : F -> F -> bool;       (* [<] *)
  fis_nan : F -> bool;
  fceil : F -> F              (* [np.ceil] *)
}.

(** *** IEEE 754 binary64 *)

Definition float_of_int (z : Z) : float :=
  if z <? 0 then PrimFloat.opp (PrimFloat.of_uint63 (Uint63.of_Z (- z)))
  else PrimFloat.of_uint63 (Uint63.of_Z z).

(** The least integer not below [x]; zeros, infinities, NaN and numbers
    without a fractional part are returned unchanged. *)
Definition float_ceil (x : float) : float :=
  match Prim2SF x with
  | S754_finite s m e =>
      if 0 <=? e then x
      else
        let z := - ((- (if s then Z.neg m else Z.pos m)) / 2 ^ (- e)) in
        if z =? 0 then (if s then PrimFloat.opp PrimFloat.zero else PrimFloat.zero)
        else float_of_int z
  | _ => x
  end.

#[export] Instance binary64 : Number float := {
  of_int := float_of_int;
  fadd := PrimFloat.add;
  fsub := PrimFloat.sub;
  fmul := PrimFloat.mul;
  fdiv := PrimFloat.div;
  flt := PrimFloat.ltb;
  fis_nan := fun x => negb (PrimFloat.eqb x x);
  fceil := float_ceil
}.

(** *** Exact rationals.  Division by zero yields [0] here, so this
    instance is only meaningful for non-zero divisors. *)

#[export] Instance exact : Number Q := {
  of_int := inject_Z;
  fadd := Qplus;
  fsub := Qminus;
  fmul := Qmult;
  fdiv := Qdiv;
  flt := fun x y => negb (Qle_bool y x);
  fis_nan := fun _ => false;
  fceil := fun x => inject_Z (Qceiling x)
}.

(** ** Sorting *)

Section Sorting.
Context {F : Type} `{Number F}.

(** The order numpy sorts floats by: [<], with NaN after everything. *)
Definition npy_lt (a b : F) : bool :=
  flt a b || (fis_nan b && negb (fis_nan a)).

Variable a : list F.

(** [a[i] < a[j]] in that order, for indices of [a]. *)
Definition lt_at (i j : nat) : bool :=
  match nth_error a i, nth_error a j with
  | Some x, Some y => npy_lt x y
  | _, _ => false
  end.

Definition ascending (i j : nat) : Prop := lt_at j i = false.

(** [idx] is a possible result of [np.argsort(a)]: it lists every index of
    [a] once, and no later entry has a smaller key than an earlier one. *)
Definition is_argsort (idx : list nat) : Prop :=
  Permutation idx (seq 0 (length a)) /\ StronglySorted ascending idx.

(** One pass of the insertion loop of numpy's sort: the index [vi] moves
    left past every entry whose key is larger.  [done] is the sorted part
    so far, last entry first. *)
Fixpoint insert_back (vi : nat) (done : list nat) : list nat :=
  match done with
  | [] => [vi]
  | pk :: rest =>
      if lt_at vi pk then pk :: insert_back vi rest else vi :: done
  end.

(** The insertion sort numpy runs on partitions of at most 17 elements
    (and so on every array that small); it is stable. *)
Definition insertion_argsort : list nat :=
  rev (fold_left (fun done vi => insert_back vi done) (seq 0 (length a)) []).
End Sorting.

(** ** The program *)

(** What the program prints and draws, in order. *)
Inductive event (F : Type) : Type :=
| PrintSeats (rows : list (string * Z * F * F * F))
  (* name, seats, % of seats, % of votes, last winning quotient *)
| PrintGain (votes_needed : list (list F))
| PlotGain (votes_needed : list (list F))
| PrintLoss (votes_needed : list (list F))
| PlotLoss (votes_needed : list (list F))
| SaveFig (file : string)
| Show.

Arguments PrintSeats {F} rows.
Arguments PrintGain {F} votes_needed.
Arguments PlotGain {F} votes_needed.
Arguments PrintLoss {F} votes_needed.
Arguments PlotLoss {F} votes_needed.
Arguments SaveFig {F} file.
Arguments Show {F}.

Definition max_extra_seats : Z := 6.

(** Store into a [uint32] array element. *)
Definition uint32 (z : Z) : Z := z mod 2 ^ 32.

(** The local arrays of [calc_saint_lague_method] after the seats are awarded. *)
Record allocation (F : Type) : Type := {
  divisors : list F;
  quotients : list (list F);
  party_dim : list Z;
  divisor_dim : list Z;
  seats_per_party : list Z
}.

Arguments divisors {F} _.
Arguments quotients {F} _.
Arguments party_dim {F} _.
Arguments divisor_dim {F} _.
Arguments seats_per_party {F} _.

Section Program.
Context {F : Type} `{Number F}.

(** [np.argsort(_, axis=None)], applied to the flattened matrix. *)
Variable argsort : list F -> list nat.

(** [1.0 + np.array(range(num_seats + max_extra_seats)) * 2], then
    [divisors[0] = first_divisor]. *)
Definition make_divisors (num_seats max_extra : Z) (first_divisor : F) : result (list F) :=
  py_setitem
    (map (fun i => fadd (of_int 1) (of_int (i * 2))) (range (num_seats + max_extra)))
    0 first_divisor.

(** [votes[:, None] / divisors]. *)
Definition make_quotients (votes : list Z) (ds : list F) : list (list F) :=
  map (fun v => map (fun d => fdiv (of_int v) d) ds) votes.

(** [np.argsort(quotients, axis=None)[::-1]]. *)
Definition quotients_descending (qs : list (list F)) : list nat :=
  rev (argsort (concat qs)).

(** [np.unravel_index(flat, (_, ncols))]. *)
Definition unravel_index (flat : list nat) (ncols : nat) : list Z * list Z :=
  (map (fun i => Z.of_nat (i / ncols)) flat,
   map (fun i => Z.of_nat (i mod ncols)) flat).

(** [for i in range(num_seats): seats_per_party[party_dim[i]] += 1]. *)
Fixpoint award_seats (pd : list Z) (todo : list Z) (seats : list Z) : result (list Z) :=
  match todo with
  | [] => Ok seats
  | i :: rest =>
      p <- py_index pd i ;;
      s <- py_index seats p ;;
      seats' <- py_setitem seats p (uint32 (s + 1)) ;;
      award_seats pd rest seats'
  end.

(** The function from the divisors down to the loop that awards the seats. *)
Definition allocate (votes : list Z) (num_seats : Z) (first_divisor : F)
  : result (allocation F) :=
  let num_parties := length votes in
  ds <- make_divisors num_seats max_extra_seats first_divisor ;;
  let qs := make_quotients votes ds in
  let max_quotients_2d := unravel_index (quotients_descending qs) (length ds) in
  let pd := fst max_quotients_2d in
  let dd := snd max_quotients_2d in
  seats <- award_seats pd (range num_seats) (repeat 0 num_parties) ;;
  Ok {| divisors := ds; quotients := qs; party_dim := pd; divisor_dim := dd;
        seats_per_party := seats |}.

(** The rows of the table printed after the allocation; their subscripts are
    indices of parties and seat counts of the allocation. *)
Definition seat_rows (votes : list Z) (names : list string) (num_seats : Z)
    (al : allocation F) : result (list (string * Z * F * F * F)) :=
  mapM (fun p =>
          name <- py_index names p ;;
          s <- py_index (seats_per_party al) p ;;
          v <- py_index votes p ;;
          last <- py_index2 (quotients al) p (s - 1) ;;
          Ok (name, s,
              fmul (fdiv (of_int s) (of_int num_seats)) (of_int 100),
              fmul (fdiv (of_int v) (of_int (fold_right Z.add 0 votes))) (of_int 100),
              last))
       (range (Z.of_nat (length votes))).

Section Margins.
Variable al : allocation F.
Variable num_seats : Z.

(** The [while] loop of the gain side: returns [seats_to_overtake]. *)
Fixpoint overtake_loop (fuel : nat) (p extra_seats_wanted : Z)
    (seats_to_overtake extra_seats_gotten : Z) : result Z :=
  if extra_seats_gotten <? extra_seats_wanted then
    match fuel with
    | O => Raise OutOfFuel
    | S fuel' =>
        let seats_to_overtake := seats_to_overtake + 1 in
        q <- py_index (party_dim al) (num_seats - seats_to_overtake) ;;
        let extra_seats_gotten :=
          if negb (p =? q) then extra_seats_gotten + 1 else extra_seats_gotten in
        overtake_loop fuel' p extra_seats_wanted seats_to_overtake extra_seats_gotten
    end
  else Ok seats_to_overtake.

(** Every turn of either loop reads one more position of the ranking and
    stops at the first one out of range, so this many turns are never
    used up. *)
Definition walk_fuel : nat := S (Z.to_nat num_seats + length (party_dim al)).

(** Body of the gain loops, up to [quotient_diff] and the divisor it is
    multiplied by. *)
Definition gain_terms (p extra_seats_wanted : Z) : result (F * F) :=
  seats_to_overtake <- overtake_loop walk_fuel p extra_seats_wanted 0 0 ;;
  op <- py_index (party_dim al) (num_seats - seats_to_overtake) ;;
  od <- py_index (divisor_dim al) (num_seats - seats_to_overtake) ;;
  quotient_to_overtake <- py_index2 (quotients al) op od ;;
  s <- py_index (seats_per_party al) p ;;
  let total_seats_wanted := s + seats_to_overtake in
  own <- py_index2 (quotients al) p (total_seats_wanted - 1) ;;
  let quotient_diff := fsub quotient_to_overtake own in
  d <- py_index (divisors al) (total_seats_wanted - 1) ;;
  Ok (quotient_diff, d).

(** The entry [votes_needed[p, extra_seats_wanted - 1]] of the gain table. *)
Definition gain_entry (p extra_seats_wanted : Z) : result F :=
  t <- gain_terms p extra_seats_wanted ;;
  Ok (fceil (fmul (fst t) (snd t))).

(** The [while] loop of the loss side: returns [seats_to_fall_behind]. *)
Fixpoint fall_behind_loop (fuel : nat) (p seats_lost_wanted : Z)
    (seats_to_fall_behind seats_lost_gotten : Z) : result Z :=
  if seats_lost_gotten <? seats_lost_wanted then
    match fuel with
    | O => Raise OutOfFuel
    | S fuel' =>
        let seats_to_fall_behind := seats_to_fall_behind + 1 in
        q <- py_index (party_dim al) (num_seats - 1 + seats_to_fall_behind) ;;
        let seats_lost_gotten :=
          if negb (p =? q) then seats_lost_gotten + 1 else seats_lost_gotten in
        fall_behind_loop fuel' p seats_lost_wanted seats_to_fall_behind seats_lost_gotten
    end
  else Ok seats_to_fall_behind.

(** Body of the loss loops, up to [quotient_diff] and the divisor it is
    multiplied by. *)
Definition loss_terms (p seats_lost_wanted : Z) : result (F * F) :=
  seats_to_fall_behind <- fall_behind_loop walk_fuel p seats_lost_wanted 0 0 ;;
  op <- py_index (party_dim al) (num_seats - 1 + seats_to_fall_behind) ;;
  od <- py_index (divisor_dim al) (num_seats - 1 + seats_to_fall_behind) ;;
  quotient_to_lose <- py_index2 (quotients al) op od ;;
  s <- py_index (seats_per_party al) p ;;
  let total_wanted_seats := s - seats_to_fall_behind in
  own <- py_index2 (quotients al) p total_wanted_seats ;;
  let quotient_diff := fsub own quotient_to_lose in
  d <- py_index (divisors al) total_wanted_seats ;;
  Ok (quotient_diff, d).

(** The entry [votes_needed[p, seats_lost_wanted - 1]] of the loss table. *)
Definition loss_entry (p seats_lost_wanted : Z) : result F :=
  t <- loss_terms p seats_lost_wanted ;;
  Ok (fceil (fmul (fst t) (snd t))).

(** The two nested [for] loops filling a [votes_needed] table. *)
Definition votes_needed_table (entry : Z -> Z -> result F) (num_parties : nat)
  : result (list (list F)) :=
  mapM (fun p => mapM (entry p) (range2 1 max_extra_seats))
       (range (Z.of_nat num_parties)).
End Margins.

(** [calc_saint_lague_method]: the trace of what was printed and drawn, and
    whether the call returned or raised. *)
Definition calc_saint_lague_method (votes : list Z)
    (party_names party_colors : list string) (num_seats : Z)
    (first_divisor : F) : list (event F) * result unit :=
  let num_parties := length votes in
  if negb (Nat.eqb num_parties (length party_names)) then ([], Raise AssertionError)
  else if negb (Nat.eqb num_parties (length party_colors)) then ([], Raise AssertionError)
  else if negb (0 <? num_seats) then ([], Raise AssertionError)
  else
    match allocate votes num_seats first_divisor with
    | Raise e => ([], Raise e)
    | Ok al =>
        match seat_rows votes party_names num_seats al with
        | Raise e => ([], Raise e)
        | Ok rows =>
            let out := [PrintSeats rows] in
            match votes_needed_table (gain_entry al num_seats) num_parties with
            | Raise e => (out, Raise e)
            | Ok gain =>
                let out := out ++ [PrintGain gain; PlotGain gain] in
                match votes_needed_table (loss_entry al num_seats) num_parties with
                | Raise e => (out, Raise e)
                | Ok loss =>
                    (out ++ [PrintLoss loss; PlotLoss loss;
                             SaveFig "output.png"%string; Show],
                     Ok tt)
                end
            end
        end
    end.

(** [calc_2018_election]; [first_divisor] is the default [1.2] of the callee. *)
Definition calc_2018_election (first_divisor : F) : list (event F) * result unit :=
  calc_saint_lague_method
    [1284698; 557500; 355546; 409478; 1830386; 518454; 285899; 1135627]
    ["M"; "C"; "L"; "KD"; "S"; "V"; "MP"; "SD"]%string
    ["#66BEE6"; "#63A91D"; "#3399FF"; "#1B5CB1"; "#FF0000"; "#C40000"; "#008000";
     "#DDDD00"]%string
    349 first_divisor.
End Program.

(** * Notions used in the statements *)

(** ** Exceptions and subscripts *)

(** Peel the first bind of a computation known to have returned. *)
Ltac bind_inv H :=
  match type of H with
  | bind ?m _ = Ok _ =>
      let x := fresh "x" in
      let Hx := fresh "E" in
      destruct m as [x|] eqn:Hx; [cbn [bind] in H | discriminate H]
  end.

Definition no_assertion {A : Type} (r : result A) : Prop := r <> Raise AssertionError.

(** The position a Python subscript denotes. *)
Definition wrap_index {A : Type} (a : list A) (i : Z) : Z :=
  if i <? 0 then i + Z.of_nat (length a) else i.

(** The divisor [1.0 + i * 2] computed for index [i]. *)
Definition odd_divisor {F : Type} `{Number F} (i : Z) : F :=
  fadd (of_int 1) (of_int (i * 2)).

Definition sumZ (l : list Z) : Z := fold_right Z.add 0 l.

(** ** The sort *)

(** A checker for [is_argsort], for use on concrete arrays. *)
Fixpoint strongly_sortedb {F : Type} `{Number F} (a : list F) (idx : list nat) : bool :=
  match idx with
  | [] => true
  | i :: rest => forallb (fun j => negb (lt_at a j i)) rest && strongly_sortedb a rest
  end.

Definition is_argsortb {F : Type} `{Number F} (a : list F) (idx : list nat) : bool :=
  Nat.eqb (length idx) (length a)
  && forallb (fun i => existsb (Nat.eqb i) idx) (seq 0 (length a))
  && strongly_sortedb a idx.

(** Every index of [idx] has a strictly larger key than the one before. *)
Fixpoint strictly_ascendingb {F : Type} `{Number F} (a : list F) (idx : list nat) : bool :=
  match idx with
  | i :: (j :: _) as rest => lt_at a i j && strictly_ascendingb a rest
  | _ => true
  end.

(** No two entries of [a] compare equal. *)
Definition no_ties {F : Type} `{Number F} (a : list F) : Prop :=
  forall i j, (i < length a)%nat -> (j < length a)%nat -> i <> j ->
              lt_at a i j = true \/ lt_at a j i = true.

(** The sort returned a permutation of the indices of the quotients of this
    input. *)
Definition permutes {F : Type} `{Number F} (argsort : list F -> list nat)
    (votes : list Z) (num_seats : Z) (first_divisor : F) : Prop :=
  forall ds, make_divisors num_seats max_extra_seats first_divisor = Ok ds ->
             Permutation (argsort (concat (make_quotients votes ds)))
                         (seq 0 (length (concat (make_quotients votes ds)))).

(** The sort kept its whole promise on the quotients of this input. *)
Definition sorts {F : Type} `{Number F} (argsort : list F -> list nat)
    (votes : list Z) (num_seats : Z) (first_divisor : F) : Prop :=
  forall ds, make_divisors num_seats max_extra_seats first_divisor = Ok ds ->
             is_argsort (concat (make_quotients votes ds))
                        (argsort (concat (make_quotients votes ds))).

(** The same, as a test to run on concrete inputs. *)
Definition sortsb {F : Type} `{Number F} (argsort : list F -> list nat)
    (votes : list Z) (num_seats : Z) (first_divisor : F) : bool :=
  match make_divisors num_seats max_extra_seats first_divisor with
  | Ok ds => is_argsortb (concat (make_quotients votes ds))
                         (argsort (concat (make_quotients votes ds)))
  | Raise _ => true
  end.

(** Concrete sorts, for evaluation in binary64 and in exact arithmetic. *)
Definition argsort64 : list float -> list nat := fun a => insertion_argsort a.
Definition argsortQ : list Q -> list nat := fun a => insertion_argsort a.

(** The sort found no two equal quotients. *)
Definition tie_free (votes : list Z) (num_seats : Z) (first_divisor : float) : bool :=
  match make_divisors num_seats max_extra_seats first_divisor with
  | Ok ds =>
      let a := concat (make_quotients votes ds) in
      is_argsortb a (argsort64 a) && strictly_ascendingb a (argsort64 a)
  | Raise _ => false
  end.

(** ** The allocation *)

(** The parties read by the award loop, in order. *)
Definition winners (pd : list Z) (todo : list Z) : list Z :=
  map (fun i => nth (Z.to_nat i) pd 0) todo.

(** Number of seats party [p] is counted for: its positions among the
    first [num_seats] of the ranking. *)
Definition positions_won {F : Type} (num_seats : Z) (al : allocation F) (p : nat) : nat :=
  count_occ Z.eq_dec (firstn (Z.to_nat num_seats) (party_dim al)) (Z.of_nat p).

(** [seats_per_party] after the allocation. *)
Definition seats_of {F : Type} `{Number F} (argsort : list F -> list nat)
    (votes : list Z) (num_seats : Z) (first_divisor : F) : result (list Z) :=
  al <- allocate argsort votes num_seats first_divisor ;; Ok (seats_per_party al).

(** ** The global ranking *)

(** The ranking as a list of (party, divisor rank) coordinates. *)
Definition ranking {F : Type} (al : allocation F) : list (Z * Z) :=
  combine (party_dim al) (divisor_dim al).

(** The coordinate of the flat index [i] in a matrix with [ncols] columns. *)
Definition coord (ncols i : nat) : Z * Z :=
  (Z.of_nat (i / ncols), Z.of_nat (i mod ncols)).

(** [quotients[p, r]] for a coordinate [(p, r)]. *)
Definition quotient_at {F : Type} (al : allocation F) (c : Z * Z) : result F :=
  py_index2 (quotients al) (fst c) (snd c).

(** The quotient at [c1] is not smaller than the quotient at [c2]. *)
Definition not_below {F : Type} `{Number F} (al : allocation F) (c1 c2 : Z * Z) : Prop :=
  forall x y, quotient_at al c1 = Ok x -> quotient_at al c2 = Ok y -> npy_lt x y = false.

(** The quotients of one party decrease strictly from rank to rank. *)
Fixpoint strictly_decreasing {F : Type} `{Number F} (row : list F) : bool :=
  match row with
  | x :: (y :: _) as rest => npy_lt y x && strictly_decreasing rest
  | _ => true
  end.

(** The coordinates that receive a seat. *)
Definition awarded {F : Type} (num_seats : Z) (al : allocation F) : list (Z * Z) :=
  firstn (Z.to_nat num_seats) (ranking al).

(** The divisor ranks at which party [p] receives a seat. *)
Definition ranks_won {F : Type} (num_seats : Z) (al : allocation F) (p : nat) : list Z :=
  map snd (filter (fun c => fst c =? Z.of_nat p) (awarded num_seats al)).

(** ** The margin formulas, in the specification's words *)

(** Walk over [positions], counting those that do not belong to party [p],
    until [g] of them have been passed: the number of positions walked
    (own ones included) and the last one counted. *)
Fixpoint walk (p : Z) (g : nat) (positions : list (Z * Z)) {struct positions}
  : option (nat * (Z * Z)) :=
  match positions with
  | [] => None
  | c :: rest =>
      if fst c =? p then
        match walk p g rest with
        | Some (n, c') => Some (S n, c')
        | None => None
        end
      else
        match g with
        | O => None
        | S O => Some (1%nat, c)
        | S g' =>
            match walk p g' rest with
            | Some (n, c') => Some (S n, c')
            | None => None
            end
        end
  end.

Section SpecFormulas.
Context {F : Type} `{Number F}.
Variable votes : list Z.
Variable al : allocation F.
Variable num_seats : Z.

(** [Q[p][r] = votes[p] / divisors[r]], for a coordinate of the ranking. *)
Definition spec_quotient (c : Z * Z) : option F :=
  match nth_error votes (Z.to_nat (fst c)), nth_error (divisors al) (Z.to_nat (snd c)) with
  | Some v, Some d => Some (fdiv (of_int v) d)
  | _, _ => None
  end.


(** [ceil((votes[p] / divisors[k] - Qstar) * divisors[k])] with
    [k = seatsPerParty[p] - l], [Qstar] the quotient of the [l]-th coordinate
    not belonging to [p] from ranking position [num_seats] onward. *)
Definition spec_loss_margin (p l : nat) : option F :=
  match walk (Z.of_nat p) l (skipn (Z.to_nat num_seats) (ranking al)) with
  | Some (_, c) =>
      match spec_quotient c, nth_error (seats_per_party al) p, nth_error votes p with
      | Some q_star, Some s, Some v =>
          let k := s - Z.of_nat l in
          if k <? 0 then None
          else
            match nth_error (divisors al) (Z.to_nat k) with
            | Some d => Some (fceil (fmul (fsub (fdiv (of_int v) d) q_star) d))
            | None => None
            end
      | _, _, _ => None
      end
  | None => None
  end.
End SpecFormulas.

(** ** Outcomes of the whole call *)

(** A computation that fails, if at all, with [IndexError]. *)
Definition index_error_only {A : Type} (r : result A) : Prop :=
  forall e, r = Raise e -> e = IndexError.


(** ** Comparing two parties *)

(** Rank by rank, the quotient in [row_p] is larger than the one in [row_q]. *)
Fixpoint dominates {F : Type} `{Number F} (row_p row_q : list F) : bool :=
  match row_p, row_q with
  | x :: rest_p, y :: rest_q => npy_lt y x && dominates rest_p rest_q
  | _, _ => true
  end.

(** Every quotient in [row_p] is larger than every quotient in [row_q]. *)
Definition all_above {F : Type} `{Number F} (row_p row_q : list F) : bool :=
  forallb (fun x => forallb (fun y => npy_lt y x) row_q) row_p.

(** ** A small election *)

Definition names2 : list string := ["A"; "B"]%string.
Definition colors2 : list string := ["#FF0000"; "#0000FF"]%string.

(** * Facts about the embedding *)

(** ** Exceptions and subscripts *)

Lemma no_assertion_bind {A B : Type} (m : result A) (k : A -> result B) :
  no_assertion m -> (forall a, no_assertion (k a)) -> no_assertion (bind m k).
Proof.
  unfold no_assertion; destruct m as [a|e]; simpl; intros Hm Hk; [apply Hk |].
  intros [= ->]. apply Hm. reflexivity.
Qed.

Lemma no_assertion_Ok {A : Type} (a : A) : no_assertion (Ok a).
Proof. discriminate. Qed.

Lemma no_assertion_mapM {A B : Type} (f : A -> result B) (l : list A) :
  (forall a, no_assertion (f a)) -> no_assertion (mapM f l).
Proof.
  intros Hf; induction l as [|x t IH]; simpl.
  - apply no_assertion_Ok.
  - apply no_assertion_bind; [apply Hf | intros y].
    apply no_assertion_bind; [exact IH | intros ys; apply no_assertion_Ok].
Qed.

Lemma nth_error_lt {A : Type} (a : list A) (n : nat) (x : A) :
  nth_error a n = Some x -> (n < length a)%nat.
Proof. intros E. apply nth_error_Some. congruence. Qed.

Section Subscripts.
Context {A : Type}.
Implicit Types (a : list A) (i : Z) (x : A).

Lemma py_index_Ok_iff a i x :
  py_index a i = Ok x <->
  0 <= wrap_index a i /\ nth_error a (Z.to_nat (wrap_index a i)) = Some x.
Proof.
  unfold py_index, wrap_index.
  set (j := if i <? 0 then i + Z.of_nat (length a) else i).
  destruct (0 <=? j) eqn:E0; simpl.
  - apply Z.leb_le in E0.
    destruct (j <? Z.of_nat (length a)) eqn:E1.
    + destruct (nth_error a (Z.to_nat j)) as [y|] eqn:En; split.
      * intros [= ->]; auto.
      * intros [_ [= ->]]; reflexivity.
      * discriminate.
      * intros [_ ?]; discriminate.
    + apply Z.ltb_ge in E1. split; [discriminate|].
      intros [_ Hn]. apply nth_error_lt in Hn. lia.
  - apply Z.leb_gt in E0. split; [discriminate | lia].
Qed.

Lemma py_index_of_nat a (n : nat) x :
  nth_error a n = Some x -> py_index a (Z.of_nat n) = Ok x.
Proof.
  intros Hn. apply py_index_Ok_iff. unfold wrap_index.
  destruct (Z.of_nat n <? 0) eqn:E; [apply Z.ltb_lt in E; lia|].
  rewrite Nat2Z.id. split; [lia | exact Hn].
Qed.

Lemma py_index_nonneg a i x :
  0 <= i -> nth_error a (Z.to_nat i) = Some x -> py_index a i = Ok x.
Proof.
  intros Hi Hn. rewrite <- (Z2Nat.id i Hi). now apply py_index_of_nat.
Qed.

Lemma py_index_bounds a i x :
  py_index a i = Ok x -> - Z.of_nat (length a) <= i < Z.of_nat (length a).
Proof.
  intros Hi. apply py_index_Ok_iff in Hi. destruct Hi as [H0 Hn].
  apply nth_error_lt in Hn. unfold wrap_index in *.
  destruct (i <? 0) eqn:E; [apply Z.ltb_lt in E | apply Z.ltb_ge in E]; lia.
Qed.

Lemma py_index_In a i x : py_index a i = Ok x -> In x a.
Proof.
  intros Hi. apply py_index_Ok_iff in Hi. destruct Hi as [_ Hn].
  eapply nth_error_In; eauto.
Qed.

(** A subscript out of range raises [IndexError]. *)
Lemma py_index_Raise a i e : py_index a i = Raise e -> e = IndexError.
Proof.
  unfold py_index.
  destruct ((0 <=? _) && (_ <? _)); [|intros [= <-]; reflexivity].
  destruct (nth_error _ _); [discriminate | intros [= <-]; reflexivity].
Qed.

Lemma no_assertion_py_index a i : no_assertion (py_index a i).
Proof. intros E. apply py_index_Raise in E. discriminate. Qed.

Lemma py_setitem_Raise a i x e : py_setitem a i x = Raise e -> e = IndexError.
Proof.
  unfold py_setitem. destruct ((0 <=? _) && (_ <? _)); [discriminate|].
  intros [= <-]; reflexivity.
Qed.

Lemma no_assertion_py_setitem a i x : no_assertion (py_setitem a i x).
Proof. intros E. apply py_setitem_Raise in E. discriminate. Qed.

Lemma py_setitem_of_nat a (n : nat) x :
  (n < length a)%nat ->
  py_setitem a (Z.of_nat n) x = Ok (firstn n a ++ x :: skipn (S n) a).
Proof.
  intros Hn. unfold py_setitem.
  destruct (Z.of_nat n <? 0) eqn:E; [apply Z.ltb_lt in E; lia|].
  rewrite Nat2Z.id.
  replace (0 <=? Z.of_nat n) with true by (symmetry; apply Z.leb_le; lia).
  replace (Z.of_nat n <? Z.of_nat (length a)) with true
    by (symmetry; apply Z.ltb_lt; lia).
  reflexivity.
Qed.

Lemma py_setitem_nonneg a i x :
  0 <= i < Z.of_nat (length a) ->
  py_setitem a i x = Ok (firstn (Z.to_nat i) a ++ x :: skipn (S (Z.to_nat i)) a).
Proof.
  intros Hi. rewrite <- (Z2Nat.id i) at 1 by lia. apply py_setitem_of_nat. lia.
Qed.
End Subscripts.

Lemma no_assertion_py_index2 {A : Type} (a : list (list A)) (i j : Z) :
  no_assertion (py_index2 a i j).
Proof.
  apply no_assertion_bind; [apply no_assertion_py_index|].
  intros row; apply no_assertion_py_index.
Qed.

Lemma length_range (n : Z) : length (range n) = Z.to_nat n.
Proof. unfold range. rewrite length_map, length_seq. reflexivity. Qed.

Lemma nth_error_range (n : Z) (i : nat) :
  (i < Z.to_nat n)%nat -> nth_error (range n) i = Some (Z.of_nat i).
Proof.
  intros Hi. unfold range. rewrite nth_error_map, nth_error_seq.
  destruct (Nat.ltb_spec i (Z.to_nat n)); [reflexivity | lia].
Qed.

Lemma In_range (n i : Z) : In i (range n) <-> 0 <= i < n.
Proof.
  unfold range. rewrite in_map_iff. split.
  - intros (k & <- & Hk). apply in_seq in Hk. lia.
  - intros Hi. exists (Z.to_nat i). split; [lia | apply in_seq; lia].
Qed.

(** ** The divisors *)

Section DivisorFacts.
Context {F : Type} `{Number F}.

Lemma make_divisors_spec (num_seats max_extra : Z) (first_divisor : F) :
  0 < num_seats + max_extra ->
  exists ds,
    make_divisors num_seats max_extra first_divisor = Ok ds /\
    length ds = Z.to_nat (num_seats + max_extra) /\
    nth_error ds 0 = Some first_divisor /\
    forall i : nat, (1 <= i < length ds)%nat ->
                    nth_error ds i = Some (odd_divisor (Z.of_nat i)).
Proof.
  intros HN. unfold make_divisors.
  set (a := map _ (range _)).
  assert (La : length a = Z.to_nat (num_seats + max_extra))
    by (unfold a; rewrite length_map; apply length_range).
  change 0 with (Z.of_nat 0).
  rewrite py_setitem_of_nat by lia.
  eexists; split; [reflexivity|]. cbn [firstn app].
  split; [|split].
  - cbn [length]. rewrite length_skipn. lia.
  - reflexivity.
  - intros i Hi. cbn [length] in Hi. rewrite length_skipn in Hi.
    destruct i as [|i]; [lia|]. cbn [nth_error].
    rewrite nth_error_skipn. unfold a.
    rewrite nth_error_map, nth_error_range by lia.
    reflexivity.
Qed.

Lemma no_assertion_make_divisors (num_seats max_extra : Z) (first_divisor : F) :
  no_assertion (make_divisors num_seats max_extra first_divisor).
Proof. apply no_assertion_py_setitem. Qed.
End DivisorFacts.

(** ** The sort *)

Section SortFacts.
Context {F : Type} `{Number F}.
Variable a : list F.

Lemma strongly_sortedb_sound (idx : list nat) :
  strongly_sortedb a idx = true -> StronglySorted (ascending a) idx.
Proof.
  induction idx as [|i rest IH]; simpl; intros E; constructor.
  - apply IH. apply andb_prop in E. tauto.
  - apply andb_prop in E. destruct E as [E _].
    rewrite forallb_forall in E. apply Forall_forall. intros j Hj.
    unfold ascending. specialize (E j Hj). now destruct (lt_at a j i).
Qed.

Lemma is_argsortb_sound (idx : list nat) :
  is_argsortb a idx = true -> is_argsort a idx.
Proof.
  unfold is_argsortb. intros E.
  apply andb_prop in E. destruct E as [E Es].
  apply andb_prop in E. destruct E as [El Ei].
  apply Nat.eqb_eq in El. split; [|now apply strongly_sortedb_sound].
  symmetry. apply NoDup_Permutation_bis.
  - apply seq_NoDup.
  - rewrite length_seq. lia.
  - intros i Hi. rewrite forallb_forall in Ei. specialize (Ei i Hi).
    apply existsb_exists in Ei. destruct Ei as (j & Hj & Eij).
    apply Nat.eqb_eq in Eij. now subst.
Qed.

Lemma is_argsort_length (idx : list nat) :
  is_argsort a idx -> length idx = length a.
Proof.
  intros [Hp _]. apply Permutation_length in Hp. now rewrite length_seq in Hp.
Qed.

Lemma is_argsort_In (idx : list nat) (i : nat) :
  is_argsort a idx -> (In i idx <-> (i < length a)%nat).
Proof.
  intros [Hp _]. split; intros Hi.
  - eapply Permutation_in in Hi; [|exact Hp]. apply in_seq in Hi. lia.
  - eapply Permutation_in; [symmetry; exact Hp|]. apply in_seq. lia.
Qed.

Lemma is_argsort_NoDup (idx : list nat) : is_argsort a idx -> NoDup idx.
Proof.
  intros [Hp _]. eapply Permutation_NoDup; [symmetry; exact Hp | apply seq_NoDup].
Qed.
End SortFacts.

(** ** Awarding the seats *)

Lemma nth_error_update {A : Type} (a : list A) (k : nat) (x : A) (p : nat) :
  (k < length a)%nat ->
  nth_error (firstn k a ++ x :: skipn (S k) a) p =
  if Nat.eqb p k then Some x else nth_error a p.
Proof.
  intros Hk.
  assert (Lf : length (firstn k a) = k) by (rewrite length_firstn; lia).
  destruct (Nat.eqb_spec p k) as [->|Hpk].
  - rewrite nth_error_app2 by lia. rewrite Lf, Nat.sub_diag. reflexivity.
  - destruct (Nat.lt_ge_cases p k) as [Hlt|Hge].
    + rewrite nth_error_app1 by lia. rewrite nth_error_firstn.
      destruct (Nat.ltb_spec p k); [reflexivity | lia].
    + rewrite nth_error_app2 by lia. rewrite Lf.
      destruct (p - k)%nat as [|m] eqn:Em; [lia|]. cbn [nth_error].
      rewrite nth_error_skipn. f_equal. lia.
Qed.

Lemma length_update {A : Type} (a : list A) (k : nat) (x : A) :
  (k < length a)%nat -> length (firstn k a ++ x :: skipn (S k) a) = length a.
Proof.
  intros Hk. rewrite length_app, length_firstn. cbn [length].
  rewrite length_skipn. lia.
Qed.

Lemma In_update {A : Type} (a : list A) (k : nat) (x y : A) :
  In y (firstn k a ++ x :: skipn (S k) a) -> y = x \/ In y a.
Proof.
  intros Hy. apply in_app_or in Hy. destruct Hy as [Hy|[Hy|Hy]].
  - right. rewrite <- (firstn_skipn k a). apply in_or_app. now left.
  - left. congruence.
  - right. rewrite <- (firstn_skipn (S k) a). apply in_or_app. now right.
Qed.

Lemma winners_range (pd : list Z) (n : Z) :
  n <= Z.of_nat (length pd) -> winners pd (range n) = firstn (Z.to_nat n) pd.
Proof.
  intros Hn. unfold winners, range. rewrite map_map.
  assert (G : forall k : nat, (k <= length pd)%nat ->
              map (fun i => nth (Z.to_nat (Z.of_nat i)) pd 0) (seq 0 k) = firstn k pd).
  { induction k as [|k IH]; intros Hk; [reflexivity|].
    rewrite seq_S, map_app, IH by lia. cbn [map Nat.add].
    rewrite Nat2Z.id.
    rewrite <- (firstn_skipn k pd) at 3.
    rewrite firstn_app, firstn_firstn, length_firstn.
    replace (Nat.min (S k) k) with k by lia.
    replace (S k - Nat.min k (length pd))%nat with 1%nat by lia.
    f_equal.
    destruct (skipn k pd) as [|y t] eqn:Es.
    - apply (f_equal (@length Z)) in Es. rewrite length_skipn in Es. simpl in Es. lia.
    - cbn [firstn]. f_equal.
      rewrite <- (firstn_skipn k pd) at 1. rewrite Es.
      rewrite app_nth2; rewrite length_firstn; [|lia].
      replace (k - Nat.min k (length pd))%nat with 0%nat by lia. reflexivity. }
  apply G. lia.
Qed.

Lemma uint32_range (z : Z) : 0 <= uint32 z < 2 ^ 32.
Proof. unfold uint32. apply Z.mod_pos_bound. lia. Qed.

Lemma uint32_small (z : Z) : 0 <= z < 2 ^ 32 -> uint32 z = z.
Proof. unfold uint32. apply Z.mod_small. Qed.

Lemma uint32_succ (s c : Z) : uint32 (uint32 (s + 1) + c) = uint32 (s + (1 + c)).
Proof.
  unfold uint32. rewrite Zplus_mod_idemp_l. f_equal. lia.
Qed.

Lemma award_seats_spec (pd todo seats : list Z) :
  (forall i, In i todo -> 0 <= i < Z.of_nat (length pd)) ->
  (forall p, In p pd -> 0 <= p < Z.of_nat (length seats)) ->
  (forall s, In s seats -> 0 <= s < 2 ^ 32) ->
  exists seats',
    award_seats pd todo seats = Ok seats' /\
    length seats' = length seats /\
    forall (p : nat) (s : Z),
      nth_error seats p = Some s ->
      nth_error seats' p =
      Some (uint32 (s + Z.of_nat (count_occ Z.eq_dec (winners pd todo) (Z.of_nat p)))).
Proof.
  revert seats. induction todo as [|i rest IH]; intros seats Htodo Hpd Hseats.
  - exists seats. split; [reflexivity|]. split; [reflexivity|].
    intros p s Hp. cbn [winners map count_occ]. rewrite Z.add_0_r.
    rewrite uint32_small; [exact Hp|]. apply Hseats. eapply nth_error_In; eauto.
  - assert (Hi : 0 <= i < Z.of_nat (length pd)) by (apply Htodo; left; reflexivity).
    set (p0 := nth (Z.to_nat i) pd 0).
    assert (Ep0 : nth_error pd (Z.to_nat i) = Some p0)
      by (apply nth_error_nth'; lia).
    assert (Hp0 : 0 <= p0 < Z.of_nat (length seats))
      by (apply Hpd; eapply nth_error_In; eauto).
    destruct (nth_error seats (Z.to_nat p0)) as [s0|] eqn:Es0;
      [|apply nth_error_None in Es0; lia].
    cbn [award_seats].
    rewrite (py_index_nonneg pd i p0) by (lia || exact Ep0). cbn [bind].
    rewrite (py_index_nonneg seats p0 s0) by (lia || exact Es0). cbn [bind].
    rewrite py_setitem_nonneg by lia. cbn [bind].
    set (seats1 := firstn (Z.to_nat p0) seats ++ _).
    assert (L1 : length seats1 = length seats) by (apply length_update; lia).
    destruct (IH seats1) as (seats' & Eaw & Lseats' & Hnth).
    + intros j Hj. apply Htodo. right. exact Hj.
    + rewrite L1. exact Hpd.
    + intros s Hs. apply In_update in Hs. destruct Hs as [->|Hs];
        [apply uint32_range | now apply Hseats].
    + exists seats'. split; [exact Eaw|]. split; [congruence|].
      intros p s Hp. cbn [winners map]. fold (winners pd rest). fold p0.
      specialize (Hnth p).
      unfold seats1 in Hnth. rewrite nth_error_update in Hnth by lia.
      destruct (Nat.eqb_spec p (Z.to_nat p0)) as [Epk|Hne].
      * rewrite (Hnth _ eq_refl). rewrite Epk, Es0 in Hp. injection Hp as <-.
        rewrite Epk, Z2Nat.id by lia. rewrite count_occ_cons_eq by reflexivity.
        rewrite uint32_succ. do 2 f_equal. lia.
      * rewrite (Hnth _ Hp). rewrite count_occ_cons_neq by lia. reflexivity.
Qed.

Lemma no_assertion_award_seats (pd todo seats : list Z) :
  no_assertion (award_seats pd todo seats).
Proof.
  revert seats. induction todo as [|i rest IH]; intros seats; cbn [award_seats].
  - apply no_assertion_Ok.
  - apply no_assertion_bind; [apply no_assertion_py_index | intros p].
    apply no_assertion_bind; [apply no_assertion_py_index | intros s].
    apply no_assertion_bind; [apply no_assertion_py_setitem | intros seats'].
    apply IH.
Qed.

(** ** Counting *)

Lemma sumZ_app (l l' : list Z) : sumZ (l ++ l') = sumZ l + sumZ l'.
Proof. induction l as [|x t IH]; simpl; [reflexivity | rewrite IH; lia]. Qed.

Lemma sumZ_map_add {A : Type} (f g : A -> Z) (l : list A) :
  sumZ (map (fun x => f x + g x) l) = sumZ (map f l) + sumZ (map g l).
Proof. induction l as [|x t IH]; simpl; [reflexivity | rewrite IH; lia]. Qed.

Lemma sumZ_indicator (x : Z) (n : nat) :
  0 <= x ->
  sumZ (map (fun p => if Z.eq_dec x (Z.of_nat p) then 1 else 0) (seq 0 n)) =
  if x <? Z.of_nat n then 1 else 0.
Proof.
  intros Hx. induction n as [|n IH].
  - simpl. destruct (Z.ltb_spec x 0); [lia | reflexivity].
  - rewrite seq_S, map_app, sumZ_app, IH. cbn [Nat.add map sumZ fold_right].
    destruct (Z.eq_dec x (Z.of_nat n)) as [Heq|Hne];
      destruct (Z.ltb_spec x (Z.of_nat n)); destruct (Z.ltb_spec x (Z.of_nat (S n)));
      lia.
Qed.

Lemma sum_count_occ (l : list Z) (n : nat) :
  (forall x, In x l -> 0 <= x < Z.of_nat n) ->
  sumZ (map (fun p => Z.of_nat (count_occ Z.eq_dec l (Z.of_nat p))) (seq 0 n)) =
  Z.of_nat (length l).
Proof.
  induction l as [|x t IH]; intros Hl.
  - cbn [count_occ length]. induction (seq 0 n) as [|p s IHs]; simpl; [reflexivity | exact IHs].
  - assert (Hx : 0 <= x < Z.of_nat n) by (apply Hl; now left).
    rewrite (map_ext _
      (fun p => (if Z.eq_dec x (Z.of_nat p) then 1 else 0)
                + Z.of_nat (count_occ Z.eq_dec t (Z.of_nat p)))).
    + rewrite sumZ_map_add, sumZ_indicator, IH by (try lia; intros y Hy; apply Hl; now right).
      destruct (Z.ltb_spec x (Z.of_nat n)); cbn [length]; lia.
    + intros p. cbn [count_occ]. destruct (Z.eq_dec x (Z.of_nat p)); lia.
Qed.

Lemma count_occ_le_length (l : list Z) (x : Z) :
  (count_occ Z.eq_dec l x <= length l)%nat.
Proof.
  induction l as [|y t IH]; simpl; [lia|]. destruct (Z.eq_dec y x); lia.
Qed.

(** ** The allocation *)

Section AllocationFacts.
Context {F : Type} `{Number F}.
Variable argsort : list F -> list nat.
Variable votes : list Z.
Variable num_seats : Z.
Variable first_divisor : F.

Lemma sortsb_sound :
  sortsb argsort votes num_seats first_divisor = true ->
  sorts argsort votes num_seats first_divisor.
Proof.
  unfold sortsb, sorts. intros E ds Eds. rewrite Eds in E.
  now apply is_argsortb_sound.
Qed.

Lemma length_make_quotients (ds : list F) :
  length (concat (make_quotients votes ds)) = (length votes * length ds)%nat.
Proof.
  unfold make_quotients. induction votes as [|v t IH]; [reflexivity|].
  cbn [map concat length]. rewrite length_app, length_map, IH. lia.
Qed.

(** What [allocate] stores in each array. *)
Lemma allocate_inv (al : allocation F) :
  allocate argsort votes num_seats first_divisor = Ok al ->
  let ds := divisors al in
  let order := quotients_descending argsort (quotients al) in
  make_divisors num_seats max_extra_seats first_divisor = Ok ds /\
  quotients al = make_quotients votes ds /\
  party_dim al = map (fun i => Z.of_nat (i / length ds)) order /\
  divisor_dim al = map (fun i => Z.of_nat (i mod length ds)) order /\
  award_seats (party_dim al) (range num_seats) (repeat 0 (length votes))
  = Ok (seats_per_party al).
Proof.
  unfold allocate. intros E. bind_inv E. bind_inv E. injection E as <-.
  cbn. repeat split; assumption.
Qed.

Lemma sorts_permutes :
  sorts argsort votes num_seats first_divisor ->
  permutes argsort votes num_seats first_divisor.
Proof. intros Hs ds Eds. apply (Hs ds Eds). Qed.

Hypothesis Hperm : permutes argsort votes num_seats first_divisor.

Lemma order_Permutation (al : allocation F) :
  allocate argsort votes num_seats first_divisor = Ok al ->
  Permutation (quotients_descending argsort (quotients al))
              (seq 0 (length votes * length (divisors al))).
Proof.
  intros E. destruct (allocate_inv al E) as (Eds & Eq & _).
  unfold quotients_descending. rewrite Eq.
  rewrite <- Permutation_rev. rewrite <- length_make_quotients.
  apply (Hperm _ Eds).
Qed.

Lemma length_divisors (al : allocation F) :
  allocate argsort votes num_seats first_divisor = Ok al ->
  0 < num_seats ->
  length (divisors al) = Z.to_nat (num_seats + max_extra_seats).
Proof.
  intros E Hn. destruct (allocate_inv al E) as (Eds & _).
  destruct (make_divisors_spec num_seats max_extra_seats first_divisor)
    as (ds & Eds' & Lds & _); [unfold max_extra_seats; lia|].
  rewrite Eds in Eds'. injection Eds' as <-. exact Lds.
Qed.

Lemma length_party_dim (al : allocation F) :
  allocate argsort votes num_seats first_divisor = Ok al ->
  length (party_dim al) = (length votes * length (divisors al))%nat.
Proof.
  intros E. destruct (allocate_inv al E) as (_ & _ & Epd & _).
  rewrite Epd, length_map.
  rewrite (Permutation_length (order_Permutation al E)). apply length_seq.
Qed.

Lemma length_divisor_dim (al : allocation F) :
  allocate argsort votes num_seats first_divisor = Ok al ->
  length (divisor_dim al) = (length votes * length (divisors al))%nat.
Proof.
  intros E. destruct (allocate_inv al E) as (_ & _ & _ & Edd & _).
  rewrite Edd, length_map.
  rewrite (Permutation_length (order_Permutation al E)). apply length_seq.
Qed.

Lemma party_dim_range (al : allocation F) (p : Z) :
  allocate argsort votes num_seats first_divisor = Ok al ->
  In p (party_dim al) -> 0 <= p < Z.of_nat (length votes).
Proof.
  intros E Hp. destruct (allocate_inv al E) as (_ & _ & Epd & _).
  rewrite Epd in Hp. apply in_map_iff in Hp. destruct Hp as (i & <- & Hi).
  eapply Permutation_in in Hi; [|apply (order_Permutation al E)].
  apply in_seq in Hi. split; [lia|].
  apply Nat2Z.inj_lt. apply Nat.Div0.div_lt_upper_bound. lia.
Qed.

Lemma allocate_nonempty (al : allocation F) :
  allocate argsort votes num_seats first_divisor = Ok al ->
  0 < num_seats -> (1 <= length votes)%nat.
Proof.
  intros E Hn. pose proof (allocate_inv al E) as (_ & _ & _ & _ & Eaw).
  pose proof (length_party_dim al E) as Lpd.
  destruct (length votes) as [|k]; [exfalso | lia].
  cbn [Nat.mul] in Lpd. destruct (party_dim al); [|discriminate].
  unfold range in Eaw. destruct (Z.to_nat num_seats) eqn:En; [lia|].
  rewrite <- cons_seq in Eaw. cbn in Eaw. discriminate.
Qed.

Lemma seats_count (al : allocation F) :
  allocate argsort votes num_seats first_divisor = Ok al ->
  0 < num_seats ->
  seats_per_party al =
  map (fun p => uint32 (Z.of_nat (positions_won num_seats al p))) (seq 0 (length votes)).
Proof.
  intros E Hn. pose proof (allocate_inv al E) as (_ & _ & _ & _ & Eaw).
  pose proof (allocate_nonempty al E Hn) as Lv.
  assert (Ln : num_seats <= Z.of_nat (length (party_dim al))).
  { rewrite (length_party_dim al E), (length_divisors al E Hn).
    unfold max_extra_seats. nia. }
  destruct (award_seats_spec (party_dim al) (range num_seats) (repeat 0 (length votes)))
    as (seats' & Eaw' & Lseats' & Hnth).
  - intros i Hi. apply In_range in Hi. lia.
  - intros p Hp. rewrite repeat_length. now apply party_dim_range with al.
  - intros s Hs. apply repeat_spec in Hs. subst s. lia.
  - rewrite Eaw in Eaw'. injection Eaw' as <-.
    rewrite repeat_length in Lseats'.
    apply nth_error_ext. intros p.
    destruct (Nat.lt_ge_cases p (length votes)) as [Hp|Hp].
    + rewrite (Hnth p 0) by (rewrite nth_error_repeat; [reflexivity | exact Hp]).
      rewrite nth_error_map, nth_error_seq.
      destruct (Nat.ltb_spec p (length votes)); [|lia]. cbn [option_map Nat.add].
      unfold positions_won. rewrite winners_range by exact Ln. reflexivity.
    + rewrite (proj2 (nth_error_None _ _)) by lia.
      symmetry. apply nth_error_None. rewrite length_map, length_seq. exact Hp.
Qed.

Lemma allocate_total :
  votes <> [] -> 0 < num_seats ->
  exists al, allocate argsort votes num_seats first_divisor = Ok al.
Proof.
  intros Hv Hn.
  destruct (make_divisors_spec num_seats max_extra_seats first_divisor)
    as (ds & Eds & Lds & _); [unfold max_extra_seats; lia|].
  unfold allocate. rewrite Eds. cbn [bind].
  set (qs := make_quotients votes ds).
  set (pd := fst (unravel_index (quotients_descending argsort qs) (length ds))).
  pose proof (Hperm ds Eds) as Hs. fold qs in Hs.
  assert (Lorder : length (quotients_descending argsort qs)
                   = (length votes * length ds)%nat).
  { unfold quotients_descending. rewrite length_rev.
    rewrite (Permutation_length Hs), length_seq. apply length_make_quotients. }
  assert (Lv : (1 <= length votes)%nat) by (destruct votes; [congruence | simpl; lia]).
  destruct (award_seats_spec pd (range num_seats) (repeat 0 (length votes)))
    as (seats' & Eaw & _).
  - intros i Hi. apply In_range in Hi. unfold pd. cbn [fst unravel_index].
    rewrite length_map, Lorder, Lds. unfold max_extra_seats. nia.
  - intros p Hp. rewrite repeat_length. unfold pd in Hp. cbn [fst unravel_index] in Hp.
    apply in_map_iff in Hp. destruct Hp as (i & <- & Hi).
    unfold quotients_descending in Hi. apply in_rev in Hi.
    apply (Permutation_in _ Hs) in Hi. apply in_seq in Hi. unfold qs in Hi.
    rewrite length_make_quotients in Hi.
    split; [lia|]. apply Nat2Z.inj_lt. apply Nat.Div0.div_lt_upper_bound. lia.
  - intros s Hs'. apply repeat_spec in Hs'. subst s. lia.
  - rewrite Eaw. cbn [bind]. eexists. reflexivity.
Qed.
End AllocationFacts.

(** ** Conservation of seats *)

Section Conservation.
Context {F : Type} `{Number F}.
Variable argsort : list F -> list nat.
Variable votes : list Z.
Variable num_seats : Z.
Variable first_divisor : F.
Hypothesis Hperm : permutes argsort votes num_seats first_divisor.

Lemma In_firstn_party_dim (al : allocation F) (k : nat) (p : Z) :
  allocate argsort votes num_seats first_divisor = Ok al ->
  In p (firstn k (party_dim al)) -> 0 <= p < Z.of_nat (length votes).
Proof.
  intros E Hp. apply (party_dim_range argsort votes num_seats first_divisor Hperm al p E).
  rewrite <- (firstn_skipn k (party_dim al)). apply in_or_app. now left.
Qed.

(** Without wrap-around the counters add up to the number of ranking
    positions read, whatever it is. *)
Lemma sum_positions_won (al : allocation F) :
  allocate argsort votes num_seats first_divisor = Ok al ->
  0 < num_seats ->
  sumZ (map (fun p => Z.of_nat (positions_won num_seats al p)) (seq 0 (length votes)))
  = num_seats.
Proof.
  intros E Hn. unfold positions_won. rewrite sum_count_occ.
  - rewrite length_firstn.
    rewrite (length_party_dim argsort votes num_seats first_divisor Hperm al E).
    rewrite (length_divisors argsort votes num_seats first_divisor al E Hn).
    pose proof (allocate_nonempty argsort votes num_seats first_divisor Hperm al E Hn).
    unfold max_extra_seats. nia.
  - intros p Hp. eapply In_firstn_party_dim; eauto.
Qed.
End Conservation.

(** [C1], as the program has it: for a sort that did its work, at least one
    party and [0 < num_seats < 2^32] (the seat counters are [uint32]), the
    allocation returns and the seats of all parties add up to [num_seats]. *)
Theorem seat_conservation {F : Type} `{Number F} (argsort : list F -> list nat)
    (votes : list Z) (num_seats : Z) (first_divisor : F) :
  sorts argsort votes num_seats first_divisor ->
  0 < num_seats < 2 ^ 32 ->
  num_seats <= Z.of_nat (length votes) * (num_seats + max_extra_seats) ->
  exists al,
    allocate argsort votes num_seats first_divisor = Ok al /\
    sumZ (seats_per_party al) = num_seats.
Proof.
  intros Hs Hn Hcap. pose proof (sorts_permutes _ _ _ _ Hs) as Hsorts.
  assert (Hv : votes <> []) by (intros ->; cbn in Hcap; lia).
  destruct (allocate_total argsort votes num_seats first_divisor Hsorts Hv) as (al & E);
    [lia|].
  exists al. split; [exact E|].
  rewrite (seats_count argsort votes num_seats first_divisor Hsorts al E) by lia.
  etransitivity;
    [|apply (sum_positions_won argsort votes num_seats first_divisor Hsorts al E); lia].
  f_equal. apply map_ext. intros p. apply uint32_small.
  split; [lia|]. unfold positions_won.
  pose proof (count_occ_le_length (firstn (Z.to_nat num_seats) (party_dim al)) (Z.of_nat p)).
  rewrite length_firstn in *. lia.
Qed.

(** ** The insertion sort *)

Section InsertionFacts.
Context {F : Type} `{Number F}.
Variable a : list F.

Lemma insert_back_Permutation (vi : nat) (done : list nat) :
  Permutation (insert_back a vi done) (vi :: done).
Proof.
  induction done as [|pk rest IH]; cbn [insert_back]; [reflexivity|].
  destruct (lt_at a vi pk); [|reflexivity].
  rewrite IH. apply perm_swap.
Qed.

Lemma fold_insert_back_Permutation (todo done : list nat) :
  Permutation (fold_left (fun done vi => insert_back a vi done) todo done) (todo ++ done).
Proof.
  revert done. induction todo as [|vi rest IH]; intros done; cbn [fold_left app].
  - reflexivity.
  - rewrite IH, insert_back_Permutation. symmetry. apply Permutation_middle.
Qed.

Lemma insertion_argsort_Permutation :
  Permutation (insertion_argsort a) (seq 0 (length a)).
Proof.
  unfold insertion_argsort. rewrite <- Permutation_rev.
  rewrite fold_insert_back_Permutation. now rewrite app_nil_r.
Qed.
End InsertionFacts.

Lemma count_occ_all (l : list Z) (y : Z) :
  (forall x, In x l -> x = y) -> count_occ Z.eq_dec l y = length l.
Proof.
  induction l as [|x t IH]; intros Hl; [reflexivity|].
  rewrite count_occ_cons_eq by (apply Hl; now left).
  cbn [length]. f_equal. apply IH. intros z Hz. apply Hl. now right.
Qed.

(** With a single party every position of the ranking is its own, and its
    counter is [num_seats] reduced modulo [2^32]. *)
Lemma single_party_seats {F : Type} `{Number F} (argsort : list F -> list nat)
    (v num_seats : Z) (first_divisor : F) :
  permutes argsort [v] num_seats first_divisor ->
  0 < num_seats ->
  exists al,
    allocate argsort [v] num_seats first_divisor = Ok al /\
    seats_per_party al = [uint32 num_seats].
Proof.
  intros Hperm Hn.
  destruct (allocate_total argsort [v] num_seats first_divisor Hperm) as (al & E);
    [discriminate | exact Hn |].
  exists al. split; [exact E|].
  rewrite (seats_count argsort [v] num_seats first_divisor Hperm al E Hn).
  cbn [length seq map]. do 2 f_equal. unfold positions_won.
  rewrite count_occ_all.
  - rewrite length_firstn.
    rewrite (length_party_dim argsort [v] num_seats first_divisor Hperm al E).
    rewrite (length_divisors argsort [v] num_seats first_divisor al E Hn).
    cbn [length]. unfold max_extra_seats. lia.
  - intros p Hp.
    pose proof (In_firstn_party_dim argsort [v] num_seats first_divisor Hperm al _ p E Hp).
    cbn [length] in *. lia.
Qed.

Lemma argsort64_permutes (votes : list Z) (num_seats : Z) (first_divisor : float) :
  permutes argsort64 votes num_seats first_divisor.
Proof. intros ds _. apply insertion_argsort_Permutation. Qed.

(** [C1] fails as stated once [num_seats] reaches [2^32]: the only party's
    [uint32] counter wraps around to [0]. *)
Lemma seat_conservation_counterexample :
  0 < 4294967296 /\
  4294967296 <= Z.of_nat (length [1]) * (4294967296 + max_extra_seats) /\
  exists al,
    allocate argsort64 [1] 4294967296 1.2%float = Ok al /\
    seats_per_party al = [0] /\
    sumZ (seats_per_party al) <> 4294967296.
Proof.
  split; [lia|]. split; [unfold max_extra_seats; cbn [length]; lia|].
  destruct (single_party_seats argsort64 1 4294967296 1.2%float)
    as (al & E & Es); [apply argsort64_permutes | lia |].
  exists al. split; [exact E|]. rewrite Es.
  split; [reflexivity | discriminate].
Qed.

(** A run of [seat_conservation]: scenario A of the specification. *)
Lemma seat_conservation_witness :
  exists al,
    allocate argsort64 [100; 80; 30] 4 1.4%float = Ok al /\
    sumZ (seats_per_party al) = 4.
Proof.
  apply (seat_conservation argsort64 [100; 80; 30] 4).
  - apply sortsb_sound. vm_compute. reflexivity.
  - lia.
  - unfold max_extra_seats. cbn [length]. lia.
Defined.

(** ** The divisor sequence in exact arithmetic *)

Lemma odd_divisor_exact (i : Z) : (odd_divisor (F := Q) i == inject_Z (2 * i + 1))%Q.
Proof.
  unfold odd_divisor. cbn [of_int fadd exact].
  unfold Qeq, Qplus, inject_Z. cbn [Qnum Qden]. lia.
Qed.

(** [C8]: the divisors are [num_seats + max_extra] many, the first is
    [first_divisor], entry [i >= 1] is [2i + 1], and from index 1 on they
    increase strictly. *)
Theorem divisor_sequence (num_seats max_extra : Z) (first_divisor : Q) :
  0 < num_seats -> 1 <= max_extra ->
  exists ds : list Q,
    make_divisors num_seats max_extra first_divisor = Ok ds /\
    Z.of_nat (length ds) = num_seats + max_extra /\
    nth_error ds 0 = Some first_divisor /\
    (forall i : nat, (1 <= i < length ds)%nat ->
       exists d, nth_error ds i = Some d /\ (d == inject_Z (2 * Z.of_nat i + 1))%Q) /\
    (forall (i j : nat) (di dj : Q),
       (1 <= i < j)%nat -> nth_error ds i = Some di -> nth_error ds j = Some dj ->
       (di < dj)%Q).
Proof.
  intros Hn Hm.
  destruct (make_divisors_spec num_seats max_extra first_divisor)
    as (ds & E & Lds & H0 & Hi); [lia|].
  exists ds. split; [exact E|]. split; [lia|]. split; [exact H0|]. split.
  - intros i Hr. exists (odd_divisor (Z.of_nat i)). split; [now apply Hi|].
    apply odd_divisor_exact.
  - intros i j di dj Hij Ei Ej.
    pose proof (nth_error_lt _ _ _ Ej) as Lj.
    rewrite Hi in Ei by lia. rewrite Hi in Ej by lia.
    injection Ei as <-. injection Ej as <-.
    unfold odd_divisor. cbn [of_int fadd exact].
    unfold Qlt, Qplus, inject_Z. cbn [Qnum Qden]. lia.
Qed.

Lemma divisor_sequence_witness :
  exists ds : list Q,
    make_divisors 349 max_extra_seats (12 # 10) = Ok ds /\ length ds = 355%nat.
Proof.
  destruct (divisor_sequence 349 max_extra_seats (12 # 10)) as (ds & E & L & _);
    [lia | unfold max_extra_seats; lia |].
  exists ds. split; [exact E|]. unfold max_extra_seats in L. lia.
Defined.

(** The same entries in binary64, for the call of [calc_2018_election]:
    every divisor from index 1 on is the float of [2i + 1]. *)
Example divisors_2018_binary64 :
  match make_divisors 349 max_extra_seats 1.2%float with
  | Ok ds =>
      forallb (fun i => match nth_error ds i with
                        | Some d => PrimFloat.eqb d (float_of_int (2 * Z.of_nat i + 1))
                        | None => false
                        end) (seq 1 354)
  | Raise _ => false
  end = true.
Proof. vm_compute. reflexivity. Qed.

(** ** Which exceptions can be raised *)

Section NoAssertion.
Context {F : Type} `{Number F}.
Variable argsort : list F -> list nat.

Lemma no_assertion_allocate (votes : list Z) (num_seats : Z) (first_divisor : F) :
  no_assertion (allocate argsort votes num_seats first_divisor).
Proof.
  unfold allocate.
  apply no_assertion_bind; [apply no_assertion_make_divisors | intros ds].
  apply no_assertion_bind; [apply no_assertion_award_seats | intros seats].
  apply no_assertion_Ok.
Qed.

Lemma no_assertion_seat_rows (votes : list Z) (names : list string) (num_seats : Z)
    (al : allocation F) :
  no_assertion (seat_rows votes names num_seats al).
Proof.
  unfold seat_rows. apply no_assertion_mapM. intros p.
  apply no_assertion_bind; [apply no_assertion_py_index | intros name].
  apply no_assertion_bind; [apply no_assertion_py_index | intros s].
  apply no_assertion_bind; [apply no_assertion_py_index | intros v].
  apply no_assertion_bind; [apply no_assertion_py_index2 | intros q].
  apply no_assertion_Ok.
Qed.

Variable al : allocation F.
Variable num_seats : Z.

Lemma no_assertion_overtake_loop (fuel : nat) (p wanted walked gotten : Z) :
  no_assertion (overtake_loop al num_seats fuel p wanted walked gotten).
Proof.
  revert walked gotten. induction fuel as [|fuel IH]; intros walked gotten;
    cbn [overtake_loop]; destruct (gotten <? wanted); try discriminate.
  apply no_assertion_bind; [apply no_assertion_py_index | intros q]. apply IH.
Qed.

Lemma no_assertion_fall_behind_loop (fuel : nat) (p wanted walked gotten : Z) :
  no_assertion (fall_behind_loop al num_seats fuel p wanted walked gotten).
Proof.
  revert walked gotten. induction fuel as [|fuel IH]; intros walked gotten;
    cbn [fall_behind_loop]; destruct (gotten <? wanted); try discriminate.
  apply no_assertion_bind; [apply no_assertion_py_index | intros q]. apply IH.
Qed.

Lemma no_assertion_gain_entry (p wanted : Z) :
  no_assertion (gain_entry al num_seats p wanted).
Proof.
  unfold gain_entry, gain_terms.
  apply no_assertion_bind; [|intros t; apply no_assertion_Ok].
  apply no_assertion_bind; [apply no_assertion_overtake_loop | intros w].
  apply no_assertion_bind; [apply no_assertion_py_index | intros op].
  apply no_assertion_bind; [apply no_assertion_py_index | intros od].
  apply no_assertion_bind; [apply no_assertion_py_index2 | intros q].
  apply no_assertion_bind; [apply no_assertion_py_index | intros s].
  apply no_assertion_bind; [apply no_assertion_py_index2 | intros own].
  apply no_assertion_bind; [apply no_assertion_py_index | intros d].
  apply no_assertion_Ok.
Qed.

Lemma no_assertion_loss_entry (p wanted : Z) :
  no_assertion (loss_entry al num_seats p wanted).
Proof.
  unfold loss_entry, loss_terms.
  apply no_assertion_bind; [|intros t; apply no_assertion_Ok].
  apply no_assertion_bind; [apply no_assertion_fall_behind_loop | intros w].
  apply no_assertion_bind; [apply no_assertion_py_index | intros op].
  apply no_assertion_bind; [apply no_assertion_py_index | intros od].
  apply no_assertion_bind; [apply no_assertion_py_index2 | intros q].
  apply no_assertion_bind; [apply no_assertion_py_index | intros s].
  apply no_assertion_bind; [apply no_assertion_py_index2 | intros own].
  apply no_assertion_bind; [apply no_assertion_py_index | intros d].
  apply no_assertion_Ok.
Qed.

Lemma no_assertion_votes_needed_table (entry : Z -> Z -> result F) (num_parties : nat) :
  (forall p g, no_assertion (entry p g)) ->
  no_assertion (votes_needed_table entry num_parties).
Proof.
  intros He. unfold votes_needed_table.
  apply no_assertion_mapM. intros p. apply no_assertion_mapM. apply He.
Qed.
End NoAssertion.

(** [C9], as the program has it: the call fails with [AssertionError] exactly
    when the three arrays differ in length or [num_seats <= 0] (the first
    divisor is not checked, and [max_extra_seats] is the constant 6), and
    then nothing has been printed. *)
Theorem validation_errors {F : Type} `{Number F} (argsort : list F -> list nat)
    (votes : list Z) (party_names party_colors : list string) (num_seats : Z)
    (first_divisor : F) :
  let run := calc_saint_lague_method argsort votes party_names party_colors
                                     num_seats first_divisor in
  (snd run = Raise AssertionError <->
   length votes <> length party_names \/ length votes <> length party_colors \/
   num_seats <= 0) /\
  (snd run = Raise AssertionError -> fst run = []).
Proof.
  cbv zeta. unfold calc_saint_lague_method.
  destruct (Nat.eqb_spec (length votes) (length party_names)) as [En|En]; cbn [negb];
    [|split; [split; auto|reflexivity]].
  destruct (Nat.eqb_spec (length votes) (length party_colors)) as [Ec|Ec]; cbn [negb];
    [|split; [split; auto|reflexivity]].
  destruct (Z.ltb_spec 0 num_seats) as [Hn|Hn]; cbn [negb];
    [|split; [split; auto|reflexivity]].
  assert (G : forall (out : list (event F)) (r : result unit),
             no_assertion r ->
             (snd (out, r) = Raise AssertionError <->
              length votes <> length party_names \/
              length votes <> length party_colors \/ num_seats <= 0) /\
             (snd (out, r) = Raise AssertionError -> fst (out, r) = [])).
  { intros out r Hr. cbn [fst snd]. split; [split|]; intros; try contradiction. lia. }
  pose proof (no_assertion_allocate argsort votes num_seats first_divisor) as Ha.
  destruct (allocate argsort votes num_seats first_divisor) as [al|e];
    [|apply G; intros [= ->]; now apply Ha].
  pose proof (no_assertion_seat_rows votes party_names num_seats al) as Hr.
  destruct (seat_rows votes party_names num_seats al) as [rows|e];
    [|apply G; intros [= ->]; now apply Hr].
  pose proof (no_assertion_votes_needed_table (gain_entry al num_seats) (length votes)
                (no_assertion_gain_entry al num_seats)) as Hg.
  destruct (votes_needed_table (gain_entry al num_seats) (length votes)) as [gain|e];
    [|apply G; intros [= ->]; now apply Hg].
  pose proof (no_assertion_votes_needed_table (loss_entry al num_seats) (length votes)
                (no_assertion_loss_entry al num_seats)) as Hl.
  destruct (votes_needed_table (loss_entry al num_seats) (length votes)) as [loss|e];
    [|apply G; intros [= ->]; now apply Hl].
  apply G. discriminate.
Qed.

(** [C9] fails as stated: a first divisor that is not positive is accepted,
    and the call runs to its end. *)
Lemma validation_errors_counterexample :
  PrimFloat.leb (-1)%float 0%float = true /\
  snd (calc_saint_lague_method argsort64 [100; 90] ["A"; "B"]%string ["red"; "blue"]%string
                               10 (-1)%float)
  = Ok tt.
Proof. split; vm_compute; reflexivity. Qed.

(** ** Sorted lists *)

Section SortedLists.
Context {A : Type}.
Implicit Types R : A -> A -> Prop.

Lemma StronglySorted_app_inv R (l1 l2 : list A) :
  StronglySorted R (l1 ++ l2) ->
  StronglySorted R l1 /\ StronglySorted R l2 /\
  forall x y, In x l1 -> In y l2 -> R x y.
Proof.
  induction l1 as [|a t IH]; cbn [app]; intros Hs.
  - split; [constructor|]. split; [exact Hs|]. intros x y [].
  - apply StronglySorted_inv in Hs. destruct Hs as [Ht Ha].
    destruct (IH Ht) as (H1 & H2 & H12).
    rewrite Forall_app in Ha. destruct Ha as [Ha1 Ha2].
    split; [constructor; assumption|]. split; [exact H2|].
    intros x y [<-|Hx] Hy.
    + rewrite Forall_forall in Ha2. now apply Ha2.
    + now apply H12.
Qed.

Lemma StronglySorted_app R (l1 l2 : list A) :
  StronglySorted R l1 -> StronglySorted R l2 ->
  (forall x y, In x l1 -> In y l2 -> R x y) ->
  StronglySorted R (l1 ++ l2).
Proof.
  induction l1 as [|a t IH]; cbn [app]; intros H1 H2 H12; [exact H2|].
  apply StronglySorted_inv in H1. destruct H1 as [Ht Ha].
  constructor.
  - apply IH; auto. intros x y Hx Hy. apply H12; [now right | exact Hy].
  - rewrite Forall_app. split; [exact Ha|].
    apply Forall_forall. intros y Hy. apply H12; [now left | exact Hy].
Qed.

Lemma StronglySorted_rev R (l : list A) :
  StronglySorted R l -> StronglySorted (fun x y => R y x) (rev l).
Proof.
  induction 1 as [|a t Ht IH Ha]; cbn [rev]; [constructor|].
  apply StronglySorted_app; [exact IH | repeat constructor |].
  intros x y Hx [<-|[]]. apply in_rev in Hx.
  rewrite Forall_forall in Ha. now apply Ha.
Qed.

Lemma StronglySorted_weaken R (R' : A -> A -> Prop) (l : list A) :
  (forall x y, In x l -> In y l -> R x y -> R' x y) ->
  StronglySorted R l -> StronglySorted R' l.
Proof.
  intros HR Hs. induction Hs as [|a t Ht IH Ha]; constructor.
  - apply IH. intros x y Hx Hy. apply HR; now right.
  - rewrite Forall_forall in *. intros y Hy. apply HR; [now left | now right | now apply Ha].
Qed.

(** Two sorted arrangements of the same distinct elements coincide when
    no two elements can stand in either order. *)
Lemma StronglySorted_unique R (l1 l2 : list A) :
  Permutation l1 l2 ->
  StronglySorted R l1 -> StronglySorted R l2 ->
  (forall x y, In x l1 -> In y l1 -> x <> y -> ~ (R x y /\ R y x)) ->
  (forall x y : A, {x = y} + {x <> y}) ->
  l1 = l2.
Proof.
  intros Hp H1 H2 Hanti dec. revert l2 Hp H2.
  induction H1 as [|a t Ht IH Ha]; intros l2 Hp H2.
  - apply Permutation_nil in Hp. now subst.
  - destruct l2 as [|b u]; [apply Permutation_sym, Permutation_nil in Hp; discriminate|].
    apply StronglySorted_inv in H2. destruct H2 as [Hu Hb].
    rewrite Forall_forall in Ha, Hb.
    destruct (dec a b) as [<-|Hab].
    + f_equal. apply IH.
      * intros x y Hx Hy. apply Hanti; now right.
      * eapply Permutation_cons_inv; eauto.
      * exact Hu.
    + exfalso. apply (Hanti a b); [now left | | exact Hab |].
      * apply Permutation_sym in Hp. apply (Permutation_in b) in Hp; [|now left].
        destruct Hp as [->|Hp]; [congruence | now right].
      * split.
        -- apply Ha. apply Permutation_sym in Hp.
           apply (Permutation_in b) in Hp; [|now left].
           destruct Hp as [->|Hp]; [congruence | exact Hp].
        -- apply Hb. apply (Permutation_in a) in Hp; [|now left].
           destruct Hp as [->|Hp]; [congruence | exact Hp].
Qed.
End SortedLists.

Lemma StronglySorted_map {A B : Type} (R : B -> B -> Prop) (f : A -> B) (l : list A) :
  StronglySorted (fun x y => R (f x) (f y)) l -> StronglySorted R (map f l).
Proof.
  induction 1 as [|a t Ht IH Ha]; cbn [map]; constructor; [exact IH|].
  rewrite Forall_forall in *. intros y Hy. apply in_map_iff in Hy.
  destruct Hy as (x & <- & Hx). now apply Ha.
Qed.

Lemma combine_map {A B C : Type} (f : A -> B) (g : A -> C) (l : list A) :
  combine (map f l) (map g l) = map (fun x => (f x, g x)) l.
Proof. induction l as [|x t IH]; cbn; [reflexivity | now rewrite IH]. Qed.

(** Entry [i] of a flattened matrix with rows of length [ncols]. *)
Lemma nth_error_concat {A : Type} (rows : list (list A)) (ncols i : nat) :
  (0 < ncols)%nat ->
  (forall row, In row rows -> length row = ncols) ->
  nth_error (concat rows) i =
  match nth_error rows (i / ncols) with
  | Some row => nth_error row (i mod ncols)
  | None => None
  end.
Proof.
  intros Hc. revert i. induction rows as [|row rest IH]; intros i Hrows.
  - cbn [concat]. now rewrite !nth_error_nil.
  - assert (Lrow : length row = ncols) by (apply Hrows; now left).
    cbn [concat]. destruct (Nat.lt_ge_cases i ncols) as [Hi|Hi].
    + rewrite nth_error_app1 by lia.
      rewrite Nat.div_small, Nat.mod_small by lia. reflexivity.
    + rewrite nth_error_app2 by lia. rewrite Lrow.
      rewrite IH by (intros r Hr; apply Hrows; now right).
      assert (Ed : (i / ncols = S ((i - ncols) / ncols))%nat).
      { replace i with ((i - ncols) + 1 * ncols)%nat at 1 by lia.
        rewrite Nat.div_add by lia. lia. }
      assert (Em : (i mod ncols = (i - ncols) mod ncols)%nat).
      { replace i with ((i - ncols) + 1 * ncols)%nat at 1 by lia.
        apply Nat.Div0.mod_add. }
      rewrite Ed, Em. reflexivity.
Qed.

(** ** The global ranking *)

Section RankingFacts.
Context {F : Type} `{Number F}.
Variable argsort : list F -> list nat.
Variable votes : list Z.
Variable num_seats : Z.
Variable first_divisor : F.
Variable al : allocation F.
Hypothesis Hsorts : sorts argsort votes num_seats first_divisor.
Hypothesis Hal : allocate argsort votes num_seats first_divisor = Ok al.
Hypothesis Hseats : 0 < num_seats.

Local Abbreviation ncols := (length (divisors al)).
Local Abbreviation order := (quotients_descending argsort (quotients al)).

Lemma ncols_pos : (0 < ncols)%nat.
Proof.
  rewrite (length_divisors argsort votes num_seats first_divisor al Hal Hseats).
  unfold max_extra_seats. lia.
Qed.

Lemma length_quotients : length (quotients al) = length votes.
Proof.
  destruct (allocate_inv argsort votes num_seats first_divisor al Hal) as (_ & -> & _).
  unfold make_quotients. apply length_map.
Qed.

Lemma length_rows (row : list F) : In row (quotients al) -> length row = ncols.
Proof.
  destruct (allocate_inv argsort votes num_seats first_divisor al Hal) as (_ & -> & _).
  unfold make_quotients. intros Hr. apply in_map_iff in Hr.
  destruct Hr as (v & <- & _). apply length_map.
Qed.

Lemma order_In (i : nat) : In i order <-> (i < length votes * ncols)%nat.
Proof.
  pose proof (order_Permutation argsort votes num_seats first_divisor
                (sorts_permutes _ _ _ _ Hsorts) al Hal) as Hp.
  split; intros Hi.
  - apply (Permutation_in _ Hp) in Hi. apply in_seq in Hi. lia.
  - apply (Permutation_in _ (Permutation_sym Hp)). apply in_seq. lia.
Qed.

Lemma order_NoDup : NoDup order.
Proof.
  pose proof (order_Permutation argsort votes num_seats first_divisor
                (sorts_permutes _ _ _ _ Hsorts) al Hal) as Hp.
  eapply Permutation_NoDup; [symmetry; exact Hp | apply seq_NoDup].
Qed.

Lemma ranking_map : ranking al = map (coord ncols) order.
Proof.
  unfold ranking.
  destruct (allocate_inv argsort votes num_seats first_divisor al Hal)
    as (_ & _ & -> & -> & _).
  apply combine_map.
Qed.

Lemma coord_inj (i j : nat) : coord ncols i = coord ncols j -> i = j.
Proof.
  unfold coord. intros [= Ed Em]. pose proof ncols_pos.
  rewrite (Nat.div_mod_eq i ncols), (Nat.div_mod_eq j ncols). lia.
Qed.

Lemma ranking_NoDup : NoDup (ranking al).
Proof.
  rewrite ranking_map. apply Finite.Injective_map_NoDup; [|apply order_NoDup].
  intros i j. apply coord_inj.
Qed.

Lemma ranking_In (p r : Z) :
  In (p, r) (ranking al) <->
  0 <= p < Z.of_nat (length votes) /\ 0 <= r < Z.of_nat ncols.
Proof.
  pose proof ncols_pos as Hc. rewrite ranking_map, in_map_iff. split.
  - intros (i & [= <- <-] & Hi). apply order_In in Hi.
    pose proof (Nat.mod_upper_bound i ncols).
    assert (i / ncols < length votes)%nat by (apply Nat.Div0.div_lt_upper_bound; lia).
    lia.
  - intros [Hp Hr]. exists (Z.to_nat p * ncols + Z.to_nat r)%nat. split.
    + unfold coord.
      assert (Ed : ((Z.to_nat p * ncols + Z.to_nat r) / ncols = Z.to_nat p)%nat).
      { rewrite Nat.div_add_l, Nat.div_small by lia. lia. }
      assert (Em : ((Z.to_nat p * ncols + Z.to_nat r) mod ncols = Z.to_nat r)%nat).
      { rewrite (Nat.add_comm (Z.to_nat p * ncols)), Nat.Div0.mod_add.
        apply Nat.mod_small. lia. }
      rewrite Ed, Em. f_equal; lia.
    + apply order_In. nia.
Qed.

(** The value the sort compared for index [i] is the quotient at its
    coordinate. *)
Lemma quotient_at_coord (i : nat) (x : F) :
  (i < length votes * ncols)%nat ->
  quotient_at al (coord ncols i) = Ok x <-> nth_error (concat (quotients al)) i = Some x.
Proof.
  intros Hi. pose proof ncols_pos as Hc.
  rewrite (nth_error_concat (quotients al) ncols i Hc length_rows).
  unfold quotient_at, coord, py_index2. cbn [fst snd].
  assert (Hd : (i / ncols < length (quotients al))%nat)
    by (rewrite length_quotients; apply Nat.Div0.div_lt_upper_bound; lia).
  destruct (nth_error (quotients al) (i / ncols)) as [row|] eqn:Erow;
    [|apply nth_error_None in Erow; lia].
  rewrite (py_index_of_nat _ _ _ Erow). cbn [bind].
  rewrite py_index_Ok_iff. unfold wrap_index.
  destruct (Z.ltb_spec (Z.of_nat (i mod ncols)) 0); [lia|].
  rewrite Nat2Z.id. split; [tauto | split; [lia | assumption]].
Qed.

Lemma ranking_sorted : StronglySorted (not_below al) (ranking al).
Proof.
  rewrite ranking_map. apply StronglySorted_map.
  destruct (allocate_inv argsort votes num_seats first_divisor al Hal) as (Eds & Eq & _).
  pose proof (Hsorts _ Eds) as [_ Hs]. rewrite <- Eq in Hs.
  apply StronglySorted_rev in Hs. fold (quotients_descending argsort (quotients al)) in Hs.
  eapply StronglySorted_weaken; [|exact Hs].
  intros i j Hi Hj Hij x y Ex Ey. apply order_In in Hi, Hj.
  apply quotient_at_coord in Ex, Ey; try assumption.
  unfold ascending, lt_at in Hij. now rewrite Ex, Ey in Hij.
Qed.
End RankingFacts.

(** The allocation depends on the sort only through the order it returns
    for the quotients. *)
Lemma allocate_ext {F : Type} `{Number F} (argsort argsort' : list F -> list nat)
    (votes : list Z) (num_seats : Z) (first_divisor : F) :
  (forall ds, make_divisors num_seats max_extra_seats first_divisor = Ok ds ->
              argsort (concat (make_quotients votes ds))
              = argsort' (concat (make_quotients votes ds))) ->
  allocate argsort votes num_seats first_divisor
  = allocate argsort' votes num_seats first_divisor.
Proof.
  intros Hext. unfold allocate.
  destruct (make_divisors num_seats max_extra_seats first_divisor) as [ds|e] eqn:Eds;
    [|reflexivity].
  cbn [bind]. unfold quotients_descending. now rewrite (Hext ds eq_refl).
Qed.

(** [C6], as the program has it: the ranking lists every coordinate once, in
    an order in which no quotient is followed by a larger one; how equal
    quotients are ordered is left to the sort, and when no two quotients are
    equal every sort yields the same allocation. *)
Theorem global_ranking_order {F : Type} `{Number F} (argsort : list F -> list nat)
    (votes : list Z) (num_seats : Z) (first_divisor : F) (al : allocation F) :
  sorts argsort votes num_seats first_divisor ->
  0 < num_seats ->
  allocate argsort votes num_seats first_divisor = Ok al ->
  NoDup (ranking al) /\
  (forall p r, In (p, r) (ranking al) <->
               0 <= p < Z.of_nat (length votes) /\
               0 <= r < num_seats + max_extra_seats) /\
  StronglySorted (not_below al) (ranking al) /\
  (forall argsort' : list F -> list nat,
      sorts argsort' votes num_seats first_divisor ->
      no_ties (concat (quotients al)) ->
      allocate argsort' votes num_seats first_divisor = Ok al).
Proof.
  intros Hsorts Hn Hal. split; [|split; [|split]].
  - now apply (ranking_NoDup argsort votes num_seats first_divisor al).
  - intros p r.
    rewrite (ranking_In argsort votes num_seats first_divisor al Hsorts Hal Hn p r).
    rewrite (length_divisors argsort votes num_seats first_divisor al Hal Hn).
    unfold max_extra_seats. lia.
  - now apply (ranking_sorted argsort votes num_seats first_divisor al).
  - intros argsort' Hsorts' Hties. rewrite <- Hal. symmetry.
    apply allocate_ext. intros ds Eds.
    destruct (allocate_inv argsort votes num_seats first_divisor al Hal) as (Eds' & Eq & _).
    rewrite Eds in Eds'. injection Eds' as ->. rewrite <- Eq.
    destruct (Hsorts _ Eds) as [Hp Hs]. destruct (Hsorts' _ Eds) as [Hp' Hs'].
    rewrite <- Eq in Hp, Hs, Hp', Hs'.
    apply (StronglySorted_unique (ascending (concat (quotients al)))); try assumption.
    + now rewrite Hp, Hp'.
    + intros i j Hi Hj Hij [Hij1 Hij2].
      apply (Permutation_in _ Hp) in Hi, Hj. apply in_seq in Hi, Hj.
      unfold ascending in Hij1, Hij2.
      destruct (Hties i j) as [E|E]; try lia; congruence.
    + apply Nat.eq_dec.
Qed.

Lemma global_ranking_order_witness :
  exists al,
    allocate argsort64 [1; 1] 1 1.2%float = Ok al /\
    StronglySorted (not_below al) (ranking al).
Proof.
  assert (Hs : sorts argsort64 [1; 1] 1 1.2%float)
    by (apply sortsb_sound; vm_compute; reflexivity).
  destruct (allocate_total argsort64 [1; 1] 1 1.2%float (sorts_permutes _ _ _ _ Hs))
    as (al & E); [discriminate | lia |].
  exists al. split; [exact E|].
  apply (global_ranking_order argsort64 [1; 1] 1 1.2%float al Hs); [lia | exact E].
Defined.

(** [C6] fails as stated: two parties with equal votes tie at every rank, and
    the ranking puts party 1 before party 0 at rank 0, so the only seat goes
    to party 1. *)
Lemma tie_break_counterexample :
  exists al,
    allocate argsort64 [1; 1] 1 1.2%float = Ok al /\
    firstn 2 (ranking al) = [(1, 0); (0, 0)] /\
    (exists x, quotient_at al (1, 0) = Ok x /\ quotient_at al (0, 0) = Ok x) /\
    seats_per_party al = [0; 1].
Proof.
  eexists. split; [vm_compute; reflexivity|].
  split; [reflexivity|]. split; [|reflexivity].
  eexists. split; vm_compute; reflexivity.
Qed.

(** ** Contiguity of the ranks a party wins *)

Lemma strictly_decreasing_nth {F : Type} `{Number F} (row : list F) (r : nat) (x y : F) :
  strictly_decreasing row = true ->
  nth_error row r = Some x -> nth_error row (S r) = Some y -> npy_lt y x = true.
Proof.
  revert r. induction row as [|a rest IH]; intros r Hd Ex Ey; [now destruct r|].
  destruct rest as [|b rest']; [now destruct r|].
  cbn [strictly_decreasing] in Hd. apply andb_prop in Hd. destruct Hd as [Hab Hd].
  destruct r as [|r].
  - cbn in Ex, Ey. congruence.
  - cbn [nth_error] in Ex, Ey. now apply (IH r).
Qed.

Lemma count_occ_filter_fst (a b : list Z) (q : Z) :
  length a = length b ->
  length (filter (fun c => fst c =? q) (combine a b)) = count_occ Z.eq_dec a q.
Proof.
  revert b. induction a as [|x t IH]; intros [|y u] L; try discriminate; [reflexivity|].
  cbn [combine filter fst count_occ]. injection L as L.
  destruct (Z.eqb_spec x q) as [Eq|Hne]; destruct (Z.eq_dec x q); try congruence.
  - cbn [length]. f_equal. now apply IH.
  - now apply IH.
Qed.

Lemma NoDup_ranks_of (l : list (Z * Z)) (q : Z) :
  NoDup l -> NoDup (map snd (filter (fun c => fst c =? q) l)).
Proof.
  induction 1 as [|c t Hc Ht IH]; cbn [filter map]; [constructor|].
  destruct (Z.eqb_spec (fst c) q) as [Eq|Hne]; [|exact IH].
  cbn [map]. constructor; [|exact IH].
  intros Hin. apply in_map_iff in Hin. destruct Hin as (c' & Es & Hc').
  apply filter_In in Hc'. destruct Hc' as [Hc' Eq'].
  apply Z.eqb_eq in Eq'. apply Hc.
  replace c with c'; [exact Hc'|]. destruct c, c'; cbn in *; congruence.
Qed.

Lemma coord_eq_dec (c c' : Z * Z) : {c = c'} + {c <> c'}.
Proof. decide equality; apply Z.eq_dec. Qed.

Section Contiguity.
Context {F : Type} `{Number F}.
Variable argsort : list F -> list nat.
Variable votes : list Z.
Variable num_seats : Z.
Variable first_divisor : F.
Variable al : allocation F.
Hypothesis Hsorts : sorts argsort votes num_seats first_divisor.
Hypothesis Hal : allocate argsort votes num_seats first_divisor = Ok al.
Hypothesis Hseats : 0 < num_seats.
Variable p : nat.
Variable row : list F.
Hypothesis Hrow : nth_error (quotients al) p = Some row.
Hypothesis Hdec : strictly_decreasing row = true.

Lemma In_ranks_won (r : Z) :
  In r (ranks_won num_seats al p) <-> In (Z.of_nat p, r) (awarded num_seats al).
Proof.
  unfold ranks_won. rewrite in_map_iff. split.
  - intros ([q r'] & Er & Hc). apply filter_In in Hc. destruct Hc as [Hc Eq].
    cbn in Er, Eq. apply Z.eqb_eq in Eq. now subst.
  - intros Hc. exists (Z.of_nat p, r). split; [reflexivity|].
    apply filter_In. split; [exact Hc | apply Z.eqb_refl].
Qed.

Lemma NoDup_ranks_won : NoDup (ranks_won num_seats al p).
Proof.
  apply NoDup_ranks_of. unfold awarded.
  apply (NoDup_app_remove_r _ (skipn (Z.to_nat num_seats) (ranking al))).
  rewrite firstn_skipn.
  now apply (ranking_NoDup argsort votes num_seats first_divisor al).
Qed.

Lemma length_ranks_won :
  length (ranks_won num_seats al p) = positions_won num_seats al p.
Proof.
  unfold ranks_won, awarded, ranking, positions_won.
  rewrite length_map, combine_firstn. apply count_occ_filter_fst.
  rewrite !length_firstn.
  rewrite (length_party_dim argsort votes num_seats first_divisor
             (sorts_permutes _ _ _ _ Hsorts) al Hal).
  rewrite (length_divisor_dim argsort votes num_seats first_divisor
             (sorts_permutes _ _ _ _ Hsorts) al Hal).
  reflexivity.
Qed.

Lemma awarded_in_ranking (c : Z * Z) : In c (awarded num_seats al) -> In c (ranking al).
Proof.
  intros Hc. rewrite <- (firstn_skipn (Z.to_nat num_seats) (ranking al)).
  apply in_or_app. now left.
Qed.

Lemma quotient_at_own (r : nat) (x : F) :
  nth_error row r = Some x -> quotient_at al (Z.of_nat p, Z.of_nat r) = Ok x.
Proof.
  intros Ex. unfold quotient_at, py_index2. cbn [fst snd].
  rewrite (py_index_of_nat _ _ _ Hrow). cbn [bind]. now apply py_index_of_nat.
Qed.

(** A party that is awarded a seat at rank [r + 1] is awarded one at rank [r]. *)
Lemma won_down (r : Z) :
  0 <= r -> In (Z.of_nat p, r + 1) (awarded num_seats al) ->
  In (Z.of_nat p, r) (awarded num_seats al).
Proof.
  intros Hr Hw.
  pose proof (awarded_in_ranking _ Hw) as Hin.
  apply (ranking_In argsort votes num_seats first_divisor al Hsorts Hal Hseats) in Hin.
  assert (Hin' : In (Z.of_nat p, r) (ranking al))
    by (apply (ranking_In argsort votes num_seats first_divisor al Hsorts Hal Hseats); lia).
  rewrite <- (firstn_skipn (Z.to_nat num_seats) (ranking al)) in Hin'.
  apply in_app_or in Hin'. destruct Hin' as [Hin'|Hin']; [exact Hin'|exfalso].
  pose proof (ranking_sorted argsort votes num_seats first_divisor al Hsorts Hal Hseats) as Hs.
  rewrite <- (firstn_skipn (Z.to_nat num_seats) (ranking al)) in Hs.
  apply StronglySorted_app_inv in Hs. destruct Hs as (_ & _ & Hs).
  specialize (Hs _ _ Hw Hin').
  assert (Lrow : length row = length (divisors al)).
  { apply (length_rows argsort votes num_seats first_divisor al Hal).
    eapply nth_error_In; eauto. }
  destruct (nth_error row (Z.to_nat r)) as [x|] eqn:Ex;
    [|apply nth_error_None in Ex; lia].
  destruct (nth_error row (S (Z.to_nat r))) as [y|] eqn:Ey;
    [|apply nth_error_None in Ey; lia].
  pose proof (strictly_decreasing_nth row _ x y Hdec Ex Ey) as Hlt.
  apply quotient_at_own in Ex, Ey.
  rewrite Z2Nat.id in Ex by lia.
  replace (Z.of_nat (S (Z.to_nat r))) with (r + 1) in Ey by lia.
  rewrite (Hs y x Ey Ex) in Hlt. discriminate.
Qed.

Lemma won_below (r : Z) (k : nat) :
  0 <= r -> In (Z.of_nat p, r + Z.of_nat k) (awarded num_seats al) ->
  In (Z.of_nat p, r) (awarded num_seats al).
Proof.
  intros Hr. induction k as [|k IH]; intros Hw.
  - now rewrite Z.add_0_r in Hw.
  - apply IH. apply won_down; [lia|].
    replace (r + Z.of_nat k + 1) with (r + Z.of_nat (S k)) by lia. exact Hw.
Qed.

Lemma ranks_won_contiguous (r : Z) :
  In (Z.of_nat p, r) (awarded num_seats al) <->
  0 <= r < Z.of_nat (length (ranks_won num_seats al p)).
Proof.
  split.
  - intros Hw.
    assert (Hr : 0 <= r).
    { apply awarded_in_ranking in Hw.
      apply (ranking_In argsort votes num_seats first_divisor al Hsorts Hal Hseats) in Hw.
      lia. }
    split; [exact Hr|].
    assert (Hincl : incl (map Z.of_nat (seq 0 (S (Z.to_nat r)))) (ranks_won num_seats al p)).
    { intros r' Hr'. apply in_map_iff in Hr'. destruct Hr' as (k & <- & Hk).
      apply in_seq in Hk. apply In_ranks_won.
      apply (won_below (Z.of_nat k) (Z.to_nat r - k)); [lia|].
      replace (Z.of_nat k + Z.of_nat (Z.to_nat r - k)) with r by lia. exact Hw. }
    apply NoDup_incl_length in Hincl.
    + rewrite length_map, length_seq in Hincl. lia.
    + apply Finite.Injective_map_NoDup; [intros i j; apply Nat2Z.inj | apply seq_NoDup].
  - intros [Hr Hlt].
    destruct (in_dec coord_eq_dec (Z.of_nat p, r) (awarded num_seats al)) as [Hw|Hnw];
      [exact Hw | exfalso].
    assert (Hincl : incl (ranks_won num_seats al p) (map Z.of_nat (seq 0 (Z.to_nat r)))).
    { intros r' Hr'. apply In_ranks_won in Hr'.
      assert (Hr0 : 0 <= r').
      { apply awarded_in_ranking in Hr'.
        apply (ranking_In argsort votes num_seats first_divisor al Hsorts Hal Hseats) in Hr'.
        lia. }
      destruct (Z.lt_ge_cases r' r) as [Hlt'|Hge].
      - apply in_map_iff. exists (Z.to_nat r'). split; [lia | apply in_seq; lia].
      - exfalso. apply Hnw. apply (won_below r (Z.to_nat (r' - r))); [lia|].
        replace (r + Z.of_nat (Z.to_nat (r' - r))) with r' by lia. exact Hr'. }
    apply (NoDup_incl_length NoDup_ranks_won) in Hincl.
    rewrite length_map, length_seq in Hincl. lia.
Qed.
End Contiguity.

(** [C7], as the program has it: for a party whose quotients decrease
    strictly from rank to rank, and [0 < num_seats < 2^32], the divisor ranks
    at which it is awarded a seat are exactly [0 .. seats_per_party[p] - 1]. *)
Theorem rank_contiguity {F : Type} `{Number F} (argsort : list F -> list nat)
    (votes : list Z) (num_seats : Z) (first_divisor : F) (al : allocation F)
    (p : nat) (row : list F) :
  sorts argsort votes num_seats first_divisor ->
  0 < num_seats < 2 ^ 32 ->
  allocate argsort votes num_seats first_divisor = Ok al ->
  nth_error (quotients al) p = Some row ->
  strictly_decreasing row = true ->
  exists s,
    nth_error (seats_per_party al) p = Some s /\
    forall r, In (Z.of_nat p, r) (awarded num_seats al) <-> 0 <= r < s.
Proof.
  intros Hsorts Hn Hal Hrow Hdec.
  pose proof (sorts_permutes _ _ _ _ Hsorts) as Hperm.
  exists (Z.of_nat (length (ranks_won num_seats al p))). split.
  - rewrite (seats_count argsort votes num_seats first_divisor Hperm al Hal) by lia.
    assert (Hp : (p < length votes)%nat).
    { rewrite <- (length_quotients argsort votes num_seats first_divisor al Hal).
      eapply nth_error_lt; eauto. }
    rewrite nth_error_map, nth_error_seq.
    destruct (Nat.ltb_spec p (length votes)); [|lia]. cbn [option_map Nat.add].
    rewrite (length_ranks_won argsort votes num_seats first_divisor al Hsorts Hal).
    f_equal. apply uint32_small. split; [lia|]. unfold positions_won.
    pose proof (count_occ_le_length (firstn (Z.to_nat num_seats) (party_dim al))
                                    (Z.of_nat p)).
    rewrite length_firstn in *. lia.
  - intros r.
    apply (ranks_won_contiguous argsort votes num_seats first_divisor al Hsorts Hal)
      with (row := row); (lia || assumption).
Qed.

Lemma rank_contiguity_witness :
  exists al,
    allocate argsort64 [100; 80; 30] 4 1.4%float = Ok al /\
    exists s,
      nth_error (seats_per_party al) 0 = Some s /\
      forall r, In (0, r) (awarded 4 al) <-> 0 <= r < s.
Proof.
  eexists. split; [vm_compute; reflexivity|].
  eapply (rank_contiguity argsort64 [100; 80; 30] 4 1.4%float _ 0%nat).
  - apply sortsb_sound. vm_compute. reflexivity.
  - lia.
  - vm_compute. reflexivity.
  - vm_compute. reflexivity.
  - vm_compute. reflexivity.
Defined.

(** [C7] fails as stated when the first divisor exceeds the second: with
    [first_divisor = 5] the largest quotient of party 0 is the one at rank 1,
    and its only seat is awarded there. *)
Lemma rank_contiguity_counterexample :
  sortsb argsort64 [10; 1] 1 5%float = true /\
  exists al,
    allocate argsort64 [10; 1] 1 5%float = Ok al /\
    seats_per_party al = [1; 0] /\
    awarded 1 al = [(0, 1)].
Proof.
  split; [vm_compute; reflexivity|].
  eexists. split; [vm_compute; reflexivity|]. split; reflexivity.
Qed.

(** * The margin formulas *)

(** ** The loops and the walk *)

Lemma nth_error_combine {A B : Type} (a : list A) (b : list B) (i : nat) (x : A * B) :
  nth_error (combine a b) i = Some x ->
  nth_error a i = Some (fst x) /\ nth_error b i = Some (snd x).
Proof.
  revert b i. induction a as [|u t IH]; intros [|v w] i E; try (destruct i; discriminate).
  destruct i as [|i]; cbn in E |- *.
  - injection E as <-. auto.
  - now apply IH.
Qed.

Lemma walk_zero (p : Z) (positions : list (Z * Z)) : walk p 0 positions = None.
Proof.
  induction positions as [|c rest IH]; cbn [walk]; [reflexivity|].
  rewrite IH. now destruct (fst c =? p).
Qed.

Section GainLoop.
Context {F : Type} `{Number F}.
Variable al : allocation F.
Variable num_seats : Z.
Variable p : Z.
Variable wanted : Z.

Lemma overtake_loop_done (fuel : nat) (walked gotten : Z) :
  wanted <= gotten ->
  overtake_loop al num_seats fuel p wanted walked gotten = Ok walked.
Proof.
  intros Hg. destruct fuel; cbn [overtake_loop];
    destruct (Z.ltb_spec gotten wanted); (lia || reflexivity).
Qed.

(** The loop walks the positions handed to it exactly as [walk] does. *)
Lemma overtake_loop_walk (positions : list (Z * Z)) :
  forall (fuel w g_left walked : nat) (c : Z * Z),
    (forall i x, nth_error positions i = Some x ->
                 py_index (party_dim al) (num_seats - (Z.of_nat (w + i) + 1)) = Ok (fst x)) ->
    walk p g_left positions = Some (walked, c) ->
    (length positions < fuel)%nat ->
    overtake_loop al num_seats fuel p wanted (Z.of_nat w) (wanted - Z.of_nat g_left)
    = Ok (Z.of_nat (w + walked)) /\
    (1 <= walked)%nat /\
    nth_error positions (walked - 1) = Some c.
Proof.
  induction positions as [|c0 rest IH]; intros fuel w g_left walked c Hpos Hw Hf;
    [discriminate|].
  assert (Hg : (1 <= g_left)%nat).
  { destruct g_left; [|lia]. now rewrite walk_zero in Hw. }
  destruct fuel as [|fuel]; [cbn in Hf; lia|]. cbn [length] in Hf.
  cbn [overtake_loop].
  destruct (Z.ltb_spec (wanted - Z.of_nat g_left) wanted); [|lia].
  specialize (Hpos 0%nat c0 eq_refl) as Hc0. rewrite Nat.add_0_r in Hc0.
  rewrite Hc0. cbn [bind].
  assert (Hrest : forall i x, nth_error rest i = Some x ->
            py_index (party_dim al) (num_seats - (Z.of_nat (S w + i) + 1)) = Ok (fst x)).
  { intros i x Hi. replace (S w + i)%nat with (w + S i)%nat by lia.
    apply Hpos. exact Hi. }
  replace (Z.of_nat w + 1) with (Z.of_nat (S w)) by lia.
  cbn [walk] in Hw. rewrite (Z.eqb_sym p (fst c0)).
  destruct (fst c0 =? p); cbn [negb].
  - destruct (walk p g_left rest) as [[n c']|] eqn:Ew; [|discriminate].
    injection Hw as <- <-.
    destruct (IH fuel (S w) g_left n c' Hrest Ew) as (Eloop & Hn & Ec); [lia|].
    split; [|split; [lia|]].
    + rewrite Eloop. f_equal. lia.
    + destruct n as [|n]; [lia|]. cbn [Nat.sub nth_error].
      cbn [Nat.sub] in Ec. now rewrite Nat.sub_0_r in *.
  - destruct g_left as [|[|g']]; [lia| |].
    + injection Hw as <- <-. split; [|split; [lia | reflexivity]].
      rewrite overtake_loop_done by lia. f_equal. lia.
    + destruct (walk p (S g') rest) as [[n c']|] eqn:Ew; [|discriminate].
      injection Hw as <- <-.
      destruct (IH fuel (S w) (S g') n c' Hrest Ew) as (Eloop & Hn & Ec); [lia|].
      replace (wanted - Z.of_nat (S (S g')) + 1) with (wanted - Z.of_nat (S g')) by lia.
      split; [|split; [lia|]].
      * rewrite Eloop. f_equal. lia.
      * destruct n as [|n]; [lia|]. cbn [Nat.sub nth_error].
        cbn [Nat.sub] in Ec. now rewrite Nat.sub_0_r in *.
Qed.
End GainLoop.

Lemma mapM_nth {A B : Type} (f : A -> result B) (l : list A) (ys : list B)
    (i : nat) (x : A) :
  mapM f l = Ok ys -> nth_error l i = Some x ->
  exists y, nth_error ys i = Some y /\ f x = Ok y.
Proof.
  revert ys i. induction l as [|a t IH]; intros ys i E Hi; [now destruct i|].
  cbn [mapM] in E. bind_inv E. bind_inv E. injection E as <-.
  destruct i as [|i]; cbn [nth_error] in *.
  - injection Hi as <-. eauto.
  - eapply IH; eauto.
Qed.

Section Lookups.
Context {F : Type} `{Number F}.
Variable argsort : list F -> list nat.
Variable votes : list Z.
Variable num_seats : Z.
Variable first_divisor : F.
Variable al : allocation F.
Hypothesis Hsorts : sorts argsort votes num_seats first_divisor.
Hypothesis Hal : allocate argsort votes num_seats first_divisor = Ok al.
Hypothesis Hseats : 0 < num_seats.

(** The matrix entry is the quotient of the vote total and the divisor. *)
Lemma quotient_lookup (a b : nat) (v : Z) (d : F) :
  nth_error votes a = Some v -> nth_error (divisors al) b = Some d ->
  py_index2 (quotients al) (Z.of_nat a) (Z.of_nat b) = Ok (fdiv (of_int v) d).
Proof.
  intros Ev Ed. unfold py_index2.
  destruct (allocate_inv argsort votes num_seats first_divisor al Hal) as (_ & -> & _).
  unfold make_quotients.
  rewrite (py_index_of_nat _ a (map (fun d => fdiv (of_int v) d) (divisors al)))
    by (rewrite nth_error_map, Ev; reflexivity).
  cbn [bind]. apply py_index_of_nat. now rewrite nth_error_map, Ed.
Qed.


Lemma length_ranking : length (ranking al) = (length votes * length (divisors al))%nat.
Proof.
  unfold ranking. rewrite length_combine.
  rewrite (length_party_dim argsort votes num_seats first_divisor
             (sorts_permutes _ _ _ _ Hsorts) al Hal).
  rewrite (length_divisor_dim argsort votes num_seats first_divisor
             (sorts_permutes _ _ _ _ Hsorts) al Hal).
  lia.
Qed.

(** The awarded positions, read backward from position [num_seats - 1]. *)
Lemma awarded_backward (i : nat) (x : Z * Z) :
  (1 <= length votes)%nat ->
  nth_error (rev (firstn (Z.to_nat num_seats) (ranking al))) i = Some x ->
  (i < Z.to_nat num_seats)%nat /\
  py_index (party_dim al) (num_seats - (Z.of_nat i + 1)) = Ok (fst x) /\
  py_index (divisor_dim al) (num_seats - (Z.of_nat i + 1)) = Ok (snd x) /\
  In x (ranking al).
Proof.
  intros Hv Hi. rewrite nth_error_rev in Hi.
  assert (Ln : length (firstn (Z.to_nat num_seats) (ranking al)) = Z.to_nat num_seats).
  { rewrite length_firstn, length_ranking.
    rewrite (length_divisors argsort votes num_seats first_divisor al Hal Hseats).
    unfold max_extra_seats. nia. }
  rewrite Ln in Hi. destruct (Nat.ltb_spec i (Z.to_nat num_seats)) as [Hlt|]; [|discriminate].
  rewrite nth_error_firstn in Hi.
  destruct (Nat.ltb_spec (Z.to_nat num_seats - S i) (Z.to_nat num_seats)); [|lia].
  split; [exact Hlt|].
  pose proof (nth_error_In _ _ Hi) as Hin.
  apply nth_error_combine in Hi. destruct Hi as [Hp Hd].
  replace (num_seats - (Z.of_nat i + 1)) with (Z.of_nat (Z.to_nat num_seats - S i)) by lia.
  split; [now apply py_index_of_nat|]. split; [now apply py_index_of_nat | exact Hin].
Qed.
End Lookups.



(** ** The loss side *)

Lemma py_index_from_end {A : Type} (a : list A) (i : Z) :
  i < 0 -> 0 <= i + Z.of_nat (length a) ->
  exists x, nth_error a (Z.to_nat (i + Z.of_nat (length a))) = Some x /\
            py_index a i = Ok x.
Proof.
  intros Hi Hl.
  destruct (nth_error a (Z.to_nat (i + Z.of_nat (length a)))) as [x|] eqn:Ex;
    [|apply nth_error_None in Ex; lia].
  exists x. split; [reflexivity|]. apply py_index_Ok_iff. unfold wrap_index.
  destruct (Z.ltb_spec i 0); [|lia]. split; [lia | exact Ex].
Qed.

Lemma nth_error_combine_intro {A B : Type} (a : list A) (b : list B) (i : nat)
    (x : A) (y : B) :
  nth_error a i = Some x -> nth_error b i = Some y ->
  nth_error (combine a b) i = Some (x, y).
Proof.
  revert b i. induction a as [|u t IH]; intros [|v w] [|i] Ea Eb;
    try discriminate; cbn in *.
  - congruence.
  - now apply IH.
Qed.

Section LossLoop.
Context {F : Type} `{Number F}.
Variable al : allocation F.
Variable num_seats : Z.
Variable p : Z.
Variable wanted : Z.

Lemma fall_behind_loop_done (fuel : nat) (walked gotten : Z) :
  wanted <= gotten ->
  fall_behind_loop al num_seats fuel p wanted walked gotten = Ok walked.
Proof.
  intros Hg. destruct fuel; cbn [fall_behind_loop];
    destruct (Z.ltb_spec gotten wanted); (lia || reflexivity).
Qed.

(** When the loop returns, the last position it read exists. *)
Lemma fall_behind_loop_last (fuel : nat) :
  forall walked0 gotten walked,
    fall_behind_loop al num_seats fuel p wanted walked0 gotten = Ok walked ->
    gotten < wanted ->
    walked0 < walked /\
    exists q, py_index (party_dim al) (num_seats - 1 + walked) = Ok q.
Proof.
  induction fuel as [|fuel IH]; intros walked0 gotten walked E Hg;
    cbn [fall_behind_loop] in E;
    destruct (Z.ltb_spec gotten wanted); try lia; [discriminate|].
  bind_inv E.
  set (gotten' := if negb (p =? x) then gotten + 1 else gotten) in E.
  destruct (Z.lt_ge_cases gotten' wanted) as [Hlt|Hge].
  - destruct (IH _ _ _ E Hlt) as (Hw & q & Eq). split; [lia | eauto].
  - rewrite fall_behind_loop_done in E by lia. injection E as <-.
    split; [lia | eauto].
Qed.
End LossLoop.



(** * Evaluation on a small election

    Two parties with 100 and 90 votes and ten seats: the program runs to its
    end, and no two of its quotients are equal, so the sort routine plays no
    part in what follows. *)

Example small_election_runs :
  snd (calc_saint_lague_method argsort64 [100; 90] names2 colors2 10 1.2%float) = Ok tt /\
  seats_of argsort64 [100; 90] 10 1.2%float = Ok [5; 5] /\
  tie_free [100; 90] 10 1.2%float = true.
Proof. repeat split; vm_compute; reflexivity. Qed.

(** [C3] does not hold of the program.  Party 0 holds 5 seats and its entry
    for two more seats is 93.  With one vote less than that (and already
    with 68) it has 7 seats; 67 additional votes are not enough.  The entry
    is computed at rank [seats + positions walked - 1 = 7], while the seventh
    seat is decided at rank 6. *)
Lemma gain_round_trip_fails :
  In (PrintGain [[10; 93; 242; 590; 1925]; [55; 153; 330; 744; 2327]]%float)
     (fst (calc_saint_lague_method argsort64 [100; 90] names2 colors2 10 1.2%float)) /\
  seats_of argsort64 [100 + 93; 90] 10 1.2%float = Ok [7; 3] /\
  seats_of argsort64 [100 + 92; 90] 10 1.2%float = Ok [7; 3] /\
  seats_of argsort64 [100 + 68; 90] 10 1.2%float = Ok [7; 3] /\
  seats_of argsort64 [100 + 67; 90] 10 1.2%float = Ok [6; 4] /\
  tie_free [100 + 92; 90] 10 1.2%float = true /\
  tie_free [100 + 68; 90] 10 1.2%float = true /\
  tie_free [100 + 67; 90] 10 1.2%float = true.
Proof.
  split; [vm_compute; tauto|]. repeat split; vm_compute; reflexivity.
Qed.

(** [C4] does not hold of the program.  For party 0 and one seat lost the
    program prints 43, computed at rank [seats - positions walked = 3]; the
    formula of the specification, at rank [seats - 1 = 4], gives 27, and 27
    is the number of votes whose loss costs the seat. *)
Lemma loss_formula_differs :
  In (PrintLoss [[43; 80; -86; -42; 1]; [9; 52; 82; -80; -41]]%float)
     (fst (calc_saint_lague_method argsort64 [100; 90] names2 colors2 10 1.2%float)) /\
  (exists al,
      allocate argsort64 [100; 90] 10 1.2%float = Ok al /\
      loss_entry al 10 0 1 = Ok 43%float /\
      spec_loss_margin [100; 90] al 10 0 1 = Some 27%float) /\
  seats_of argsort64 [100 - 27; 90] 10 1.2%float = Ok [4; 6] /\
  seats_of argsort64 [100 - 26; 90] 10 1.2%float = Ok [5; 5] /\
  tie_free [100 - 27; 90] 10 1.2%float = true /\
  tie_free [100 - 26; 90] 10 1.2%float = true.
Proof.
  split; [vm_compute; tauto|].
  split; [eexists; split; [vm_compute; reflexivity | split; vm_compute; reflexivity]|].
  repeat split; vm_compute; reflexivity.
Qed.

(** [C5] fails as stated: nothing is clamped, and the loss table of the small
    election holds negative entries (party 0, three seats lost: -86). *)
Lemma margins_counterexample :
  (exists al,
      allocate argsort64 [100; 90] 10 1.2%float = Ok al /\
      loss_terms al 10 0 3
      = Ok ((-2.774193548387097)%float, 31%float) /\
      loss_entry al 10 0 3 = Ok (-86)%float) /\
  PrimFloat.ltb (-86)%float 0%float = true /\
  exists loss,
    In (PrintLoss loss)
       (fst (calc_saint_lague_method argsort64 [100; 90] names2 colors2 10 1.2%float)) /\
    nth_error loss 0 = Some [43; 80; -86; -42; 1]%float.
Proof.
  split; [eexists; split; [vm_compute; reflexivity | split; vm_compute; reflexivity]|].
  split; [vm_compute; reflexivity|].
  eexists. split; [vm_compute; do 3 right; left; reflexivity | reflexivity].
Qed.

(** * The sign of the entries, in exact arithmetic *)

Lemma divisors_positive (argsort : list Q -> list nat) (votes : list Z) (num_seats : Z)
    (first_divisor : Q) (al : allocation Q) (d : Q) :
  allocate argsort votes num_seats first_divisor = Ok al ->
  0 < num_seats -> (0 < first_divisor)%Q ->
  In d (divisors al) -> (0 < d)%Q.
Proof.
  intros Hal Hn Hfd Hd.
  destruct (allocate_inv argsort votes num_seats first_divisor al Hal) as (Eds & _).
  destruct (make_divisors_spec num_seats max_extra_seats first_divisor)
    as (ds & Eds' & _ & E0 & Ei); [unfold max_extra_seats; lia|].
  rewrite Eds in Eds'. injection Eds' as <-.
  apply In_nth_error in Hd. destruct Hd as (i & Hi).
  destruct i as [|i].
  - rewrite E0 in Hi. now injection Hi as <-.
  - pose proof (nth_error_lt _ _ _ Hi) as Li.
    rewrite Ei in Hi by lia. injection Hi as <-.
    unfold odd_divisor. cbn [of_int fadd exact].
    unfold Qlt, Qplus, inject_Z. cbn [Qnum Qden]. lia.
Qed.

Lemma gain_terms_divisor {F : Type} `{Number F} (al : allocation F) (num_seats p g : Z)
    (diff d : F) :
  gain_terms al num_seats p g = Ok (diff, d) -> In d (divisors al).
Proof.
  unfold gain_terms. intros E. do 7 bind_inv E.
  injection E as _ <-. eapply py_index_In; eauto.
Qed.

Lemma loss_terms_divisor {F : Type} `{Number F} (al : allocation F) (num_seats p g : Z)
    (diff d : F) :
  loss_terms al num_seats p g = Ok (diff, d) -> In d (divisors al).
Proof.
  unfold loss_terms. intros E. do 7 bind_inv E.
  injection E as _ <-. eapply py_index_In; eauto.
Qed.

(** [C5], as the program has it: an entry of either table is the ceiling of
    [quotient_diff * divisor], an integer, and nothing is clamped.  The
    divisor is positive, so the entry is nonnegative when [quotient_diff] is,
    at most zero when [quotient_diff] is negative, and negative as soon as
    the product is at most [-1]. *)
Theorem margins_not_clamped (argsort : list Q -> list nat) (votes : list Z)
    (num_seats : Z) (first_divisor : Q) (al : allocation Q) (p g : Z)
    (quotient_diff d : Q) :
  allocate argsort votes num_seats first_divisor = Ok al ->
  0 < num_seats -> (0 < first_divisor)%Q ->
  gain_terms al num_seats p g = Ok (quotient_diff, d) \/
  loss_terms al num_seats p g = Ok (quotient_diff, d) ->
  let entry := Qceiling (quotient_diff * d) in
  (gain_terms al num_seats p g = Ok (quotient_diff, d) ->
   gain_entry al num_seats p g = Ok (inject_Z entry)) /\
  (loss_terms al num_seats p g = Ok (quotient_diff, d) ->
   loss_entry al num_seats p g = Ok (inject_Z entry)) /\
  (0 < d)%Q /\
  ((0 <= quotient_diff)%Q -> 0 <= entry) /\
  ((quotient_diff < 0)%Q -> entry <= 0) /\
  ((quotient_diff * d <= -1)%Q -> entry < 0).
Proof.
  intros Hal Hn Hfd Hterms. cbv zeta.
  assert (Hd : (0 < d)%Q).
  { apply (divisors_positive argsort votes num_seats first_divisor al d Hal Hn Hfd).
    destruct Hterms as [E|E];
      [eapply gain_terms_divisor | eapply loss_terms_divisor]; eauto. }
  split; [|split; [|split; [exact Hd|split; [|split]]]].
  - intros E. unfold gain_entry. rewrite E. reflexivity.
  - intros E. unfold loss_entry. rewrite E. reflexivity.
  - intros Hdiff. change 0 with (Qceiling 0). apply Qceiling_resp_le.
    apply Qmult_le_0_compat; [exact Hdiff | now apply Qlt_le_weak].
  - intros Hdiff. change 0 with (Qceiling 0). apply Qceiling_resp_le.
    setoid_replace 0%Q with (0 * d)%Q by ring.
    apply Qmult_le_compat_r; [now apply Qlt_le_weak | now apply Qlt_le_weak].
  - intros Hprod. apply Z.le_lt_trans with (Qceiling (-1)); [|reflexivity].
    now apply Qceiling_resp_le.
Qed.

Lemma margins_not_clamped_witness :
  exists al quotient_diff d,
    allocate argsortQ [100; 90] 10 (12 # 10) = Ok al /\
    loss_terms al 10 0 3 = Ok (quotient_diff, d) /\
    loss_entry al 10 0 3 = Ok (inject_Z (Qceiling (quotient_diff * d))) /\
    Qceiling (quotient_diff * d) < 0.
Proof.
  do 3 eexists. split; [vm_compute; reflexivity|].
  split; [vm_compute; reflexivity|].
  match goal with
  | |- loss_entry ?al ?n ?p ?g = Ok (inject_Z (Qceiling (?diff * ?d))) /\ _ =>
      destruct (margins_not_clamped argsortQ [100; 90] n (12 # 10) al p g diff d)
      as (_ & Hloss & _ & _ & _ & Hneg)
  end.
  - vm_compute. reflexivity.
  - lia.
  - reflexivity.
  - right. vm_compute. reflexivity.
  - split; [apply Hloss; vm_compute; reflexivity|].
    apply Hneg. vm_compute. discriminate.
Defined.

(** * Strictly decreasing quotients, in exact arithmetic *)

Lemma strictly_decreasing_intro {F : Type} `{Number F} (row : list F) :
  (forall r x y, nth_error row r = Some x -> nth_error row (S r) = Some y ->
                 npy_lt y x = true) ->
  strictly_decreasing row = true.
Proof.
  induction row as [|x rest IH]; intros Hrow; [reflexivity|].
  destruct rest as [|y rest']; [reflexivity|].
  cbn [strictly_decreasing]. apply andb_true_intro. split.
  - apply (Hrow 0%nat); reflexivity.
  - apply IH. intros r a b Ea Eb. apply (Hrow (S r)); assumption.
Qed.

Lemma quotient_decreases (v : Z) (d1 d2 : Q) :
  0 < v -> (0 < d1)%Q -> (d1 < d2)%Q ->
  npy_lt (fdiv (of_int v) d2) (fdiv (of_int v) d1) = true.
Proof.
  intros Hv H1 H12. unfold npy_lt. cbn [flt fis_nan fdiv of_int exact].
  rewrite andb_false_l, orb_false_r. apply negb_true_iff.
  destruct (Qle_bool (inject_Z v / d1) (inject_Z v / d2)) eqn:E; [exfalso | reflexivity].
  apply Qle_bool_iff in E. apply Qle_not_lt in E. apply E.
  assert (H2 : (0 < d2)%Q) by (eapply Qlt_trans; eauto).
  unfold Qdiv. apply Qmult_lt_l.
  - change 0%Q with (inject_Z 0). rewrite <- Zlt_Qlt. exact Hv.
  - apply (Qinv_lt_contravar d1 d2 H1 H2). exact H12.
Qed.

(** A party with votes has strictly decreasing quotients when the first
    divisor lies between 0 and the second divisor, 3. *)
Lemma positive_votes_decreasing (num_seats : Z) (first_divisor : Q) (ds : list Q)
    (v : Z) :
  make_divisors num_seats max_extra_seats first_divisor = Ok ds ->
  0 < num_seats -> (0 < first_divisor)%Q -> (first_divisor < 3)%Q -> 0 < v ->
  strictly_decreasing (map (fun d => fdiv (of_int v) d) ds) = true.
Proof.
  intros Eds Hn Hfd Hfd3 Hv.
  destruct (make_divisors_spec num_seats max_extra_seats first_divisor)
    as (ds' & Eds' & _ & E0 & Ei); [unfold max_extra_seats; lia|].
  rewrite Eds in Eds'. injection Eds' as <-.
  apply strictly_decreasing_intro. intros r x y Ex Ey.
  rewrite nth_error_map in Ex, Ey.
  destruct (nth_error ds r) as [d1|] eqn:E1; [|discriminate].
  destruct (nth_error ds (S r)) as [d2|] eqn:E2; [|discriminate].
  cbn [option_map] in Ex, Ey. injection Ex as <-. injection Ey as <-.
  pose proof (nth_error_lt _ _ _ E2) as L2.
  rewrite Ei in E2 by lia. injection E2 as <-.
  assert (H3 : forall i : Z, 1 <= i -> (3 <= odd_divisor (F := Q) i)%Q).
  { intros i Hi. unfold odd_divisor. cbn [of_int fadd exact].
    unfold Qle, Qplus, inject_Z. cbn [Qnum Qden]. lia. }
  destruct r as [|r].
  - rewrite E0 in E1. injection E1 as <-.
    apply quotient_decreases; [assumption | assumption |].
    eapply Qlt_le_trans; [exact Hfd3 | exact (H3 (Z.of_nat 1) ltac:(lia))].
  - rewrite Ei in E1 by lia. injection E1 as <-.
    apply quotient_decreases; [assumption | |].
    + eapply Qlt_le_trans; [|exact (H3 (Z.of_nat (S r)) ltac:(lia))]. reflexivity.
    + unfold odd_divisor. cbn [of_int fadd exact].
      unfold Qlt, Qplus, inject_Z. cbn [Qnum Qden]. lia.
Qed.

(** * The loops never run out of turns *)

Section Fuel.
Context {F : Type} `{Number F}.
Variable al : allocation F.
Variable num_seats : Z.
Variable p : Z.
Variable wanted : Z.
Hypothesis Hseats : 0 <= num_seats.

Lemma overtake_loop_fuel (fuel : nat) :
  forall walked gotten : Z,
    0 <= walked <= num_seats + Z.of_nat (length (party_dim al)) ->
    num_seats + Z.of_nat (length (party_dim al)) < Z.of_nat fuel + walked ->
    overtake_loop al num_seats fuel p wanted walked gotten <> Raise OutOfFuel.
Proof.
  induction fuel as [|fuel IH]; intros walked gotten Hw Hf; cbn [overtake_loop];
    destruct (gotten <? wanted); try discriminate; [lia|].
  destruct (py_index (party_dim al) (num_seats - (walked + 1))) as [q|e] eqn:Eq;
    cbn [bind].
  - apply py_index_bounds in Eq. apply IH; lia.
  - apply py_index_Raise in Eq. subst e. discriminate.
Qed.

Lemma fall_behind_loop_fuel (fuel : nat) :
  forall walked gotten : Z,
    0 <= walked <= num_seats + Z.of_nat (length (party_dim al)) ->
    num_seats + Z.of_nat (length (party_dim al)) < Z.of_nat fuel + walked ->
    fall_behind_loop al num_seats fuel p wanted walked gotten <> Raise OutOfFuel.
Proof.
  induction fuel as [|fuel IH]; intros walked gotten Hw Hf; cbn [fall_behind_loop];
    destruct (gotten <? wanted); try discriminate; [lia|].
  destruct (py_index (party_dim al) (num_seats - 1 + (walked + 1))) as [q|e] eqn:Eq;
    cbn [bind].
  - apply py_index_bounds in Eq. apply IH; lia.
  - apply py_index_Raise in Eq. subst e. discriminate.
Qed.

(** With [walk_fuel] turns, both loops return or raise [IndexError]. *)
Lemma walk_fuel_enough :
  overtake_loop al num_seats (walk_fuel al num_seats) p wanted 0 0 <> Raise OutOfFuel /\
  fall_behind_loop al num_seats (walk_fuel al num_seats) p wanted 0 0 <> Raise OutOfFuel.
Proof.
  unfold walk_fuel. split; [apply overtake_loop_fuel | apply fall_behind_loop_fuel]; lia.
Qed.
End Fuel.


(** * Outcomes of the whole call *)

Lemma index_error_only_Ok {A : Type} (a : A) : index_error_only (Ok a).
Proof. intros e E. discriminate. Qed.

Lemma index_error_only_bind {A B : Type} (m : result A) (k : A -> result B) :
  index_error_only m -> (forall a, index_error_only (k a)) ->
  index_error_only (bind m k).
Proof.
  unfold index_error_only. destruct m as [a|e0]; cbn [bind]; intros Hm Hk e E.
  - eapply Hk; eauto.
  - injection E as <-. now apply Hm.
Qed.

Lemma index_error_only_mapM {A B : Type} (f : A -> result B) (l : list A) :
  (forall a, index_error_only (f a)) -> index_error_only (mapM f l).
Proof.
  intros Hf. induction l as [|x t IH]; cbn [mapM].
  - apply index_error_only_Ok.
  - apply index_error_only_bind; [apply Hf | intros y].
    apply index_error_only_bind; [exact IH | intros ys; apply index_error_only_Ok].
Qed.

Lemma index_error_only_py_index {A : Type} (a : list A) (i : Z) :
  index_error_only (py_index a i).
Proof. intros e E. eapply py_index_Raise; eauto. Qed.

Lemma index_error_only_py_index2 {A : Type} (a : list (list A)) (i j : Z) :
  index_error_only (py_index2 a i j).
Proof.
  apply index_error_only_bind; [apply index_error_only_py_index|].
  intros row. apply index_error_only_py_index.
Qed.



Section Outcomes.
Context {F : Type} `{Number F}.
Variable argsort : list F -> list nat.



Variable al : allocation F.
Variable num_seats : Z.
Hypothesis Hseats : 0 <= num_seats.

Lemma index_error_only_overtake_loop (p wanted : Z) :
  index_error_only (overtake_loop al num_seats (walk_fuel al num_seats) p wanted 0 0).
Proof.
  intros e E. destruct e; [exfalso | reflexivity | exfalso].
  - exact (no_assertion_overtake_loop al num_seats (walk_fuel al num_seats) p wanted 0 0 E).
  - exact (proj1 (walk_fuel_enough al num_seats p wanted Hseats) E).
Qed.

Lemma index_error_only_fall_behind_loop (p wanted : Z) :
  index_error_only (fall_behind_loop al num_seats (walk_fuel al num_seats) p wanted 0 0).
Proof.
  intros e E. destruct e; [exfalso | reflexivity | exfalso].
  - exact (no_assertion_fall_behind_loop al num_seats (walk_fuel al num_seats) p wanted 0 0 E).
  - exact (proj2 (walk_fuel_enough al num_seats p wanted Hseats) E).
Qed.

Lemma index_error_only_gain_entry (p wanted : Z) :
  index_error_only (gain_entry al num_seats p wanted).
Proof.
  unfold gain_entry, gain_terms.
  apply index_error_only_bind; [|intros t; apply index_error_only_Ok].
  apply index_error_only_bind; [apply index_error_only_overtake_loop | intros w].
  apply index_error_only_bind; [apply index_error_only_py_index | intros op].
  apply index_error_only_bind; [apply index_error_only_py_index | intros od].
  apply index_error_only_bind; [apply index_error_only_py_index2 | intros q].
  apply index_error_only_bind; [apply index_error_only_py_index | intros s].
  apply index_error_only_bind; [apply index_error_only_py_index2 | intros own].
  apply index_error_only_bind; [apply index_error_only_py_index | intros d].
  apply index_error_only_Ok.
Qed.

Lemma index_error_only_loss_entry (p wanted : Z) :
  index_error_only (loss_entry al num_seats p wanted).
Proof.
  unfold loss_entry, loss_terms.
  apply index_error_only_bind; [|intros t; apply index_error_only_Ok].
  apply index_error_only_bind; [apply index_error_only_fall_behind_loop | intros w].
  apply index_error_only_bind; [apply index_error_only_py_index | intros op].
  apply index_error_only_bind; [apply index_error_only_py_index | intros od].
  apply index_error_only_bind; [apply index_error_only_py_index2 | intros q].
  apply index_error_only_bind; [apply index_error_only_py_index | intros s].
  apply index_error_only_bind; [apply index_error_only_py_index2 | intros own].
  apply index_error_only_bind; [apply index_error_only_py_index | intros d].
  apply index_error_only_Ok.
Qed.
End Outcomes.

Lemma length_mapM {A B : Type} (f : A -> result B) (l : list A) (ys : list B) :
  mapM f l = Ok ys -> length ys = length l.
Proof.
  revert ys. induction l as [|x t IH]; intros ys E; cbn [mapM] in E.
  - now injection E as <-.
  - bind_inv E. bind_inv E. injection E as <-. cbn [length]. f_equal. now apply IH.
Qed.




(** * The seat table *)

Lemma mapM_total {A B : Type} (f : A -> result B) (l : list A) :
  (forall x, In x l -> exists y, f x = Ok y) -> exists ys, mapM f l = Ok ys.
Proof.
  induction l as [|x t IH]; intros Hf; cbn [mapM]; [eauto|].
  destruct (Hf x) as (y & Ey); [now left|].
  destruct IH as (ys & Eys); [intros z Hz; apply Hf; now right|].
  rewrite Ey, Eys. cbn [bind]. eauto.
Qed.

Lemma uint32_le (z : Z) : 0 <= z -> uint32 z <= z.
Proof. intros Hz. unfold uint32. apply Z.mod_le; lia. Qed.

(** What one turn of the loop over the parties reads. *)
Lemma seat_row_lookup {F : Type} `{Number F} (argsort : list F -> list nat)
    (votes : list Z) (party_names : list string) (num_seats : Z) (first_divisor : F)
    (al : allocation F) (p : nat) :
  permutes argsort votes num_seats first_divisor ->
  0 < num_seats ->
  length votes = length party_names ->
  allocate argsort votes num_seats first_divisor = Ok al ->
  (p < length votes)%nat ->
  exists name s v row last,
    nth_error party_names p = Some name /\
    nth_error (seats_per_party al) p = Some s /\
    nth_error votes p = Some v /\
    nth_error (quotients al) p = Some row /\
    nth_error row (if s =? 0 then (length row - 1)%nat else Z.to_nat (s - 1))
    = Some last /\
    py_index2 (quotients al) (Z.of_nat p) (s - 1) = Ok last.
Proof.
  intros Hperm Hn Hnames Hal Hp.
  pose proof (seats_count argsort votes num_seats first_divisor Hperm al Hal Hn) as Hseats.
  pose proof (length_quotients argsort votes num_seats first_divisor al Hal) as Lq.
  pose proof (length_divisors argsort votes num_seats first_divisor al Hal Hn) as Ld.
  destruct (nth_error party_names p) as [name|] eqn:Ename;
    [|apply nth_error_None in Ename; lia].
  destruct (nth_error votes p) as [v|] eqn:Ev; [|apply nth_error_None in Ev; lia].
  destruct (nth_error (quotients al) p) as [row|] eqn:Erow;
    [|apply nth_error_None in Erow; lia].
  assert (Lrow : length row = length (divisors al)).
  { apply (length_rows argsort votes num_seats first_divisor al Hal).
    eapply nth_error_In; eauto. }
  set (s := uint32 (Z.of_nat (positions_won num_seats al p))).
  assert (Es : nth_error (seats_per_party al) p = Some s).
  { rewrite Hseats, nth_error_map, nth_error_seq.
    destruct (Nat.ltb_spec p (length votes)); [reflexivity | lia]. }
  assert (Hs : 0 <= s <= num_seats).
  { split; [apply uint32_range|].
    etransitivity; [apply uint32_le; lia|]. unfold positions_won.
    pose proof (count_occ_le_length (firstn (Z.to_nat num_seats) (party_dim al))
                                    (Z.of_nat p)).
    rewrite length_firstn in *. lia. }
  unfold max_extra_seats in Ld. clearbody s.
  destruct (Z.eqb_spec s 0) as [E0|E0].
  - destruct (py_index_from_end row (s - 1)) as (last & Elast & Ilast); [lia | lia |].
    exists name, s, v, row, last. repeat split; try assumption.
    + destruct (Z.eqb_spec s 0); [|lia]. rewrite <- Elast. f_equal. lia.
    + unfold py_index2. rewrite (py_index_of_nat _ _ _ Erow). exact Ilast.
  - destruct (nth_error row (Z.to_nat (s - 1))) as [last|] eqn:Elast;
      [|apply nth_error_None in Elast; lia].
    exists name, s, v, row, last. repeat split; try assumption.
    + destruct (Z.eqb_spec s 0); [lia | exact Elast].
    + unfold py_index2. rewrite (py_index_of_nat _ _ _ Erow). cbn [bind].
      apply py_index_nonneg; [lia | exact Elast].
Qed.

(** [X2]: The seat table has one row per party.  Its last column is
    [quotients[p, seats - 1]]: the quotient at rank [seats - 1] for a party
    with seats, and, the subscript being [-1], the quotient at the highest
    rank there is for a party without any. *)
Theorem seat_table_rows {F : Type} `{Number F} (argsort : list F -> list nat)
    (votes : list Z) (party_names : list string) (num_seats : Z) (first_divisor : F)
    (al : allocation F) :
  permutes argsort votes num_seats first_divisor ->
  0 < num_seats ->
  length votes = length party_names ->
  allocate argsort votes num_seats first_divisor = Ok al ->
  exists rows,
    seat_rows votes party_names num_seats al = Ok rows /\
    length rows = length votes /\
    forall (p : nat) (name : string) (s : Z) (row : list F),
      nth_error party_names p = Some name ->
      nth_error (seats_per_party al) p = Some s ->
      nth_error (quotients al) p = Some row ->
      exists seat_share vote_share last,
        nth_error rows p = Some (name, s, seat_share, vote_share, last) /\
        nth_error row (if s =? 0 then (length row - 1)%nat else Z.to_nat (s - 1))
        = Some last.
Proof.
  intros Hperm Hn Hnames Hal.
  pose proof (seats_count argsort votes num_seats first_divisor Hperm al Hal Hn) as Hseats.
  pose proof (length_quotients argsort votes num_seats first_divisor al Hal) as Lq.
  pose proof (length_divisors argsort votes num_seats first_divisor al Hal Hn) as Ld.
  pose proof (fun p => seat_row_lookup argsort votes party_names num_seats first_divisor
                        al p Hperm Hn Hnames Hal) as Hrow.
  destruct (mapM_total
              (fun p =>
                 name <- py_index party_names p ;;
                 s <- py_index (seats_per_party al) p ;;
                 v <- py_index votes p ;;
                 last <- py_index2 (quotients al) p (s - 1) ;;
                 Ok (name, s,
                     fmul (fdiv (of_int s) (of_int num_seats)) (of_int 100),
                     fmul (fdiv (of_int v) (of_int (fold_right Z.add 0 votes)))
                          (of_int 100),
                     last))
              (range (Z.of_nat (length votes)))) as (rows & Erows).
  { intros i Hi. apply In_range in Hi.
    destruct (Hrow (Z.to_nat i)) as (name & s & v & row & last & E1 & E2 & E3 & _ & _ & E6);
      [lia|].
    rewrite Z2Nat.id in E6 by lia.
    rewrite (py_index_nonneg _ _ _ (proj1 Hi) E1). cbn [bind].
    rewrite (py_index_nonneg _ _ _ (proj1 Hi) E2). cbn [bind].
    rewrite (py_index_nonneg _ _ _ (proj1 Hi) E3). cbn [bind].
    rewrite E6. cbn [bind]. eauto. }
  exists rows. split; [exact Erows|]. split.
  - rewrite (length_mapM _ _ _ Erows), length_range. lia.
  - intros p name s row Ename Es Erow.
    assert (Hp : (p < length votes)%nat) by (apply nth_error_lt in Erow; lia).
    destruct (Hrow p Hp) as (name' & s' & v & row' & last & E1 & E2 & E3 & E4 & E5 & E6).
    rewrite Ename in E1. rewrite Es in E2. rewrite Erow in E4.
    injection E1 as <-. injection E2 as <-. injection E4 as <-.
    destruct (mapM_nth _ _ _ p (Z.of_nat p) Erows) as (r & Er & Ef);
      [apply nth_error_range; lia|].
    rewrite (py_index_of_nat _ _ _ Ename) in Ef. cbn [bind] in Ef.
    rewrite (py_index_of_nat _ _ _ Es) in Ef. cbn [bind] in Ef.
    rewrite (py_index_of_nat _ _ _ E3) in Ef. cbn [bind] in Ef.
    rewrite E6 in Ef. cbn [bind] in Ef. injection Ef as <-.
    eauto.
Qed.

Lemma seat_table_rows_witness :
  exists al rows,
    allocate argsort64 [100; 90; 1] 10 1.2%float = Ok al /\
    seat_rows [100; 90; 1] ["A"; "B"; "C"]%string 10 al = Ok rows /\
    length rows = 3%nat.
Proof.
  eexists. 
  match goal with
  | |- exists rows, allocate ?srt ?v ?n ?fd = Ok ?al /\ _ =>
      assert (E : allocate srt v n fd = Ok al) by (vm_compute; reflexivity)
  end.
  destruct (seat_table_rows argsort64 [100; 90; 1] ["A"; "B"; "C"]%string 10 1.2%float _
              (argsort64_permutes _ _ _) ltac:(lia) eq_refl E) as (rows & Erows & Lrows & _).
  exists rows. split; [exact E|]. split; assumption.
Defined.

(** * Comparing two parties *)

Lemma quotient_at_row {F : Type} (al : allocation F) (p r : nat) (row : list F) (x : F) :
  nth_error (quotients al) p = Some row -> nth_error row r = Some x ->
  quotient_at al (Z.of_nat p, Z.of_nat r) = Ok x.
Proof.
  intros Hrow Ex. unfold quotient_at, py_index2. cbn [fst snd].
  rewrite (py_index_of_nat _ _ _ Hrow). cbn [bind]. now apply py_index_of_nat.
Qed.

Lemma dominates_nth {F : Type} `{Number F} (row_p row_q : list F) (r : nat) (x y : F) :
  dominates row_p row_q = true ->
  nth_error row_p r = Some x -> nth_error row_q r = Some y -> npy_lt y x = true.
Proof.
  revert row_q r. induction row_p as [|a rest IH]; intros [|b rest'] r Hd Ex Ey;
    try (destruct r; discriminate).
  cbn [dominates] in Hd. apply andb_prop in Hd. destruct Hd as [Hab Hd].
  destruct r as [|r]; cbn [nth_error] in Ex, Ey.
  - congruence.
  - now apply (IH rest' r).
Qed.


Lemma all_above_In {F : Type} `{Number F} (row_p row_q : list F) (x y : F) :
  all_above row_p row_q = true -> In x row_p -> In y row_q -> npy_lt y x = true.
Proof.
  unfold all_above. intros Ha Hx Hy.
  rewrite forallb_forall in Ha. specialize (Ha x Hx).
  rewrite forallb_forall in Ha. exact (Ha y Hy).
Qed.

Section Comparison.
Context {F : Type} `{Number F}.
Variable argsort : list F -> list nat.
Variable votes : list Z.
Variable num_seats : Z.
Variable first_divisor : F.
Variable al : allocation F.
Hypothesis Hsorts : sorts argsort votes num_seats first_divisor.
Hypothesis Hal : allocate argsort votes num_seats first_divisor = Ok al.
Hypothesis Hseats : 0 < num_seats.

(** A coordinate whose quotient is larger than an awarded one is awarded. *)
Lemma awarded_upward (c c' : Z * Z) (x y : F) :
  In c (awarded num_seats al) -> In c' (ranking al) ->
  quotient_at al c = Ok x -> quotient_at al c' = Ok y -> npy_lt x y = true ->
  In c' (awarded num_seats al).
Proof.
  intros Hc Hc' Ex Ey Hlt. unfold awarded in *.
  rewrite <- (firstn_skipn (Z.to_nat num_seats) (ranking al)) in Hc'.
  apply in_app_or in Hc'. destruct Hc' as [Hc'|Hc']; [exact Hc' | exfalso].
  pose proof (ranking_sorted argsort votes num_seats first_divisor al Hsorts Hal Hseats) as Hs.
  rewrite <- (firstn_skipn (Z.to_nat num_seats) (ranking al)) in Hs.
  apply StronglySorted_app_inv in Hs. destruct Hs as (_ & _ & Hs).
  specialize (Hs _ _ Hc Hc'). rewrite (Hs x y Ex Ey) in Hlt. discriminate.
Qed.

Lemma length_awarded : length (awarded num_seats al) = Z.to_nat num_seats.
Proof.
  unfold awarded. rewrite length_firstn.
  rewrite (length_ranking argsort votes num_seats first_divisor al Hsorts Hal).
  rewrite (length_divisors argsort votes num_seats first_divisor al Hal Hseats).
  pose proof (allocate_nonempty argsort votes num_seats first_divisor
                (sorts_permutes _ _ _ _ Hsorts) al Hal Hseats).
  unfold max_extra_seats. nia.
Qed.

Lemma NoDup_awarded : NoDup (awarded num_seats al).
Proof.
  unfold awarded.
  apply (NoDup_app_remove_r _ (skipn (Z.to_nat num_seats) (ranking al))).
  rewrite firstn_skipn.
  now apply (ranking_NoDup argsort votes num_seats first_divisor al).
Qed.

(** The seat count of a party is the number of ranks at which it is awarded
    a seat. *)
Lemma seats_ranks_won (p : nat) :
  (p < length votes)%nat ->
  nth_error (seats_per_party al) p
  = Some (uint32 (Z.of_nat (length (ranks_won num_seats al p)))).
Proof.
  intros Hp.
  rewrite (seats_count argsort votes num_seats first_divisor
             (sorts_permutes _ _ _ _ Hsorts) al Hal Hseats).
  rewrite nth_error_map, nth_error_seq.
  destruct (Nat.ltb_spec p (length votes)); [|lia]. cbn [option_map Nat.add].
  now rewrite (length_ranks_won argsort votes num_seats first_divisor al Hsorts Hal).
Qed.

Lemma length_ranks_won_le (p : nat) :
  Z.of_nat (length (ranks_won num_seats al p)) <= num_seats.
Proof.
  unfold ranks_won. rewrite length_map.
  pose proof (filter_length_le (fun c : Z * Z => fst c =? Z.of_nat p) (awarded num_seats al)).
  rewrite length_awarded in *. lia.
Qed.

Variables p q : nat.
Variables row_p row_q : list F.
Hypothesis Hrow_p : nth_error (quotients al) p = Some row_p.
Hypothesis Hrow_q : nth_error (quotients al) q = Some row_q.

Lemma row_entry (a : nat) (row : list F) (r : Z) :
  nth_error (quotients al) a = Some row ->
  In (Z.of_nat a, r) (ranking al) ->
  exists x, nth_error row (Z.to_nat r) = Some x /\ quotient_at al (Z.of_nat a, r) = Ok x.
Proof.
  intros Hrow Hin.
  apply (ranking_In argsort votes num_seats first_divisor al Hsorts Hal Hseats) in Hin.
  assert (Lrow : length row = length (divisors al)).
  { apply (length_rows argsort votes num_seats first_divisor al Hal).
    eapply nth_error_In; eauto. }
  destruct (nth_error row (Z.to_nat r)) as [x|] eqn:Ex;
    [|apply nth_error_None in Ex; lia].
  exists x. split; [reflexivity|].
  rewrite <- (Z2Nat.id r) by lia. now apply (quotient_at_row al a _ row).
Qed.

(** Rank by rank, a larger quotient: every rank won by [q] is won by [p]. *)
Lemma dominates_ranks_won :
  dominates row_p row_q = true ->
  incl (ranks_won num_seats al q) (ranks_won num_seats al p).
Proof.
  intros Hd r Hr. apply In_ranks_won in Hr. apply In_ranks_won.
  pose proof (awarded_in_ranking _ _ _ Hr) as Hin.
  destruct (row_entry q row_q r Hrow_q Hin) as (y & Ey & Qy).
  pose proof (proj1 (ranking_In argsort votes num_seats first_divisor al Hsorts Hal Hseats
                       _ _) Hin) as Hrange.
  assert (Hin' : In (Z.of_nat p, r) (ranking al)).
  { apply (ranking_In argsort votes num_seats first_divisor al Hsorts Hal Hseats).
    split; [|lia]. split; [lia|].
    apply nth_error_lt in Hrow_p.
    rewrite (length_quotients argsort votes num_seats first_divisor al Hal) in Hrow_p. lia. }
  destruct (row_entry p row_p r Hrow_p Hin') as (x & Ex & Qx).
  apply (awarded_upward _ _ y x Hr Hin' Qy Qx).
  exact (dominates_nth _ _ _ _ _ Hd Ex Ey).
Qed.

(** Every quotient of [p] larger than every quotient of [q]: no rank is won
    by [q]. *)
Lemma all_above_ranks_won :
  all_above row_p row_q = true -> ranks_won num_seats al q = [].
Proof.
  intros Ha. destruct (ranks_won num_seats al q) as [|r rest] eqn:Er; [reflexivity|exfalso].
  assert (Hr : In r (ranks_won num_seats al q)) by (rewrite Er; now left).
  apply In_ranks_won in Hr.
  pose proof (awarded_in_ranking _ _ _ Hr) as Hin.
  destruct (row_entry q row_q r Hrow_q Hin) as (y & Ey & Qy).
  assert (Hp : (p < length votes)%nat).
  { apply nth_error_lt in Hrow_p.
    now rewrite (length_quotients argsort votes num_seats first_divisor al Hal) in Hrow_p. }
  assert (Hincl : incl (map (fun k => (Z.of_nat p, Z.of_nat k)) (seq 0 (length (divisors al))))
                       (awarded num_seats al)).
  { intros c Hc. apply in_map_iff in Hc. destruct Hc as (k & <- & Hk). apply in_seq in Hk.
    assert (Hin' : In (Z.of_nat p, Z.of_nat k) (ranking al)).
    { apply (ranking_In argsort votes num_seats first_divisor al Hsorts Hal Hseats). lia. }
    destruct (row_entry p row_p _ Hrow_p Hin') as (x & Ex & Qx).
    apply (awarded_upward _ _ y x Hr Hin' Qy Qx).
    apply (all_above_In row_p row_q); [exact Ha | |]; eapply nth_error_In; eauto. }
  apply NoDup_incl_length in Hincl.
  - rewrite length_map, length_seq, length_awarded in Hincl.
    rewrite (length_divisors argsort votes num_seats first_divisor al Hal Hseats) in Hincl.
    unfold max_extra_seats in Hincl. lia.
  - apply Finite.Injective_map_NoDup; [|apply seq_NoDup].
    intros i j E. injection E as E. lia.
Qed.
End Comparison.

Lemma npy_lt_exact (x y : Q) : (x < y)%Q -> npy_lt x y = true.
Proof.
  intros Hlt. unfold npy_lt. cbn [flt fis_nan exact].
  rewrite andb_false_l, orb_false_r. apply negb_true_iff.
  destruct (Qle_bool y x) eqn:E; [exfalso | reflexivity].
  apply Qle_bool_iff in E. now apply Qle_not_lt in E.
Qed.

Lemma nth_error_quotients {F : Type} `{Number F} (argsort : list F -> list nat)
    (votes : list Z) (num_seats : Z) (first_divisor : F) (al : allocation F)
    (p : nat) (v : Z) :
  allocate argsort votes num_seats first_divisor = Ok al ->
  nth_error votes p = Some v ->
  nth_error (quotients al) p = Some (map (fun d => fdiv (of_int v) d) (divisors al)).
Proof.
  intros Hal Ev.
  destruct (allocate_inv argsort votes num_seats first_divisor al Hal) as (_ & -> & _).
  unfold make_quotients. now rewrite nth_error_map, Ev.
Qed.

(** [X3]: A party whose quotient is the larger one at every divisor rank is
    awarded a seat at every rank at which the other party is awarded one,
    and so ends with at least as many seats. *)
Theorem dominant_party_seats {F : Type} `{Number F} (argsort : list F -> list nat)
    (votes : list Z) (num_seats : Z) (first_divisor : F) (al : allocation F)
    (p q : nat) (row_p row_q : list F) :
  sorts argsort votes num_seats first_divisor ->
  0 < num_seats < 2 ^ 32 ->
  allocate argsort votes num_seats first_divisor = Ok al ->
  nth_error (quotients al) p = Some row_p ->
  nth_error (quotients al) q = Some row_q ->
  dominates row_p row_q = true ->
  (forall r, In (Z.of_nat q, r) (awarded num_seats al) ->
             In (Z.of_nat p, r) (awarded num_seats al)) /\
  exists seats_p seats_q,
    nth_error (seats_per_party al) p = Some seats_p /\
    nth_error (seats_per_party al) q = Some seats_q /\
    seats_q <= seats_p.
Proof.
  intros Hsorts [Hn Hn32] Hal Hrow_p Hrow_q Hd.
  pose proof (dominates_ranks_won argsort votes num_seats first_divisor al Hsorts Hal Hn
                p q row_p row_q Hrow_p Hrow_q Hd) as Hincl.
  split.
  - intros r Hr. apply In_ranks_won. apply Hincl. now apply In_ranks_won.
  - pose proof (length_quotients argsort votes num_seats first_divisor al Hal) as Lq.
    assert (Hp : (p < length votes)%nat) by (apply nth_error_lt in Hrow_p; lia).
    assert (Hq : (q < length votes)%nat) by (apply nth_error_lt in Hrow_q; lia).
    pose proof (length_ranks_won_le argsort votes num_seats first_divisor al Hsorts Hal Hn p).
    pose proof (length_ranks_won_le argsort votes num_seats first_divisor al Hsorts Hal Hn q).
    do 2 eexists.
    split; [apply (seats_ranks_won argsort votes num_seats first_divisor al Hsorts Hal Hn _ Hp)|].
    split; [apply (seats_ranks_won argsort votes num_seats first_divisor al Hsorts Hal Hn _ Hq)|].
    rewrite !uint32_small by lia.
    apply Nat2Z.inj_le. apply NoDup_incl_length; [|exact Hincl].
    apply (NoDup_ranks_won argsort votes num_seats first_divisor al Hsorts Hal Hn).
Qed.

Lemma dominant_party_seats_witness :
  exists al seats_p seats_q,
    allocate argsort64 [100; 80; 30] 4 1.4%float = Ok al /\
    nth_error (seats_per_party al) 1 = Some seats_p /\
    nth_error (seats_per_party al) 2 = Some seats_q /\
    seats_q <= seats_p.
Proof.
  eexists.
  match goal with
  | |- exists _ _, allocate ?srt ?v ?n ?fd = Ok ?al /\ _ =>
      assert (E : allocate srt v n fd = Ok al) by (vm_compute; reflexivity);
      destruct (dominant_party_seats srt v n fd al 1 2
                  (map (fun d => fdiv (of_int 80) d) (divisors al))
                  (map (fun d => fdiv (of_int 30) d) (divisors al)))
        as (_ & sp & sq & Ep & Eq & Hle)
  end.
  - apply sortsb_sound. vm_compute. reflexivity.
  - lia.
  - exact E.
  - vm_compute. reflexivity.
  - vm_compute. reflexivity.
  - vm_compute. reflexivity.
  - exists sp, sq. split; [exact E|]. split; [exact Ep|]. split; [exact Eq | exact Hle].
Defined.



(** [X5]: A party all of whose quotients lie below every quotient of some other
    party is awarded no seat: the other party alone has more quotients than
    there are seats. *)
Theorem outranked_party_no_seat {F : Type} `{Number F} (argsort : list F -> list nat)
    (votes : list Z) (num_seats : Z) (first_divisor : F) (al : allocation F)
    (p q : nat) (row_p row_q : list F) :
  sorts argsort votes num_seats first_divisor ->
  0 < num_seats ->
  allocate argsort votes num_seats first_divisor = Ok al ->
  nth_error (quotients al) p = Some row_p ->
  nth_error (quotients al) q = Some row_q ->
  all_above row_p row_q = true ->
  nth_error (seats_per_party al) q = Some 0 /\
  forall r, ~ In (Z.of_nat q, r) (awarded num_seats al).
Proof.
  intros Hsorts Hn Hal Hrow_p Hrow_q Ha.
  pose proof (all_above_ranks_won argsort votes num_seats first_divisor al Hsorts Hal Hn
                p q row_p row_q Hrow_p Hrow_q Ha) as Hnone.
  pose proof (length_quotients argsort votes num_seats first_divisor al Hal) as Lq.
  assert (Hq : (q < length votes)%nat) by (apply nth_error_lt in Hrow_q; lia).
  split.
  - rewrite (seats_ranks_won argsort votes num_seats first_divisor al Hsorts Hal Hn _ Hq).
    rewrite Hnone. reflexivity.
  - intros r Hr. apply In_ranks_won in Hr. now rewrite Hnone in Hr.
Qed.

Lemma outranked_party_no_seat_witness :
  exists al,
    allocate argsort64 [100; 90; 1] 10 1.2%float = Ok al /\
    nth_error (seats_per_party al) 2 = Some 0.
Proof.
  eexists.
  match goal with
  | |- allocate ?srt ?v ?n ?fd = Ok ?al /\ _ =>
      assert (E : allocate srt v n fd = Ok al) by (vm_compute; reflexivity);
      destruct (outranked_party_no_seat srt v n fd al 1 2
                  (map (fun d => fdiv (of_int 90) d) (divisors al))
                  (map (fun d => fdiv (of_int 1) d) (divisors al)))
        as (Es & _)
  end.
  - apply sortsb_sound. vm_compute. reflexivity.
  - lia.
  - exact E.
  - vm_compute. reflexivity.
  - vm_compute. reflexivity.
  - vm_compute. reflexivity.
  - split; [exact E | exact Es].
Defined.

(** [X6]: In exact arithmetic and with a positive first divisor, a party without
    votes is awarded no seat as soon as some party has votes. *)
Theorem no_votes_no_seat (argsort : list Q -> list nat) (votes : list Z)
    (num_seats : Z) (first_divisor : Q) (al : allocation Q) (p q : nat)
    (votes_p votes_q : Z) :
  sorts argsort votes num_seats first_divisor ->
  0 < num_seats ->
  (0 < first_divisor)%Q ->
  allocate argsort votes num_seats first_divisor = Ok al ->
  nth_error votes p = Some votes_p ->
  nth_error votes q = Some votes_q ->
  votes_q <= 0 < votes_p ->
  nth_error (seats_per_party al) q = Some 0.
Proof.
  intros Hsorts Hn Hfd Hal Ep Eq [Hq0 Hp0].
  pose proof (nth_error_quotients argsort votes num_seats first_divisor al p _ Hal Ep) as Hrow_p.
  pose proof (nth_error_quotients argsort votes num_seats first_divisor al q _ Hal Eq) as Hrow_q.
  assert (Ha : all_above (map (fun d => fdiv (of_int votes_p) d) (divisors al))
                         (map (fun d => fdiv (of_int votes_q) d) (divisors al)) = true).
  { unfold all_above. apply forallb_forall. intros x Hx. apply forallb_forall. intros y Hy.
    apply in_map_iff in Hx. destruct Hx as (d & <- & Hd).
    apply in_map_iff in Hy. destruct Hy as (d' & <- & Hd').
    pose proof (divisors_positive argsort votes num_seats first_divisor al d Hal Hn Hfd Hd).
    pose proof (divisors_positive argsort votes num_seats first_divisor al d' Hal Hn Hfd Hd').
    apply npy_lt_exact. cbn [fdiv of_int exact]. unfold Qdiv.
    apply Qle_lt_trans with 0%Q.
    - setoid_replace 0%Q with (0 * / d')%Q by ring.
      apply Qmult_le_compat_r.
      + change 0%Q with (inject_Z 0). now rewrite <- Zle_Qle.
      + apply Qlt_le_weak. now apply Qinv_lt_0_compat.
    - apply Qmult_lt_0_compat; [|now apply Qinv_lt_0_compat].
      change 0%Q with (inject_Z 0). now rewrite <- Zlt_Qlt. }
  pose proof (all_above_ranks_won argsort votes num_seats first_divisor al Hsorts Hal Hn
                p q _ _ Hrow_p Hrow_q Ha) as Hnone.
  assert (Hq : (q < length votes)%nat) by (apply nth_error_lt in Eq; lia).
  rewrite (seats_ranks_won argsort votes num_seats first_divisor al Hsorts Hal Hn _ Hq).
  rewrite Hnone. reflexivity.
Qed.

Lemma no_votes_no_seat_witness :
  exists al,
    allocate argsortQ [100; 0; 80] 4 (14 # 10) = Ok al /\
    nth_error (seats_per_party al) 1 = Some 0.
Proof.
  eexists.
  match goal with
  | |- allocate ?srt ?v ?n ?fd = Ok ?al /\ _ =>
      assert (E : allocate srt v n fd = Ok al) by (vm_compute; reflexivity);
      pose proof (no_votes_no_seat srt v n fd al 0 1 100 0) as Es
  end.
  split; [exact E|]. apply Es.
  - apply sortsb_sound. vm_compute. reflexivity.
  - lia.
  - reflexivity.
  - exact E.
  - reflexivity.
  - reflexivity.
  - lia.
Defined.

(** * When the margins can be computed *)

(** ** The walks *)

(** The walk finds its [g]-th foreign position when there are that many. *)
Lemma walk_exists (p : Z) (positions : list (Z * Z)) :
  forall g : nat,
    (1 <= g)%nat ->
    (g <= length (filter (fun c : Z * Z => negb (fst c =? p)%Z) positions))%nat ->
    exists walked c,
      walk p g positions = Some (walked, c) /\
      (walked <= g + length (filter (fun c : Z * Z => (fst c =? p)%Z) positions))%nat.
Proof.
  induction positions as [|c0 rest IH]; intros g Hg Hcount; [cbn in Hcount; lia|].
  cbn [walk filter] in *. destruct (fst c0 =? p); cbn [negb length] in *.
  - destruct (IH g Hg Hcount) as (walked & c & Ew & Hw). rewrite Ew.
    exists (S walked), c. split; [reflexivity | lia].
  - destruct g as [|[|g]]; [lia | |].
    + exists 1%nat, c0. split; [reflexivity | lia].
    + destruct (IH (S g)) as (walked & c & Ew & Hw); [lia | lia |]. rewrite Ew.
      exists (S walked), c. split; [reflexivity | lia].
Qed.

Section WalkLoops.
Context {F : Type} `{Number F}.
Variable al : allocation F.
Variable num_seats : Z.
Variable p : Z.
Variable wanted : Z.

(** When the gain loop returns, the last position it read exists. *)
Lemma overtake_loop_last (fuel : nat) :
  forall walked0 gotten walked,
    overtake_loop al num_seats fuel p wanted walked0 gotten = Ok walked ->
    gotten < wanted ->
    walked0 < walked /\
    exists q, py_index (party_dim al) (num_seats - walked) = Ok q.
Proof.
  induction fuel as [|fuel IH]; intros walked0 gotten walked E Hg;
    cbn [overtake_loop] in E;
    destruct (Z.ltb_spec gotten wanted); try lia; [discriminate|].
  bind_inv E.
  set (gotten' := if negb (p =? x) then gotten + 1 else gotten) in E.
  destruct (Z.lt_ge_cases gotten' wanted) as [Hlt|Hge].
  - destruct (IH _ _ _ E Hlt) as (Hw & q & Eq). split; [lia | eauto].
  - rewrite overtake_loop_done in E by lia. injection E as <-.
    split; [lia | eauto].
Qed.

(** The loss loop walks the positions handed to it exactly as [walk] does. *)
Lemma fall_behind_loop_walk (positions : list (Z * Z)) :
  forall (fuel w g_left walked : nat) (c : Z * Z),
    (forall i x, nth_error positions i = Some x ->
                 py_index (party_dim al) (num_seats - 1 + (Z.of_nat (w + i) + 1))
                 = Ok (fst x)) ->
    walk p g_left positions = Some (walked, c) ->
    (length positions < fuel)%nat ->
    fall_behind_loop al num_seats fuel p wanted (Z.of_nat w) (wanted - Z.of_nat g_left)
    = Ok (Z.of_nat (w + walked)).
Proof.
  induction positions as [|c0 rest IH]; intros fuel w g_left walked c Hpos Hw Hf;
    [discriminate|].
  assert (Hg : (1 <= g_left)%nat).
  { destruct g_left; [|lia]. now rewrite walk_zero in Hw. }
  destruct fuel as [|fuel]; [cbn in Hf; lia|]. cbn [length] in Hf.
  cbn [fall_behind_loop].
  destruct (Z.ltb_spec (wanted - Z.of_nat g_left) wanted); [|lia].
  specialize (Hpos 0%nat c0 eq_refl) as Hc0. rewrite Nat.add_0_r in Hc0.
  rewrite Hc0. cbn [bind].
  assert (Hrest : forall i x, nth_error rest i = Some x ->
            py_index (party_dim al) (num_seats - 1 + (Z.of_nat (S w + i) + 1))
            = Ok (fst x)).
  { intros i x Hi. replace (S w + i)%nat with (w + S i)%nat by lia.
    apply Hpos. exact Hi. }
  replace (Z.of_nat w + 1) with (Z.of_nat (S w)) by lia.
  cbn [walk] in Hw. rewrite (Z.eqb_sym p (fst c0)).
  destruct (fst c0 =? p); cbn [negb].
  - destruct (walk p g_left rest) as [[n c']|] eqn:Ew; [|discriminate].
    injection Hw as <- <-.
    rewrite (IH fuel (S w) g_left n c' Hrest Ew) by lia. f_equal. lia.
  - destruct g_left as [|[|g']]; [lia| |].
    + injection Hw as <- <-. rewrite fall_behind_loop_done by lia. f_equal. lia.
    + destruct (walk p (S g') rest) as [[n c']|] eqn:Ew; [|discriminate].
      injection Hw as <- <-.
      replace (wanted - Z.of_nat (S (S g')) + 1) with (wanted - Z.of_nat (S g')) by lia.
      rewrite (IH fuel (S w) (S g') n c' Hrest Ew) by lia. f_equal. lia.
Qed.

(** As long as every position it reads is the party's own, the gain loop
    does not return. *)
Lemma overtake_loop_own (fuel : nat) :
  forall walked gotten,
    (forall q, In q (party_dim al) -> q = p) ->
    gotten < wanted ->
    exists e, overtake_loop al num_seats fuel p wanted walked gotten = Raise e.
Proof.
  induction fuel as [|fuel IH]; intros walked gotten Hown Hg; cbn [overtake_loop];
    destruct (Z.ltb_spec gotten wanted); try lia; [eauto|].
  destruct (py_index (party_dim al) (num_seats - (walked + 1))) as [q|e] eqn:Eq;
    cbn [bind]; [|eauto].
  apply py_index_In in Eq. rewrite (Hown q Eq), Z.eqb_refl. cbn [negb].
  now apply IH.
Qed.
End WalkLoops.

(** ** The subscripts of an entry *)

Lemma py_index_in_range {A : Type} (a : list A) (i : Z) :
  - Z.of_nat (length a) <= i < Z.of_nat (length a) -> exists x, py_index a i = Ok x.
Proof.
  intros Hi. destruct (Z.lt_ge_cases i 0) as [Hneg|Hpos].
  - destruct (py_index_from_end a i) as (x & _ & Ex); [lia | lia | eauto].
  - destruct (nth_error a (Z.to_nat i)) as [x|] eqn:Ex;
      [|apply nth_error_None in Ex; lia].
    exists x. now apply py_index_nonneg.
Qed.

(** Two arrays of one length are read at the same position by a subscript. *)
Lemma py_index_same_length {A B : Type} (a : list A) (b : list B) (i : Z) (x : A) :
  length a = length b -> py_index a i = Ok x ->
  exists y, py_index b i = Ok y /\ In (x, y) (combine a b).
Proof.
  intros L E. apply py_index_Ok_iff in E. destruct E as [H0 En].
  assert (W : wrap_index b i = wrap_index a i) by (unfold wrap_index; now rewrite L).
  destruct (nth_error b (Z.to_nat (wrap_index a i))) as [y|] eqn:Ey;
    [|apply nth_error_None in Ey; apply nth_error_lt in En; lia].
  exists y. split.
  - apply py_index_Ok_iff. rewrite W. split; assumption.
  - apply (nth_error_In _ (Z.to_nat (wrap_index a i))). now apply nth_error_combine_intro.
Qed.

Section Entries.
Context {F : Type} `{Number F}.
Variable argsort : list F -> list nat.
Variable votes : list Z.
Variable num_seats : Z.
Variable first_divisor : F.
Variable al : allocation F.
Hypothesis Hsorts : sorts argsort votes num_seats first_divisor.
Hypothesis Hal : allocate argsort votes num_seats first_divisor = Ok al.
Hypothesis Hseats : 0 < num_seats.

(** A position of the ranking that can be read names a quotient. *)
Lemma position_quotient (i op : Z) :
  py_index (party_dim al) i = Ok op ->
  exists od q,
    py_index (divisor_dim al) i = Ok od /\
    py_index2 (quotients al) op od = Ok q.
Proof.
  intros Eop.
  pose proof (sorts_permutes _ _ _ _ Hsorts) as Hperm.
  destruct (py_index_same_length (party_dim al) (divisor_dim al) i op) as (od & Eod & Hin);
    [|exact Eop|].
  { rewrite (length_party_dim argsort votes num_seats first_divisor Hperm al Hal).
    symmetry. apply (length_divisor_dim argsort votes num_seats first_divisor Hperm al Hal). }
  fold (ranking al) in Hin.
  apply (ranking_In argsort votes num_seats first_divisor al Hsorts Hal Hseats) in Hin.
  destruct (nth_error votes (Z.to_nat op)) as [vo|] eqn:Evo;
    [|apply nth_error_None in Evo; lia].
  destruct (nth_error (divisors al) (Z.to_nat od)) as [d_o|] eqn:Edo;
    [|apply nth_error_None in Edo; lia].
  exists od, (fdiv (of_int vo) d_o). split; [exact Eod|].
  rewrite <- (Z2Nat.id op), <- (Z2Nat.id od) by lia.
  now apply (quotient_lookup argsort votes num_seats first_divisor al Hal).
Qed.

Lemma seat_count_le (p : nat) (s : Z) :
  nth_error (seats_per_party al) p = Some s ->
  (p < length votes)%nat /\ 0 <= s <= num_seats.
Proof.
  intros Es.
  rewrite (seats_count argsort votes num_seats first_divisor
             (sorts_permutes _ _ _ _ Hsorts) al Hal Hseats) in Es.
  rewrite nth_error_map, nth_error_seq in Es.
  destruct (Nat.ltb_spec p (length votes)); [|discriminate].
  cbn [option_map Nat.add] in Es. injection Es as <-. split; [assumption|].
  split; [apply uint32_range|].
  etransitivity; [apply uint32_le; lia|]. unfold positions_won.
  pose proof (count_occ_le_length (firstn (Z.to_nat num_seats) (party_dim al)) (Z.of_nat p)).
  rewrite length_firstn in *. lia.
Qed.

(** The party's own quotient and divisor at a subscript in range. *)
Lemma own_lookup (p : nat) (k : Z) :
  (p < length votes)%nat ->
  - (num_seats + max_extra_seats) <= k < num_seats + max_extra_seats ->
  exists own d,
    py_index2 (quotients al) (Z.of_nat p) k = Ok own /\
    py_index (divisors al) k = Ok d.
Proof.
  intros Hp Hk.
  pose proof (length_divisors argsort votes num_seats first_divisor al Hal Hseats) as Ld.
  unfold max_extra_seats in *.
  destruct (nth_error (quotients al) p) as [row|] eqn:Erow.
  2:{ apply nth_error_None in Erow.
      rewrite (length_quotients argsort votes num_seats first_divisor al Hal) in Erow. lia. }
  assert (Lrow : length row = length (divisors al)).
  { apply (length_rows argsort votes num_seats first_divisor al Hal).
    eapply nth_error_In; eauto. }
  destruct (py_index_in_range row k) as (own & Eown); [lia|].
  destruct (py_index_in_range (divisors al) k) as (d & Ed); [lia|].
  exists own, d. split; [|exact Ed].
  unfold py_index2. rewrite (py_index_of_nat _ _ _ Erow). exact Eown.
Qed.
(** The subscripts of a gain entry are in range when the walk has returned
    and the seat number aimed at has a divisor. *)
Lemma gain_entry_intro (p : nat) (wanted sto s : Z) :
  0 < wanted ->
  overtake_loop al num_seats (walk_fuel al num_seats) (Z.of_nat p) wanted 0 0 = Ok sto ->
  nth_error (seats_per_party al) p = Some s ->
  s + sto <= num_seats + max_extra_seats ->
  exists m, gain_entry al num_seats (Z.of_nat p) wanted = Ok m.
Proof.
  intros Hw Eloop Es Hk.
  destruct (overtake_loop_last al num_seats (Z.of_nat p) wanted _ _ _ _ Eloop Hw)
    as (Hsto & op & Eop).
  destruct (position_quotient _ _ Eop) as (od & q & Eod & Eq).
  destruct (seat_count_le p s Es) as (Hp & Hs).
  destruct (own_lookup p (s + sto - 1)) as (own & d & Eown & Ed);
    [exact Hp | unfold max_extra_seats in *; lia |].
  exists (fceil (fmul (fsub q own) d)).
  unfold gain_entry, gain_terms. rewrite Eloop. cbn [bind].
  rewrite Eop, Eod. cbn [bind]. rewrite Eq. cbn [bind].
  rewrite (py_index_of_nat _ _ _ Es). cbn [bind].
  rewrite Eown. cbn [bind]. rewrite Ed. reflexivity.
Qed.

Lemma loss_entry_intro (p : nat) (wanted sfb s : Z) :
  0 < wanted ->
  fall_behind_loop al num_seats (walk_fuel al num_seats) (Z.of_nat p) wanted 0 0 = Ok sfb ->
  nth_error (seats_per_party al) p = Some s ->
  sfb <= s + (num_seats + max_extra_seats) ->
  exists m, loss_entry al num_seats (Z.of_nat p) wanted = Ok m.
Proof.
  intros Hw Eloop Es Hk.
  destruct (fall_behind_loop_last al num_seats (Z.of_nat p) wanted _ _ _ _ Eloop Hw)
    as (Hsfb & op & Eop).
  destruct (position_quotient _ _ Eop) as (od & q & Eod & Eq).
  destruct (seat_count_le p s Es) as (Hp & Hs).
  destruct (own_lookup p (s - sfb)) as (own & d & Eown & Ed);
    [exact Hp | unfold max_extra_seats in *; lia |].
  exists (fceil (fmul (fsub own q) d)).
  unfold loss_entry, loss_terms. rewrite Eloop. cbn [bind].
  rewrite Eop, Eod. cbn [bind]. rewrite Eq. cbn [bind].
  rewrite (py_index_of_nat _ _ _ Es). cbn [bind].
  rewrite Eown. cbn [bind]. rewrite Ed. reflexivity.
Qed.
End Entries.

(** [X7]: A gain entry is computed exactly when the backward walk ends inside the
    ranking and the seat number it aims at,
    [seats_per_party[p] + seats_to_overtake], is at most
    [num_seats + max_extra_seats], the number of divisors; otherwise
    [IndexError] is raised. *)
Theorem gain_entry_returns {F : Type} `{Number F} (argsort : list F -> list nat)
    (votes : list Z) (num_seats : Z) (first_divisor : F) (al : allocation F)
    (p : nat) (extra_seats_wanted : Z) :
  sorts argsort votes num_seats first_divisor ->
  0 < num_seats ->
  allocate argsort votes num_seats first_divisor = Ok al ->
  0 < extra_seats_wanted ->
  ((exists m, gain_entry al num_seats (Z.of_nat p) extra_seats_wanted = Ok m) <->
   (exists seats_to_overtake s,
      overtake_loop al num_seats (walk_fuel al num_seats) (Z.of_nat p)
                    extra_seats_wanted 0 0 = Ok seats_to_overtake /\
      nth_error (seats_per_party al) p = Some s /\
      s + seats_to_overtake <= num_seats + max_extra_seats)) /\
  ((forall m, gain_entry al num_seats (Z.of_nat p) extra_seats_wanted <> Ok m) ->
   gain_entry al num_seats (Z.of_nat p) extra_seats_wanted = Raise IndexError).
Proof.
  intros Hsorts Hn Hal Hw.
  pose proof (length_divisors argsort votes num_seats first_divisor al Hal Hn) as Ld.
  split; [split|].
  - intros (m & E). unfold gain_entry in E. bind_inv E. unfold gain_terms in E0.
    do 7 bind_inv E0.
    exists x0, x4. split; [reflexivity|]. split.
    + apply py_index_Ok_iff in E5. unfold wrap_index in E5.
      destruct (Z.ltb_spec (Z.of_nat p) 0); [lia|].
      now rewrite Nat2Z.id in E5.
    + apply py_index_bounds in E7. unfold max_extra_seats in *. lia.
  - intros (sto & s & Eloop & Es & Hk).
    exact (gain_entry_intro argsort votes num_seats first_divisor al Hsorts Hal Hn
             p extra_seats_wanted sto s Hw Eloop Es Hk).
  - intros Hnone.
    destruct (gain_entry al num_seats (Z.of_nat p) extra_seats_wanted) as [m|e] eqn:E.
    + now destruct (Hnone m).
    + f_equal.
      apply (index_error_only_gain_entry al num_seats ltac:(lia) (Z.of_nat p)
               extra_seats_wanted).
      exact E.
Qed.

Lemma gain_entry_returns_witness :
  exists al,
    allocate argsort64 [100; 90] 10 1.2%float = Ok al /\
    exists m, gain_entry al 10 0 5 = Ok m.
Proof.
  eexists.
  match goal with
  | |- allocate ?srt ?v ?n ?fd = Ok ?al /\ _ =>
      assert (E : allocate srt v n fd = Ok al) by (vm_compute; reflexivity);
      destruct (gain_entry_returns srt v n fd al 0 5) as ((_ & Hret) & _)
  end.
  - apply sortsb_sound. vm_compute. reflexivity.
  - lia.
  - exact E.
  - lia.
  - split; [exact E|]. apply Hret. exists 9, 5.
    split; [vm_compute; reflexivity|]. split; [reflexivity|]. unfold max_extra_seats. lia.
Defined.

(** [X8]: A loss entry is computed exactly when the forward walk ends inside the
    ranking and [seats_to_fall_behind] exceeds [seats_per_party[p]] by at
    most [num_seats + max_extra_seats], the number of divisors, so that the
    subscript [seats_per_party[p] - seats_to_fall_behind] still counts from
    the end of the array; otherwise [IndexError] is raised. *)
Theorem loss_entry_returns {F : Type} `{Number F} (argsort : list F -> list nat)
    (votes : list Z) (num_seats : Z) (first_divisor : F) (al : allocation F)
    (p : nat) (seats_lost_wanted : Z) :
  sorts argsort votes num_seats first_divisor ->
  0 < num_seats ->
  allocate argsort votes num_seats first_divisor = Ok al ->
  0 < seats_lost_wanted ->
  ((exists m, loss_entry al num_seats (Z.of_nat p) seats_lost_wanted = Ok m) <->
   (exists seats_to_fall_behind s,
      fall_behind_loop al num_seats (walk_fuel al num_seats) (Z.of_nat p)
                       seats_lost_wanted 0 0 = Ok seats_to_fall_behind /\
      nth_error (seats_per_party al) p = Some s /\
      seats_to_fall_behind <= s + (num_seats + max_extra_seats))) /\
  ((forall m, loss_entry al num_seats (Z.of_nat p) seats_lost_wanted <> Ok m) ->
   loss_entry al num_seats (Z.of_nat p) seats_lost_wanted = Raise IndexError).
Proof.
  intros Hsorts Hn Hal Hw.
  pose proof (length_divisors argsort votes num_seats first_divisor al Hal Hn) as Ld.
  split; [split|].
  - intros (m & E). unfold loss_entry in E. bind_inv E. unfold loss_terms in E0.
    do 7 bind_inv E0.
    exists x0, x4. split; [reflexivity|]. split.
    + apply py_index_Ok_iff in E5. unfold wrap_index in E5.
      destruct (Z.ltb_spec (Z.of_nat p) 0); [lia|].
      now rewrite Nat2Z.id in E5.
    + apply py_index_bounds in E7. unfold max_extra_seats in *. lia.
  - intros (sfb & s & Eloop & Es & Hk).
    exact (loss_entry_intro argsort votes num_seats first_divisor al Hsorts Hal Hn
             p seats_lost_wanted sfb s Hw Eloop Es Hk).
  - intros Hnone.
    destruct (loss_entry al num_seats (Z.of_nat p) seats_lost_wanted) as [m|e] eqn:E.
    + now destruct (Hnone m).
    + f_equal.
      apply (index_error_only_loss_entry al num_seats ltac:(lia) (Z.of_nat p)
               seats_lost_wanted).
      exact E.
Qed.

Lemma loss_entry_returns_witness :
  exists al,
    allocate argsort64 [100; 90] 10 1.2%float = Ok al /\
    exists m, loss_entry al 10 0 5 = Ok m.
Proof.
  eexists.
  match goal with
  | |- allocate ?srt ?v ?n ?fd = Ok ?al /\ _ =>
      assert (E : allocate srt v n fd = Ok al) by (vm_compute; reflexivity);
      destruct (loss_entry_returns srt v n fd al 0 5) as ((_ & Hret) & _)
  end.
  - apply sortsb_sound. vm_compute. reflexivity.
  - lia.
  - exact E.
  - lia.
  - split; [exact E|]. apply Hret. exists 11, 5.
    split; [vm_compute; reflexivity|]. split; [reflexivity|]. unfold max_extra_seats. lia.
Defined.

(** ** How far the walks go *)

Section WalkCounts.
Context {F : Type} `{Number F}.
Variable argsort : list F -> list nat.
Variable votes : list Z.
Variable num_seats : Z.
Variable first_divisor : F.
Variable al : allocation F.
Hypothesis Hsorts : sorts argsort votes num_seats first_divisor.
Hypothesis Hal : allocate argsort votes num_seats first_divisor = Ok al.
Hypothesis Hseats : 0 < num_seats.
Variable p : Z.

Local Abbreviation own := (fun c : Z * Z => (fst c =? p)%Z).
Local Abbreviation foreign := (fun c : Z * Z => negb (fst c =? p)%Z).

Lemma length_party_dim_ranking : length (party_dim al) = length (ranking al).
Proof.
  unfold ranking. rewrite length_combine.
  pose proof (sorts_permutes _ _ _ _ Hsorts) as Hperm.
  rewrite (length_party_dim argsort votes num_seats first_divisor Hperm al Hal).
  rewrite (length_divisor_dim argsort votes num_seats first_divisor Hperm al Hal).
  lia.
Qed.

(** A party has at most one position for each divisor. *)
Lemma own_in_ranking_le :
  (length (filter own (ranking al)) <= length (divisors al))%nat.
Proof.
  rewrite <- (length_map snd).
  transitivity (length (map Z.of_nat (seq 0 (length (divisors al)))));
    [|rewrite length_map, length_seq; lia].
  apply NoDup_incl_length.
  - apply NoDup_ranks_of.
    now apply (ranking_NoDup argsort votes num_seats first_divisor al).
  - intros r Hr. apply in_map_iff in Hr. destruct Hr as ([q r'] & Er & Hc).
    cbn in Er. subst r'. apply filter_In in Hc. destruct Hc as [Hc _].
    apply (ranking_In argsort votes num_seats first_divisor al Hsorts Hal Hseats) in Hc.
    apply in_map_iff. exists (Z.to_nat r). split; [lia | apply in_seq; lia].
Qed.

Lemma own_split :
  (length (filter own (awarded num_seats al))
   + length (filter own (skipn (Z.to_nat num_seats) (ranking al)))
   <= length (divisors al))%nat.
Proof.
  pose proof own_in_ranking_le as Hle.
  rewrite <- (firstn_skipn (Z.to_nat num_seats) (ranking al)) in Hle.
  rewrite filter_app, length_app in Hle. exact Hle.
Qed.


(** With a second party, there are foreign positions enough for either walk. *)
Lemma foreign_behind :
  (2 <= length votes)%nat ->
  (6 <= length (filter foreign (skipn (Z.to_nat num_seats) (ranking al))))%nat.
Proof.
  intros Hv.
  pose proof (filter_length own (skipn (Z.to_nat num_seats) (ranking al))) as Hsum.
  pose proof own_split as Hle.
  rewrite length_skipn in Hsum.
  rewrite (length_ranking argsort votes num_seats first_divisor al Hsorts Hal) in Hsum.
  rewrite (length_divisors argsort votes num_seats first_divisor al Hal Hseats) in *.
  unfold max_extra_seats in *. nia.
Qed.

(** The forward walk returns, and this bounds how far it goes. *)
Lemma fall_behind_returns (g : nat) :
  (2 <= length votes)%nat -> (1 <= g <= 6)%nat ->
  exists walked,
    fall_behind_loop al num_seats (walk_fuel al num_seats) p (Z.of_nat g) 0 0
    = Ok (Z.of_nat walked) /\
    (walked + length (filter own (awarded num_seats al)) <= g + length (divisors al))%nat.
Proof.
  intros Hv Hg.
  pose proof (foreign_behind Hv) as Hforeign.
  pose proof own_split as Hle.
  destruct (walk_exists p (skipn (Z.to_nat num_seats) (ranking al)) g) as (walked & c & Ew & Hw);
    [lia | lia |].
  exists walked. split; [|lia].
  pose proof (fall_behind_loop_walk al num_seats p (Z.of_nat g)
                (skipn (Z.to_nat num_seats) (ranking al)) (walk_fuel al num_seats)
                0 g walked c) as Eloop.
  rewrite Z.sub_diag in Eloop. apply Eloop; [|exact Ew|].
  - intros i x Hi. cbn [Nat.add]. rewrite nth_error_skipn in Hi.
    apply nth_error_combine in Hi. destruct Hi as [Hi _].
    apply py_index_nonneg; [lia|].
    replace (Z.to_nat (num_seats - 1 + (Z.of_nat i + 1))) with (Z.to_nat num_seats + i)%nat
      by lia.
    exact Hi.
  - unfold walk_fuel. rewrite length_skipn, length_party_dim_ranking. lia.
Qed.

(** The backward walk returns as well: past position 0 its subscripts are
    negative and it goes on from the far end of the ranking. *)
Lemma overtake_returns (g : nat) :
  (2 <= length votes)%nat -> (1 <= g <= 6)%nat ->
  exists walked,
    overtake_loop al num_seats (walk_fuel al num_seats) p (Z.of_nat g) 0 0
    = Ok (Z.of_nat walked).
Proof.
  intros Hv Hg.
  pose proof (length_awarded argsort votes num_seats first_divisor al Hsorts Hal Hseats) as La.
  pose proof (filter_length own (ranking al)) as Hsum.
  pose proof own_in_ranking_le as Hle.
  pose proof (length_ranking argsort votes num_seats first_divisor al Hsorts Hal) as Lr.
  pose proof (length_divisors argsort votes num_seats first_divisor al Hal Hseats) as Ld.
  destruct (walk_exists p (rev (awarded num_seats al) ++ rev (ranking al)) g)
    as (walked & c & Ew & _); [lia | |].
  { rewrite filter_app, length_app, !filter_rev, !length_rev.
    unfold max_extra_seats in *. nia. }
  exists walked.
  destruct (overtake_loop_walk al num_seats p (Z.of_nat g)
              (rev (awarded num_seats al) ++ rev (ranking al))
              (walk_fuel al num_seats) 0 g walked c) as (Eloop & _).
  - intros i x Hi. cbn [Nat.add].
    destruct (Nat.lt_ge_cases i (Z.to_nat num_seats)) as [Hin|Hout].
    + rewrite nth_error_app1 in Hi by (rewrite length_rev, La; exact Hin).
      apply (awarded_backward argsort votes num_seats first_divisor al Hsorts Hal Hseats);
        [lia | exact Hi].
    + rewrite nth_error_app2 in Hi by (rewrite length_rev, La; exact Hout).
      rewrite length_rev, La, nth_error_rev in Hi.
      destruct (Nat.ltb_spec (i - Z.to_nat num_seats) (length (ranking al)));
        [|discriminate].
      apply nth_error_combine in Hi. destruct Hi as [Hi _].
      apply py_index_Ok_iff. unfold wrap_index.
      destruct (Z.ltb_spec (num_seats - (Z.of_nat i + 1)) 0); [|lia].
      rewrite length_party_dim_ranking. split; [lia|].
      replace (Z.to_nat (num_seats - (Z.of_nat i + 1) + Z.of_nat (length (ranking al))))
        with (length (ranking al) - S (i - Z.to_nat num_seats))%nat by lia.
      exact Hi.
  - exact Ew.
  - unfold walk_fuel. rewrite length_app, !length_rev, La, length_party_dim_ranking. lia.
  - rewrite Z.sub_diag in Eloop. exact Eloop.
Qed.
End WalkCounts.

(** [X9]: With two or more parties neither [while] loop raises, whatever the
    votes: the forward walk finds its foreign positions before the ranking
    ends, and the backward walk, whose subscripts turn negative past
    position 0, finds them at the latest at the far end of the ranking. *)
Theorem walks_return {F : Type} `{Number F} (argsort : list F -> list nat)
    (votes : list Z) (num_seats : Z) (first_divisor : F) (al : allocation F)
    (p wanted : Z) :
  sorts argsort votes num_seats first_divisor ->
  0 < num_seats ->
  allocate argsort votes num_seats first_divisor = Ok al ->
  (2 <= length votes)%nat ->
  0 < wanted < max_extra_seats ->
  (exists seats_to_overtake,
     overtake_loop al num_seats (walk_fuel al num_seats) p wanted 0 0
     = Ok seats_to_overtake /\
     0 < seats_to_overtake) /\
  (exists seats_to_fall_behind,
     fall_behind_loop al num_seats (walk_fuel al num_seats) p wanted 0 0
     = Ok seats_to_fall_behind /\
     0 < seats_to_fall_behind /\
     num_seats - 1 + seats_to_fall_behind < Z.of_nat (length (party_dim al))).
Proof.
  intros Hsorts Hn Hal Hv Hw. unfold max_extra_seats in Hw.
  rewrite <- (Z2Nat.id wanted) by lia. split.
  - destruct (overtake_returns argsort votes num_seats first_divisor al Hsorts Hal Hn p
                (Z.to_nat wanted) Hv) as (walked & Eloop); [lia|].
    exists (Z.of_nat walked). split; [exact Eloop|].
    destruct (overtake_loop_last al num_seats p _ _ _ _ _ Eloop); lia.
  - destruct (fall_behind_returns argsort votes num_seats first_divisor al Hsorts Hal Hn p
                (Z.to_nat wanted) Hv) as (walked & Eloop & _); [lia|].
    exists (Z.of_nat walked). split; [exact Eloop|].
    destruct (fall_behind_loop_last al num_seats p _ _ _ _ _ Eloop) as (Hpos & q & Eq);
      [lia|].
    apply py_index_bounds in Eq. lia.
Qed.

Lemma walks_return_witness :
  exists al seats_to_overtake seats_to_fall_behind,
    allocate argsort64 [1000; 1] 10 1.2%float = Ok al /\
    overtake_loop al 10 (walk_fuel al 10) 0 1 0 0 = Ok seats_to_overtake /\
    fall_behind_loop al 10 (walk_fuel al 10) 0 1 0 0 = Ok seats_to_fall_behind.
Proof.
  eexists.
  match goal with
  | |- exists _ _, allocate ?srt ?v ?n ?fd = Ok ?al /\ _ =>
      assert (E : allocate srt v n fd = Ok al) by (vm_compute; reflexivity);
      destruct (walks_return srt v n fd al 0 1)
        as ((sto & Esto & _) & (sfb & Esfb & _))
  end.
  - apply sortsb_sound. vm_compute. reflexivity.
  - lia.
  - exact E.
  - cbn [length]. lia.
  - unfold max_extra_seats. lia.
  - exists sto, sfb. split; [exact E|]. split; [exact Esto | exact Esfb].
Defined.

(** [X10]: An election with a single party cannot be evaluated: the party is
    counted for every seat and the seat table is printed, but the backward
    walk of the first gain entry meets no position of another party, runs
    off the ranking and raises [IndexError]; nothing is drawn. *)
Theorem single_party_election {F : Type} `{Number F} (argsort : list F -> list nat)
    (v : Z) (name color : string) (num_seats : Z) (first_divisor : F) :
  permutes argsort [v] num_seats first_divisor ->
  0 < num_seats ->
  exists share_of_seats share_of_votes last,
    calc_saint_lague_method argsort [v] [name] [color] num_seats first_divisor
    = ([PrintSeats [(name, uint32 num_seats, share_of_seats, share_of_votes, last)]],
       Raise IndexError).
Proof.
  intros Hperm Hn.
  destruct (single_party_seats argsort v num_seats first_divisor Hperm Hn) as (al & Hal & Es).
  destruct (own_lookup argsort [v] num_seats first_divisor al Hal Hn 0 (uint32 num_seats - 1))
    as (last & _ & Elast & _).
  { cbn [length]. lia. }
  { pose proof (uint32_range num_seats). pose proof (uint32_le num_seats ltac:(lia)).
    unfold max_extra_seats. lia. }
  assert (Erows : seat_rows [v] [name] num_seats al
                  = Ok [(name, uint32 num_seats,
                         fmul (fdiv (of_int (uint32 num_seats)) (of_int num_seats))
                              (of_int 100),
                         fmul (fdiv (of_int v) (of_int (fold_right Z.add 0 [v])))
                              (of_int 100),
                         last)]).
  { unfold seat_rows. rewrite Es. cbn [length].
    change (range (Z.of_nat 1)) with [0]. cbn [mapM].
    change (py_index [name] 0) with (Ok name).
    change (py_index [uint32 num_seats] 0) with (Ok (uint32 num_seats)).
    change (py_index [v] 0) with (Ok v). cbn [bind].
    change 0 with (Z.of_nat 0) at 1. rewrite Elast. reflexivity. }
  assert (Eloop : overtake_loop al num_seats (walk_fuel al num_seats) 0 1 0 0
                  = Raise IndexError).
  { destruct (overtake_loop_own al num_seats 0 1 (walk_fuel al num_seats) 0 0)
      as (e & Ee); [|lia|].
    - intros q Hq.
      pose proof (party_dim_range argsort [v] num_seats first_divisor Hperm al q Hal Hq)
        as Hrange.
      cbn [length] in Hrange. lia.
    - rewrite Ee. f_equal.
      apply (index_error_only_overtake_loop al num_seats ltac:(lia) 0 1 e Ee). }
  assert (Egain : votes_needed_table (gain_entry al num_seats) 1 = Raise IndexError).
  { unfold votes_needed_table. change (range (Z.of_nat 1)) with [0].
    change (range2 1 max_extra_seats) with [1; 2; 3; 4; 5]. cbn [mapM].
    unfold gain_entry at 1, gain_terms. rewrite Eloop. reflexivity. }
  do 3 eexists. unfold calc_saint_lague_method. cbn [length Nat.eqb negb].
  destruct (Z.ltb_spec 0 num_seats); [|lia]. cbn [negb].
  rewrite Hal, Erows, Egain. reflexivity.
Qed.

Lemma single_party_election_witness :
  exists rows,
    calc_saint_lague_method argsort64 [7] ["A"%string] ["#FF0000"%string] 3 1.2%float
    = ([PrintSeats rows], Raise IndexError).
Proof.
  destruct (single_party_election argsort64 7 "A"%string "#FF0000"%string 3 1.2%float)
    as (a & b & c & E).
  - apply argsort64_permutes.
  - lia.
  - eexists. exact E.
Defined.

(** ** A sufficient condition for the call to return *)

Lemma In_range2 (lo hi i : Z) : In i (range2 lo hi) <-> lo <= i < hi.
Proof.
  unfold range2. rewrite in_map_iff. split.
  - intros (k & <- & Hk). apply In_range in Hk. lia.
  - intros Hi. exists (i - lo). split; [lia | apply In_range; lia].
Qed.


Lemma seat_rows_returns {F : Type} `{Number F} (argsort : list F -> list nat)
    (votes : list Z) (party_names : list string) (num_seats : Z) (first_divisor : F)
    (al : allocation F) :
  sorts argsort votes num_seats first_divisor ->
  0 < num_seats ->
  allocate argsort votes num_seats first_divisor = Ok al ->
  length votes = length party_names ->
  exists rows, seat_rows votes party_names num_seats al = Ok rows.
Proof.
  intros Hsorts Hn Hal Hnames. unfold seat_rows. apply mapM_total. intros i Hi.
  apply In_range in Hi.
  assert (Hp : (Z.to_nat i < length votes)%nat) by lia.
  destruct (nth_error party_names (Z.to_nat i)) as [name|] eqn:Ename;
    [|apply nth_error_None in Ename; lia].
  destruct (nth_error votes (Z.to_nat i)) as [v|] eqn:Ev;
    [|apply nth_error_None in Ev; lia].
  pose proof (seats_ranks_won argsort votes num_seats first_divisor al Hsorts Hal Hn _ Hp)
    as Es.
  destruct (seat_count_le argsort votes num_seats first_divisor al Hsorts Hal Hn _ _ Es)
    as (_ & Hs).
  destruct (own_lookup argsort votes num_seats first_divisor al Hal Hn (Z.to_nat i)
              (uint32 (Z.of_nat (length (ranks_won num_seats al (Z.to_nat i)))) - 1) Hp)
    as (last & _ & Elast & _); [unfold max_extra_seats; lia|].
  rewrite Z2Nat.id in Elast by lia.
  rewrite (py_index_nonneg _ _ _ (proj1 Hi) Ename). cbn [bind].
  rewrite (py_index_nonneg _ _ _ (proj1 Hi) Es). cbn [bind].
  rewrite (py_index_nonneg _ _ _ (proj1 Hi) Ev). cbn [bind].
  rewrite Elast. cbn [bind]. eauto.
Qed.



(** * The sign of the margins *)

Section MarginOrder.
Context {F : Type} `{Number F}.
Variable argsort : list F -> list nat.
Variable votes : list Z.
Variable num_seats : Z.
Variable first_divisor : F.
Variable al : allocation F.
Hypothesis Hsorts : sorts argsort votes num_seats first_divisor.
Hypothesis Hal : allocate argsort votes num_seats first_divisor = Ok al.
Hypothesis Hseats : 0 < num_seats < 2 ^ 32.
Variable p : nat.
Variable row : list F.
Hypothesis Hrow : nth_error (quotients al) p = Some row.
Hypothesis Hdec : strictly_decreasing row = true.

(** A position that can be read with a subscript that is not negative. *)
Lemma position_coordinate (i op od : Z) :
  0 <= i ->
  py_index (party_dim al) i = Ok op -> py_index (divisor_dim al) i = Ok od ->
  nth_error (ranking al) (Z.to_nat i) = Some (op, od).
Proof.
  intros Hi Eop Eod. apply py_index_Ok_iff in Eop, Eod. unfold wrap_index in *.
  destruct (Z.ltb_spec i 0); [lia|].
  unfold ranking. apply nth_error_combine_intro; [apply Eop | apply Eod].
Qed.

(** With strictly decreasing quotients the party holds exactly the ranks
    below its seat count. *)
Lemma own_rank_awarded (s k : Z) :
  nth_error (seats_per_party al) p = Some s ->
  (In (Z.of_nat p, k) (awarded num_seats al) <-> 0 <= k < s).
Proof.
  intros Es.
  assert (Hp : (p < length votes)%nat).
  { apply nth_error_lt in Hrow.
    now rewrite (length_quotients argsort votes num_seats first_divisor al Hal) in Hrow. }
  rewrite (seats_ranks_won argsort votes num_seats first_divisor al Hsorts Hal
             (proj1 Hseats) p Hp) in Es.
  pose proof (length_ranks_won_le argsort votes num_seats first_divisor al Hsorts Hal
                (proj1 Hseats) p) as Hle.
  rewrite uint32_small in Es by lia. injection Es as <-.
  apply (ranks_won_contiguous argsort votes num_seats first_divisor al Hsorts Hal
           (proj1 Hseats) p row Hrow Hdec).
Qed.

(** An awarded quotient is not below one that is not awarded. *)
Lemma awarded_not_below (c c' : Z * Z) (x y : F) :
  In c (awarded num_seats al) -> In c' (ranking al) -> ~ In c' (awarded num_seats al) ->
  quotient_at al c = Ok x -> quotient_at al c' = Ok y -> npy_lt x y = false.
Proof.
  intros Hc Hc' Hnot Ex Ey. unfold awarded in *.
  rewrite <- (firstn_skipn (Z.to_nat num_seats) (ranking al)) in Hc'.
  apply in_app_or in Hc'. destruct Hc' as [Hc'|Hc']; [contradiction|].
  pose proof (ranking_sorted argsort votes num_seats first_divisor al Hsorts Hal
                (proj1 Hseats)) as Hs.
  rewrite <- (firstn_skipn (Z.to_nat num_seats) (ranking al)) in Hs.
  apply StronglySorted_app_inv in Hs. destruct Hs as (_ & _ & Hs).
  exact (Hs _ _ Hc Hc' x y Ex Ey).
Qed.

(** The own coordinate read by an entry lies in the ranking. *)
Lemma own_coordinate (k : Z) (x : F) :
  0 <= k -> py_index2 (quotients al) (Z.of_nat p) k = Ok x ->
  In (Z.of_nat p, k) (ranking al).
Proof.
  intros Hk Ex. unfold py_index2 in Ex.
  rewrite (py_index_of_nat _ _ _ Hrow) in Ex. cbn [bind] in Ex.
  apply py_index_bounds in Ex.
  rewrite (length_rows argsort votes num_seats first_divisor al Hal row) in Ex
    by (eapply nth_error_In; eauto).
  apply (ranking_In argsort votes num_seats first_divisor al Hsorts Hal (proj1 Hseats)).
  apply nth_error_lt in Hrow.
  rewrite (length_quotients argsort votes num_seats first_divisor al Hal) in Hrow. lia.
Qed.

(** Gain side: while the backward walk stays among the awarded positions,
    the quotient to overtake is not below the own quotient it is compared
    with. *)
Lemma gain_terms_order (g sto op od s : Z) (q own : F) :
  0 < g ->
  overtake_loop al num_seats (walk_fuel al num_seats) (Z.of_nat p) g 0 0 = Ok sto ->
  sto <= num_seats ->
  py_index (party_dim al) (num_seats - sto) = Ok op ->
  py_index (divisor_dim al) (num_seats - sto) = Ok od ->
  py_index2 (quotients al) op od = Ok q ->
  nth_error (seats_per_party al) p = Some s ->
  py_index2 (quotients al) (Z.of_nat p) (s + sto - 1) = Ok own ->
  npy_lt q own = false.
Proof.
  intros Hg Eloop Hin Eop Eod Eq Es Eown.
  destruct (overtake_loop_last al num_seats (Z.of_nat p) g _ _ _ _ Eloop Hg) as (Hsto & _).
  destruct (seat_count_le argsort votes num_seats first_divisor al Hsorts Hal
              (proj1 Hseats) p s Es) as (_ & Hs).
  apply (awarded_not_below (op, od) (Z.of_nat p, s + sto - 1)).
  - unfold awarded.
    apply (nth_error_In _ (Z.to_nat (num_seats - sto))).
    rewrite nth_error_firstn.
    destruct (Nat.ltb_spec (Z.to_nat (num_seats - sto)) (Z.to_nat num_seats)); [|lia].
    apply position_coordinate; [lia | assumption | assumption].
  - apply (own_coordinate _ own); [lia | exact Eown].
  - rewrite (own_rank_awarded s _ Es). lia.
  - exact Eq.
  - exact Eown.
Qed.

(** Loss side: while the forward walk passes no more positions than the
    party holds seats, the own quotient is not below the quotient to lose
    against. *)
Lemma loss_terms_order (g sfb op od s : Z) (q own : F) :
  0 < g ->
  fall_behind_loop al num_seats (walk_fuel al num_seats) (Z.of_nat p) g 0 0 = Ok sfb ->
  sfb <= s ->
  py_index (party_dim al) (num_seats - 1 + sfb) = Ok op ->
  py_index (divisor_dim al) (num_seats - 1 + sfb) = Ok od ->
  py_index2 (quotients al) op od = Ok q ->
  nth_error (seats_per_party al) p = Some s ->
  py_index2 (quotients al) (Z.of_nat p) (s - sfb) = Ok own ->
  npy_lt own q = false.
Proof.
  intros Hg Eloop Hin Eop Eod Eq Es Eown.
  destruct (fall_behind_loop_last al num_seats (Z.of_nat p) g _ _ _ _ Eloop Hg)
    as (Hsfb & _).
  assert (Hidx : 0 <= num_seats - 1 + sfb) by lia.
  pose proof (position_coordinate _ _ _ Hidx Eop Eod) as Hpos.
  apply (awarded_not_below (Z.of_nat p, s - sfb) (op, od)).
  - rewrite (own_rank_awarded s _ Es). lia.
  - eapply nth_error_In; eauto.
  - intros Hc. unfold awarded in Hc.
    pose proof (ranking_NoDup argsort votes num_seats first_divisor al Hsorts Hal
                  (proj1 Hseats)) as Hnd.
    apply In_nth_error in Hc. destruct Hc as (i & Hi).
    rewrite nth_error_firstn in Hi.
    destruct (Nat.ltb_spec i (Z.to_nat num_seats)); [|discriminate].
    rewrite NoDup_nth_error in Hnd.
    assert (Heq : i = Z.to_nat (num_seats - 1 + sfb)).
    { apply Hnd; [eapply nth_error_lt; eauto | congruence]. }
    lia.
  - exact Eown.
  - exact Eq.
Qed.
End MarginOrder.

Lemma npy_lt_exact_false (x y : Q) : npy_lt x y = false -> (y <= x)%Q.
Proof.
  unfold npy_lt. cbn [flt fis_nan exact]. rewrite andb_false_l, orb_false_r.
  intros E. apply negb_false_iff in E. now apply Qle_bool_iff.
Qed.

Lemma ceiling_product_nonneg (diff d : Q) :
  (0 <= diff)%Q -> (0 < d)%Q -> (0 <= fceil (fmul diff d))%Q.
Proof.
  intros Hdiff Hd. cbn [fceil fmul exact].
  change 0%Q with (inject_Z 0). rewrite <- Zle_Qle.
  change 0 with (Qceiling 0). apply Qceiling_resp_le.
  apply Qmult_le_0_compat; [exact Hdiff | now apply Qlt_le_weak].
Qed.

(** [X12]: In exact arithmetic, with a first divisor between 0 and 3 and for a
    party with votes: a gain entry is never negative as long as the backward
    walk stays among the awarded positions. *)
Theorem gain_entry_nonnegative (argsort : list Q -> list nat) (votes : list Z)
    (num_seats : Z) (first_divisor : Q) (al : allocation Q) (p : nat) (v : Z)
    (extra_seats_wanted seats_to_overtake : Z) (m : Q) :
  sorts argsort votes num_seats first_divisor ->
  0 < num_seats < 2 ^ 32 ->
  (0 < first_divisor)%Q -> (first_divisor < 3)%Q ->
  allocate argsort votes num_seats first_divisor = Ok al ->
  nth_error votes p = Some v -> 0 < v ->
  0 < extra_seats_wanted ->
  overtake_loop al num_seats (walk_fuel al num_seats) (Z.of_nat p) extra_seats_wanted 0 0
  = Ok seats_to_overtake ->
  seats_to_overtake <= num_seats ->
  gain_entry al num_seats (Z.of_nat p) extra_seats_wanted = Ok m ->
  (0 <= m)%Q.
Proof.
  intros Hsorts Hn Hfd Hfd3 Hal Ev Hv Hg Eloop Hin E.
  pose proof (nth_error_quotients argsort votes num_seats first_divisor al p v Hal Ev) as Hrow.
  assert (Hdec : strictly_decreasing (map (fun d => fdiv (of_int v) d) (divisors al)) = true).
  { destruct (allocate_inv argsort votes num_seats first_divisor al Hal) as (Eds & _).
    apply (positive_votes_decreasing num_seats first_divisor); (lia || assumption). }
  unfold gain_entry in E. bind_inv E. injection E as <-.
  unfold gain_terms in E0. rewrite Eloop in E0. cbn [bind] in E0. do 6 bind_inv E0.
  injection E0 as <-. cbn [fst snd].
  apply ceiling_product_nonneg.
  - assert (Es : nth_error (seats_per_party al) p = Some x3).
    { apply py_index_Ok_iff in E3. unfold wrap_index in E3.
      destruct (Z.ltb_spec (Z.of_nat p) 0); [lia|]. now rewrite Nat2Z.id in E3. }
    pose proof (gain_terms_order argsort votes num_seats first_divisor al Hsorts Hal Hn
                  p _ Hrow Hdec extra_seats_wanted seats_to_overtake _ _ _ _ _
                  Hg Eloop Hin E E1 E2 Es E4) as Hord.
    apply npy_lt_exact_false in Hord. cbn [fsub exact].
    unfold Qminus. rewrite <- (Qplus_opp_r x4). apply Qplus_le_l. exact Hord.
  - apply (divisors_positive argsort votes num_seats first_divisor al _ Hal (proj1 Hn) Hfd).
    eapply py_index_In; eauto.
Qed.

Lemma gain_entry_nonnegative_witness :
  exists al m,
    allocate argsortQ [100; 90] 10 (12 # 10) = Ok al /\
    gain_entry al 10 0 2 = Ok m /\
    (0 <= m)%Q.
Proof.
  do 2 eexists. split; [vm_compute; reflexivity|]. split; [vm_compute; reflexivity|].
  eapply (gain_entry_nonnegative argsortQ [100; 90] 10 (12 # 10) _ 0%nat 100 2 3).
  - apply sortsb_sound. vm_compute. reflexivity.
  - lia.
  - reflexivity.
  - reflexivity.
  - vm_compute. reflexivity.
  - reflexivity.
  - lia.
  - lia.
  - vm_compute. reflexivity.
  - lia.
  - vm_compute. reflexivity.
Defined.

(** [X13]: In exact arithmetic, with a first divisor between 0 and 3 and for a
    party with votes: a loss entry is never negative as long as the forward
    walk passes no more positions than the party holds seats. *)
Theorem loss_entry_nonnegative (argsort : list Q -> list nat) (votes : list Z)
    (num_seats : Z) (first_divisor : Q) (al : allocation Q) (p : nat) (v s : Z)
    (seats_lost_wanted seats_to_fall_behind : Z) (m : Q) :
  sorts argsort votes num_seats first_divisor ->
  0 < num_seats < 2 ^ 32 ->
  (0 < first_divisor)%Q -> (first_divisor < 3)%Q ->
  allocate argsort votes num_seats first_divisor = Ok al ->
  nth_error votes p = Some v -> 0 < v ->
  0 < seats_lost_wanted ->
  fall_behind_loop al num_seats (walk_fuel al num_seats) (Z.of_nat p) seats_lost_wanted 0 0
  = Ok seats_to_fall_behind ->
  nth_error (seats_per_party al) p = Some s ->
  seats_to_fall_behind <= s ->
  loss_entry al num_seats (Z.of_nat p) seats_lost_wanted = Ok m ->
  (0 <= m)%Q.
Proof.
  intros Hsorts Hn Hfd Hfd3 Hal Ev Hv Hg Eloop Es Hin E.
  pose proof (nth_error_quotients argsort votes num_seats first_divisor al p v Hal Ev) as Hrow.
  assert (Hdec : strictly_decreasing (map (fun d => fdiv (of_int v) d) (divisors al)) = true).
  { destruct (allocate_inv argsort votes num_seats first_divisor al Hal) as (Eds & _).
    apply (positive_votes_decreasing num_seats first_divisor); (lia || assumption). }
  unfold loss_entry in E. bind_inv E. injection E as <-.
  unfold loss_terms in E0. rewrite Eloop in E0. cbn [bind] in E0. do 3 bind_inv E0.
  rewrite (py_index_of_nat _ _ _ Es) in E0. cbn [bind] in E0. do 2 bind_inv E0.
  injection E0 as <-. cbn [fst snd].
  apply ceiling_product_nonneg.
  - pose proof (loss_terms_order argsort votes num_seats first_divisor al Hsorts Hal Hn
                  p _ Hrow Hdec seats_lost_wanted seats_to_fall_behind _ _ _ _ _
                  Hg Eloop Hin E E1 E2 Es E3) as Hord.
    apply npy_lt_exact_false in Hord. cbn [fsub exact].
    unfold Qminus. rewrite <- (Qplus_opp_r x2). apply Qplus_le_l. exact Hord.
  - apply (divisors_positive argsort votes num_seats first_divisor al _ Hal (proj1 Hn) Hfd).
    eapply py_index_In; eauto.
Qed.

Lemma loss_entry_nonnegative_witness :
  exists al m,
    allocate argsortQ [100; 90] 10 (12 # 10) = Ok al /\
    loss_entry al 10 0 1 = Ok m /\
    (0 <= m)%Q.
Proof.
  do 2 eexists. split; [vm_compute; reflexivity|]. split; [vm_compute; reflexivity|].
  eapply (loss_entry_nonnegative argsortQ [100; 90] 10 (12 # 10) _ 0%nat 100 5 1 2).
  - apply sortsb_sound. vm_compute. reflexivity.
  - lia.
  - reflexivity.
  - reflexivity.
  - vm_compute. reflexivity.
  - reflexivity.
  - lia.
  - lia.
  - vm_compute. reflexivity.
  - reflexivity.
  - lia.
  - vm_compute. reflexivity.
Defined.

(** * What a seat count counts *)

(** [X14]: There is one seat count per party.  For fewer than [2^32] seats the
    count of a party is the number of divisor ranks at which one of the
    first [num_seats] positions of the ranking is its own; these ranks are
    pairwise different and the count lies between 0 and [num_seats]. *)
Theorem seats_are_awarded_ranks {F : Type} `{Number F} (argsort : list F -> list nat)
    (votes : list Z) (num_seats : Z) (first_divisor : F) (al : allocation F) :
  sorts argsort votes num_seats first_divisor ->
  0 < num_seats < 2 ^ 32 ->
  allocate argsort votes num_seats first_divisor = Ok al ->
  length (seats_per_party al) = length votes /\
  forall (p : nat) (s : Z),
    nth_error (seats_per_party al) p = Some s ->
    s = Z.of_nat (length (ranks_won num_seats al p)) /\
    NoDup (ranks_won num_seats al p) /\
    0 <= s <= num_seats.
Proof.
  intros Hsorts [Hn Hn32] Hal. split.
  - rewrite (seats_count argsort votes num_seats first_divisor
               (sorts_permutes _ _ _ _ Hsorts) al Hal Hn).
    now rewrite length_map, length_seq.
  - intros p s Es.
    destruct (seat_count_le argsort votes num_seats first_divisor al Hsorts Hal Hn p s Es)
      as (Hp & Hs).
    rewrite (seats_ranks_won argsort votes num_seats first_divisor al Hsorts Hal Hn p Hp)
      in Es.
    pose proof (length_ranks_won_le argsort votes num_seats first_divisor al Hsorts Hal Hn p)
      as Hle.
    rewrite uint32_small in Es by lia. injection Es as <-.
    split; [reflexivity|]. split; [|lia].
    apply (NoDup_ranks_won argsort votes num_seats first_divisor al Hsorts Hal Hn).
Qed.

Lemma seats_are_awarded_ranks_witness :
  exists al,
    allocate argsort64 [100; 80; 30] 4 1.4%float = Ok al /\
    length (seats_per_party al) = 3%nat.
Proof.
  eexists.
  match goal with
  | |- allocate ?srt ?v ?n ?fd = Ok ?al /\ _ =>
      assert (E : allocate srt v n fd = Ok al) by (vm_compute; reflexivity);
      destruct (seats_are_awarded_ranks srt v n fd al) as (Hlen & _)
  end.
  - apply sortsb_sound. vm_compute. reflexivity.
  - lia.
  - exact E.
  - split; [exact E | exact Hlen].
Defined.

(** * The election of 2018 *)

(** The first two columns of the seat table are the names of the parties and
    their seat counts. *)
Lemma seat_rows_columns {F : Type} `{Number F} (argsort : list F -> list nat)
    (votes : list Z) (party_names : list string) (num_seats : Z) (first_divisor : F)
    (al : allocation F) :
  permutes argsort votes num_seats first_divisor ->
  0 < num_seats ->
  length votes = length party_names ->
  allocate argsort votes num_seats first_divisor = Ok al ->
  exists rows,
    seat_rows votes party_names num_seats al = Ok rows /\
    map (fun r : string * Z * F * F * F => fst (fst (fst (fst r)))) rows = party_names /\
    map (fun r : string * Z * F * F * F => snd (fst (fst (fst r)))) rows
    = seats_per_party al.
Proof.
  intros Hperm Hn Hnames Hal.
  pose proof (fun p => seat_row_lookup argsort votes party_names num_seats first_divisor
                         al p Hperm Hn Hnames Hal) as Hrow.
  assert (Hex : exists rows, seat_rows votes party_names num_seats al = Ok rows).
  { unfold seat_rows. apply mapM_total. intros i Hi. apply In_range in Hi.
    destruct (Hrow (Z.to_nat i)) as (name & s & v & row & last & E1 & E2 & E3 & _ & _ & E6);
      [lia|].
    rewrite Z2Nat.id in E6 by lia.
    rewrite (py_index_nonneg _ _ _ (proj1 Hi) E1). cbn [bind].
    rewrite (py_index_nonneg _ _ _ (proj1 Hi) E2). cbn [bind].
    rewrite (py_index_nonneg _ _ _ (proj1 Hi) E3). cbn [bind].
    rewrite E6. cbn [bind]. eauto. }
  destruct Hex as (rows & Erows). exists rows. split; [exact Erows|].
  unfold seat_rows in Erows.
  assert (Lrows : length rows = length votes).
  { rewrite (length_mapM _ _ _ Erows), length_range. lia. }
  assert (Lseats : length (seats_per_party al) = length votes).
  { rewrite (seats_count argsort votes num_seats first_divisor Hperm al Hal Hn).
    now rewrite length_map, length_seq. }
  assert (Hnth : forall p, (p < length votes)%nat ->
            exists name s a b c,
              nth_error rows p = Some (name, s, a, b, c) /\
              nth_error party_names p = Some name /\
              nth_error (seats_per_party al) p = Some s).
  { intros p Hp.
    destruct (Hrow p Hp) as (name & s & v & row & last & E1 & E2 & E3 & _ & _ & E6).
    destruct (mapM_nth _ _ _ p (Z.of_nat p) Erows) as (r & Er & Ef);
      [apply nth_error_range; lia|].
    rewrite (py_index_of_nat _ _ _ E1) in Ef. cbn [bind] in Ef.
    rewrite (py_index_of_nat _ _ _ E2) in Ef. cbn [bind] in Ef.
    rewrite (py_index_of_nat _ _ _ E3) in Ef. cbn [bind] in Ef.
    rewrite E6 in Ef. cbn [bind] in Ef. injection Ef as <-.
    do 5 eexists. split; [exact Er|]. split; assumption. }
  split; apply nth_error_ext; intros p; rewrite nth_error_map;
    destruct (Nat.lt_ge_cases p (length votes)) as [Hp|Hp].
  - destruct (Hnth p Hp) as (name & s & a & b & c & Er & En & _).
    rewrite Er, En. reflexivity.
  - rewrite (proj2 (nth_error_None rows p)) by lia.
    symmetry. apply nth_error_None. lia.
  - destruct (Hnth p Hp) as (name & s & a & b & c & Er & _ & Es).
    rewrite Er, Es. reflexivity.
  - rewrite (proj2 (nth_error_None rows p)) by lia.
    symmetry. apply nth_error_None. lia.
Qed.

Lemma sum_seats_per_party {F : Type} `{Number F} (argsort : list F -> list nat)
    (votes : list Z) (num_seats : Z) (first_divisor : F) (al : allocation F) :
  permutes argsort votes num_seats first_divisor ->
  0 < num_seats < 2 ^ 32 ->
  allocate argsort votes num_seats first_divisor = Ok al ->
  sumZ (seats_per_party al) = num_seats.
Proof.
  intros Hperm Hn Hal.
  rewrite (seats_count argsort votes num_seats first_divisor Hperm al Hal) by lia.
  etransitivity;
    [|apply (sum_positions_won argsort votes num_seats first_divisor Hperm al Hal); lia].
  f_equal. apply map_ext. intros p. apply uint32_small.
  split; [lia|]. unfold positions_won.
  pose proof (count_occ_le_length (firstn (Z.to_nat num_seats) (party_dim al)) (Z.of_nat p)).
  rewrite length_firstn in *. lia.
Qed.

Lemma index_error_only_votes_needed_table {F : Type} (entry : Z -> Z -> result F)
    (num_parties : nat) :
  (forall p g, index_error_only (entry p g)) ->
  index_error_only (votes_needed_table entry num_parties).
Proof.
  intros Hentry. unfold votes_needed_table.
  apply index_error_only_mapM. intros p. apply index_error_only_mapM. apply Hentry.
Qed.

(** [X15]: [calc_2018_election] hands valid arguments to
    [calc_saint_lague_method]: whatever permutation the sort returns, no
    assertion fails, the allocation is computed, and the seat table is
    printed with the eight parties in the order of the call and seat counts
    that add up to 349.  After that the call returns or raises
    [IndexError]. *)
Theorem election_2018_seat_table {F : Type} `{Number F} (argsort : list F -> list nat)
    (first_divisor : F) :
  permutes argsort [1284698; 557500; 355546; 409478; 1830386; 518454; 285899; 1135627]
           349 first_divisor ->
  exists rows rest,
    fst (calc_2018_election argsort first_divisor) = PrintSeats rows :: rest /\
    map (fun r : string * Z * F * F * F => fst (fst (fst (fst r)))) rows
    = ["M"; "C"; "L"; "KD"; "S"; "V"; "MP"; "SD"]%string /\
    sumZ (map (fun r : string * Z * F * F * F => snd (fst (fst (fst r)))) rows) = 349 /\
    (snd (calc_2018_election argsort first_divisor) = Ok tt \/
     snd (calc_2018_election argsort first_divisor) = Raise IndexError).
Proof.
  intros Hperm.
  destruct (allocate_total argsort _ 349 first_divisor Hperm) as (al & Hal);
    [discriminate | lia |].
  destruct (seat_rows_columns argsort _ ["M"; "C"; "L"; "KD"; "S"; "V"; "MP"; "SD"]%string
              349 first_divisor al Hperm ltac:(lia) eq_refl Hal)
    as (rows & Erows & Hnames & Hseats).
  pose proof (sum_seats_per_party argsort _ 349 first_divisor al Hperm ltac:(lia) Hal) as Hsum.
  exists rows. unfold calc_2018_election, calc_saint_lague_method.
  cbn [length Nat.eqb negb]. change (0 <? 349) with true. cbn [negb].
  rewrite Hal, Erows. rewrite Hseats, Hsum.
  destruct (votes_needed_table (gain_entry al 349) 8) as [gain|e] eqn:Egain.
  - destruct (votes_needed_table (loss_entry al 349) 8) as [loss|e] eqn:Eloss.
    + eexists. cbn [fst snd app]. repeat split; auto.
    + eexists. cbn [fst snd app]. repeat split; auto. right. f_equal.
      apply (index_error_only_votes_needed_table (loss_entry al 349) 8); [|exact Eloss].
      intros p g. apply index_error_only_loss_entry. lia.
  - eexists. cbn [fst snd]. repeat split; auto. right. f_equal.
    apply (index_error_only_votes_needed_table (gain_entry al 349) 8); [|exact Egain].
    intros p g. apply index_error_only_gain_entry. lia.
Qed.

Lemma election_2018_seat_table_witness :
  exists rows rest,
    fst (calc_2018_election argsort64 1.2%float) = PrintSeats rows :: rest /\
    sumZ (map (fun r : string * Z * float * float * float => snd (fst (fst (fst r)))) rows)
    = 349.
Proof.
  destruct (election_2018_seat_table argsort64 1.2%float (argsort64_permutes _ _ _))
    as (rows & rest & Etrace & _ & Hsum & _).
  exists rows, rest. split; [exact Etrace | exact Hsum].
Defined.

(** * A party that leaves too few seats to the others *)

Section BeyondTheAwarded.
Context {F : Type} `{Number F}.
Variable al : allocation F.
Variable num_seats : Z.
Variable p : Z.
Variable wanted : Z.

(** Where the positions handed to it hold fewer foreign ones than are still
    wanted, the gain loop reads past them. *)
Lemma overtake_loop_beyond (positions : list (Z * Z)) :
  forall (fuel w g_left : nat) (sto : Z),
    (forall i x, nth_error positions i = Some x ->
                 py_index (party_dim al) (num_seats - (Z.of_nat (w + i) + 1)) = Ok (fst x)) ->
    (length (filter (fun c : Z * Z => negb (fst c =? p)%Z) positions) < g_left)%nat ->
    overtake_loop al num_seats fuel p wanted (Z.of_nat w) (wanted - Z.of_nat g_left) = Ok sto ->
    Z.of_nat (w + length positions) < sto.
Proof.
  induction positions as [|c0 rest IH]; intros fuel w g_left sto Hpos Hcount Eloop.
  - cbn [length filter] in *. rewrite Nat.add_0_r.
    destruct (overtake_loop_last al num_seats p wanted _ _ _ _ Eloop); lia.
  - destruct fuel as [|fuel]; cbn [overtake_loop] in Eloop;
      destruct (Z.ltb_spec (wanted - Z.of_nat g_left) wanted); try lia; [discriminate|].
    specialize (Hpos 0%nat c0 eq_refl) as Hc0. rewrite Nat.add_0_r in Hc0.
    rewrite Hc0 in Eloop. cbn [bind] in Eloop.
    assert (Hrest : forall i x, nth_error rest i = Some x ->
              py_index (party_dim al) (num_seats - (Z.of_nat (S w + i) + 1)) = Ok (fst x)).
    { intros i x Hi. replace (S w + i)%nat with (w + S i)%nat by lia.
      apply Hpos. exact Hi. }
    replace (Z.of_nat w + 1) with (Z.of_nat (S w)) in Eloop by lia.
    cbn [filter length] in Hcount. rewrite (Z.eqb_sym p (fst c0)) in Eloop.
    destruct (fst c0 =? p); cbn [negb length] in *.
    + specialize (IH fuel (S w) g_left sto Hrest Hcount Eloop). lia.
    + destruct g_left as [|g']; [lia|].
      replace (wanted - Z.of_nat (S g') + 1) with (wanted - Z.of_nat g') in Eloop by lia.
      specialize (IH fuel (S w) g' sto Hrest ltac:(lia) Eloop). lia.
Qed.
End BeyondTheAwarded.

Lemma mapM_fails {A B : Type} (f : A -> result B) (l : list A) (x : A) :
  In x l -> (forall y, f x <> Ok y) -> forall ys, mapM f l <> Ok ys.
Proof.
  intros Hx Hf ys E. apply In_nth_error in Hx. destruct Hx as (i & Hi).
  destruct (mapM_nth _ _ _ i x E Hi) as (y & _ & Ey). exact (Hf y Ey).
Qed.

(** [X16]: When a party holds at least 6 seats and the other parties together
    fewer than 5, the call fails: the seat table is printed, but the
    backward walk for five more seats leaves the awarded positions, the seat
    number it aims at has no divisor, and [IndexError] is raised before
    anything is drawn. *)
Theorem crowded_out_call_fails {F : Type} `{Number F} (argsort : list F -> list nat)
    (votes : list Z) (party_names party_colors : list string) (num_seats : Z)
    (first_divisor : F) (al : allocation F) (p : nat) (s : Z) :
  sorts argsort votes num_seats first_divisor ->
  0 < num_seats < 2 ^ 32 ->
  length votes = length party_names ->
  length votes = length party_colors ->
  allocate argsort votes num_seats first_divisor = Ok al ->
  nth_error (seats_per_party al) p = Some s ->
  6 <= s -> num_seats - s < 5 ->
  (forall m, gain_entry al num_seats (Z.of_nat p) 5 <> Ok m) /\
  exists rows,
    calc_saint_lague_method argsort votes party_names party_colors num_seats first_divisor
    = ([PrintSeats rows], Raise IndexError).
Proof.
  intros Hsorts [Hn Hn32] Hnames Hcolors Hal Es Hs Hfew.
  pose proof (sorts_permutes _ _ _ _ Hsorts) as Hperm.
  destruct (seat_count_le argsort votes num_seats first_divisor al Hsorts Hal Hn p s Es)
    as (Hp & Hrange).
  assert (Hgain : forall m, gain_entry al num_seats (Z.of_nat p) 5 <> Ok m).
  { intros m E. unfold gain_entry in E. bind_inv E. unfold gain_terms in E0.
    do 7 bind_inv E0.
    assert (Es' : x4 = s).
    { rewrite (py_index_of_nat _ _ _ Es) in E5. now injection E5. }
    subst x4. apply py_index_bounds in E7.
    rewrite (length_divisors argsort votes num_seats first_divisor al Hal Hn) in E7.
    unfold max_extra_seats in E7.
    (* the walk has left the awarded positions *)
    pose proof (length_awarded argsort votes num_seats first_divisor al Hsorts Hal Hn) as La.
    pose proof (filter_length (fun c : Z * Z => (fst c =? Z.of_nat p)%Z)
                              (awarded num_seats al)) as Hsum.
    pose proof (seats_ranks_won argsort votes num_seats first_divisor al Hsorts Hal Hn p Hp)
      as Es2.
    pose proof (length_ranks_won_le argsort votes num_seats first_divisor al Hsorts Hal Hn p)
      as Hle.
    unfold ranks_won in Es2, Hle. rewrite length_map in Es2, Hle.
    rewrite uint32_small in Es2 by lia. rewrite Es in Es2. injection Es2 as Es2.
    pose proof (overtake_loop_beyond al num_seats (Z.of_nat p) 5
                  (rev (awarded num_seats al)) (walk_fuel al num_seats) 0 5 x0) as Hbeyond.
    rewrite length_rev, La, filter_rev, length_rev in Hbeyond.
    assert (Hsto : Z.of_nat (0 + Z.to_nat num_seats) < x0).
    { apply Hbeyond; [| lia | exact E1].
      intros i c Hi. cbn [Nat.add].
      apply (awarded_backward argsort votes num_seats first_divisor al Hsorts Hal Hn);
        [lia | exact Hi]. }
    lia. }
  split; [exact Hgain|].
  destruct (seat_rows_returns argsort votes party_names num_seats first_divisor al
              Hsorts Hn Hal Hnames) as (rows & Erows).
  exists rows. unfold calc_saint_lague_method.
  rewrite <- Hnames, <- Hcolors, Nat.eqb_refl. cbn [negb].
  destruct (Z.ltb_spec 0 num_seats); [|lia]. cbn [negb].
  rewrite Hal, Erows.
  destruct (votes_needed_table (gain_entry al num_seats) (length votes)) as [gain|e] eqn:Egain.
  - exfalso. unfold votes_needed_table in Egain.
    destruct (mapM_nth _ _ _ p (Z.of_nat p) Egain) as (row & _ & Erow);
      [apply nth_error_range; lia|].
    apply (mapM_fails _ _ 5 (proj2 (In_range2 1 max_extra_seats 5)
                                   ltac:(unfold max_extra_seats; lia)) Hgain row Erow).
  - f_equal. f_equal.
    apply (index_error_only_votes_needed_table (gain_entry al num_seats) (length votes));
      [|exact Egain].
    intros q g. apply index_error_only_gain_entry. lia.
Qed.

Lemma crowded_out_call_fails_witness :
  exists rows,
    calc_saint_lague_method argsort64 [1000; 1] names2 colors2 10 1.2%float
    = ([PrintSeats rows], Raise IndexError).
Proof.
  match goal with
  | |- exists _, calc_saint_lague_method ?srt ?v ?names ?colors ?n ?fd = _ =>
      destruct (allocate srt v n fd) as [al|e] eqn:E; [|vm_compute in E; discriminate E];
      destruct (crowded_out_call_fails srt v names colors n fd al 0 10) as (_ & rows & Erows)
  end.
  - apply sortsb_sound. vm_compute. reflexivity.
  - lia.
  - reflexivity.
  - reflexivity.
  - exact E.
  - vm_compute in E. injection E as <-. reflexivity.
  - lia.
  - lia.
  - exists rows. exact Erows.
Defined.
